(** * HackWave 2.0: a verification development

    The development embeds, function by function, the parts of the
    TypeScript frontend (and of the Python excerpts quoted in the
    repository's documentation) that the properties below are about:

    - [frontend/src/lib/utils.ts]          : [extractFinalAnswerText]
    - [LangGraphMemoryView.tsx]            : [isDuplicateContent],
                                             [clearMemory], [truncateText],
                                             [searchMemory] and its timer
    - [App.tsx]                            : the stream-reading loop of
                                             [handleSubmit], [handleStreamEvent],
                                             [handleCancel], [handleNewAnalysis],
                                             the loaders of a stored history
    - [InputForm.tsx]                      : [handleInternalSubmit],
                                             [handleKeyDown]
    - [ChatMessagesView.tsx]               : the text of the copy button, the
                                             bubbles and their timelines
    - [ActivityTimeline.tsx]               : [getEventIcon], [getEventColor],
                                             the entries of the card
    - [FOLLOWUP_FUNCTIONALITY.md]          : [detect_followup_and_route],
                                             [finalize_answer] (excerpts of
                                             backend/src/agent/graph.py)

    The backend itself (classifier, memory store, orchestrator) is not part
    of the sources.  Where a property is about it, the component is
    modelled from its specification, in a module of its own ([Classifier],
    [MemoryStore], [Orchestrator], [EventStream]) whose definitions say so,
    and is related to the code above wherever the two meet.

    JavaScript strings are sequences of UTF-16 code units; they are modelled
    as lists of code units ([N]), so that [trim], [split], [startsWith] and
    the regular expression of [extractFinalAnswerText] see exactly the units
    the engine sees. *)

From Stdlib Require Import Ascii String Strings.Byte QArith.
From stdpp Require Import base numbers list option countable sorting gmap.

(** ** JavaScript string primitives *)

Module Js.

(** A string value: its UTF-16 code units, in order. *)
Abbreviation jsstring := (list N).

(** A literal of the source, written with the characters of its text. *)
Definition str (s : string) : jsstring :=
  N_of_ascii <$> list_ascii_of_string s.

Definition LF : N := 10%N.
Definition SPACE : N := 32%N.

(** [WhiteSpace] and [LineTerminator] of ECMA-262: the units that [\s]
    matches and that [String.prototype.trim] strips. *)
Definition isWhiteSpace (c : N) : bool :=
  ((9 <=? c) && (c <=? 13) ||
   (c =? 32) || (c =? 160) || (c =? 5760) ||
   ((8192 <=? c) && (c <=? 8202)) ||
   (c =? 8232) || (c =? 8233) || (c =? 8239) || (c =? 8287) ||
   (c =? 12288) || (c =? 65279))%N.

Fixpoint trimStart (s : jsstring) : jsstring :=
  match s with
  | [] => []
  | c :: s' => if isWhiteSpace c then trimStart s' else s
  end.

Definition trimEnd (s : jsstring) : jsstring :=
  reverse (trimStart (reverse s)).

(** [s.trim()] *)
Definition trim (s : jsstring) : jsstring := trimEnd (trimStart s).

(** [s.startsWith(p)] *)
Fixpoint startsWith (p s : jsstring) : bool :=
  match p, s with
  | [], _ => true
  | _ :: _, [] => false
  | a :: p', b :: s' => (a =? b)%N && startsWith p' s'
  end.

(** [s.slice(n)] for [0 <= n]. *)
Definition slice (n : nat) (s : jsstring) : jsstring := drop n s.

(** The text that follows the first occurrence of [p] in [s], if any:
    [s.slice(s.indexOf(p) + p.length)] when [s.indexOf(p) >= 0]. *)
Fixpoint afterFirst (p s : jsstring) : option jsstring :=
  if startsWith p s then Some (slice (length p) s)
  else match s with
       | [] => None
       | _ :: s' => afterFirst p s'
       end.

(** [s.includes(p)] *)
Definition includes (p s : jsstring) : bool :=
  bool_decide (is_Some (afterFirst p s)).

(** [s.split(sep)] for a separator of one unit: never empty, [""] splits
    to [[""]]. *)
Fixpoint split (sep : N) (s : jsstring) : list jsstring :=
  match s with
  | [] => [[]]
  | c :: s' =>
      if (c =? sep)%N then [] :: split sep s'
      else match split sep s' with
           | [] => [[c]]
           | w :: ws => (c :: w) :: ws
           end
  end.

(** [String.prototype.toLowerCase] on texts of ASCII units: [A-Z] become
    [a-z], every other unit is kept.  (On other units the engine follows
    the Unicode case mappings; the functions below that lowercase a text
    take the mapping as a parameter, and this one instantiates it in the
    examples.) *)
Definition toLowerCaseAscii (s : jsstring) : jsstring :=
  (λ c, if (65 <=? c) && (c <=? 90) then c + 32 else c)%N <$> s.

(** [new Set(array)]: the distinct elements, in insertion order. *)
Definition Set_add `{EqDecision A} (s : list A) (x : A) : list A :=
  if bool_decide (x ∈ s) then s else s ++ [x].
Definition newSet `{EqDecision A} (a : list A) : list A :=
  foldl Set_add [] a.

(** An array's elements before the last one, and the last one:
    what [const last = a.pop()] leaves in [a] and returns. *)
Definition popped {A} (a : list A) : list A := take (length a - 1) a.
Definition pop {A} (a : list A) : option A := last a.

(** *** Facts about the primitives *)

Lemma startsWith_spec (p s : jsstring) :
  startsWith p s = true ↔ ∃ r, s = p ++ r.
Proof.
  revert s. induction p as [|a p IH]; intros s; simpl.
  - split; [intros _; by exists s | done].
  - destruct s as [|b s]; simpl.
    + split; [done | intros [r Hr]; discriminate].
    + rewrite andb_true_iff, N.eqb_eq, IH. split.
      * intros [-> [r ->]]. by exists r.
      * intros [r Hr]. injection Hr as -> ->. eauto.
Qed.

Lemma startsWith_app (p r : jsstring) : startsWith p (p ++ r) = true.
Proof. apply startsWith_spec. by exists r. Qed.

Lemma slice_app_length (p r : jsstring) : slice (length p) (p ++ r) = r.
Proof. unfold slice. by rewrite drop_app_length. Qed.

(** [afterFirst] returns what follows the leftmost occurrence. *)
Lemma afterFirst_Some (p s r : jsstring) :
  afterFirst p s = Some r →
  ∃ pre, s = pre ++ p ++ r ∧
         ∀ pre' r', s = pre' ++ p ++ r' → length pre ≤ length pre'.
Proof.
  revert r. induction s as [|c s IH]; intros r; simpl.
  - destruct p as [|a p]; simpl; [|done].
    intros [= <-]. exists []. split; [done | intros; simpl; lia].
  - destruct (startsWith p (c :: s)) eqn:E.
    + intros [= <-]. apply startsWith_spec in E as [r' Hr'].
      exists []. split; [|intros; simpl; lia].
      simpl. rewrite Hr'. by rewrite slice_app_length.
    + intros H. destruct (IH _ H) as (pre & -> & Hmin).
      exists (c :: pre). split; [done|].
      intros pre' r' Heq. destruct pre' as [|c' pre'].
      * simpl in Heq. rewrite Heq, startsWith_app in E. done.
      * injection Heq as -> Heq. simpl. apply Hmin in Heq. lia.
Qed.

Lemma afterFirst_None (p s : jsstring) :
  afterFirst p s = None → ∀ pre r, s ≠ pre ++ p ++ r.
Proof.
  induction s as [|c s IH]; simpl.
  - destruct (startsWith p []) eqn:E; [done|]. intros _ pre r Heq.
    destruct pre; simpl in Heq.
    + rewrite Heq, startsWith_app in E. done.
    + done.
  - destruct (startsWith p (c :: s)) eqn:E; [done|]. intros H pre r Heq.
    destruct pre as [|c' pre]; simpl in Heq.
    + rewrite Heq, startsWith_app in E. done.
    + injection Heq as -> Heq. by eapply IH.
Qed.

Lemma afterFirst_leftmost (p pre r : jsstring) :
  (∀ pre' r', pre ++ p ++ r = pre' ++ p ++ r' → length pre ≤ length pre') →
  afterFirst p (pre ++ p ++ r) = Some r.
Proof.
  intros Hmin. destruct (afterFirst p (pre ++ p ++ r)) as [r0|] eqn:E.
  - apply afterFirst_Some in E as (pre0 & Heq & Hmin0).
    assert (length pre0 = length pre) as Hlen.
    { apply Nat.le_antisymm; [by apply (Hmin0 pre r) | by apply (Hmin pre0 r0)]. }
    apply app_inj_1 in Heq as [-> Heq]; [|done].
    apply app_inv_head in Heq. by subst.
  - exfalso. by eapply afterFirst_None.
Qed.

Lemma includes_true (p s : jsstring) :
  includes p s = true ↔ ∃ pre r, s = pre ++ p ++ r.
Proof.
  unfold includes. rewrite bool_decide_eq_true. split.
  - intros [r Hr]. apply afterFirst_Some in Hr as (pre & -> & _). eauto.
  - intros (pre & r & ->). destruct (afterFirst p _) eqn:E; [done|].
    exfalso. by eapply afterFirst_None.
Qed.

Lemma includes_false (p s : jsstring) :
  includes p s = false ↔ ∀ pre r, s ≠ pre ++ p ++ r.
Proof.
  rewrite <-not_true_iff_false, includes_true. split.
  - intros H pre r ->. apply H. eauto.
  - intros H (pre & r & ->). by eapply H.
Qed.

(** A text that does not contain [q] contains no text built around [q]. *)
Lemma includes_infix (a q b s : jsstring) :
  includes q s = false → includes (a ++ q ++ b) s = false.
Proof.
  rewrite !includes_false. intros H pre r ->.
  apply (H (pre ++ a) (b ++ r)). by rewrite <-!(assoc_L (++)).
Qed.

Lemma trimStart_spec (s : jsstring) :
  ∃ ws, s = ws ++ trimStart s ∧ forallb isWhiteSpace ws = true ∧
        ∀ c s', trimStart s = c :: s' → isWhiteSpace c = false.
Proof.
  induction s as [|c s (ws & Heq & Hws & Hhd)]; simpl.
  - by exists [].
  - destruct (isWhiteSpace c) eqn:E.
    + exists (c :: ws). simpl. rewrite E, Hws. split; [by f_equal|done].
    + exists []. simpl. split; [done|]. split; [done|]. by intros ? ? [= <- <-].
Qed.

Lemma trimStart_app (ws s : jsstring) :
  forallb isWhiteSpace ws = true →
  (∀ c s', s = c :: s' → isWhiteSpace c = false) →
  trimStart (ws ++ s) = s.
Proof.
  intros Hws Hhd. induction ws as [|c ws IH]; simpl in *.
  - destruct s as [|c s]; [done|]. simpl. by rewrite (Hhd c s).
  - apply andb_true_iff in Hws as [-> Hws]. by apply IH.
Qed.

(** A text trims to the empty text exactly when it is white space only. *)
Lemma trimStart_blank (s : jsstring) :
  trimStart s = [] ↔ forallb isWhiteSpace s = true.
Proof.
  induction s as [|c s IH]; simpl; [done|].
  destruct (isWhiteSpace c); simpl; [done|]. split; done.
Qed.

Lemma trim_blank (s : jsstring) :
  trim s = [] ↔ forallb isWhiteSpace s = true.
Proof.
  unfold trim, trimEnd. rewrite <-trimStart_blank. split.
  - intros Hr. apply (f_equal reverse) in Hr.
    rewrite reverse_involutive, reverse_nil in Hr.
    destruct (trimStart (reverse (trimStart s))) as [|c r] eqn:E; [|done].
    apply trimStart_blank in E. destruct (trimStart_spec s) as (ws & Hs & _ & Hhd).
    destruct (trimStart s) as [|c s'] eqn:Es; [done|].
    specialize (Hhd c s' eq_refl).
    rewrite reverse_cons, forallb_app in E. simpl in E.
    rewrite Hhd in E. by rewrite andb_false_r in E.
  - by intros ->.
Qed.

Lemma toLowerCaseAscii_empty (s : jsstring) : toLowerCaseAscii s = [] ↔ s = [].
Proof. split; [apply fmap_nil_inv | by intros ->]. Qed.

Lemma popped_snoc {A} (a : list A) (x : A) : popped (a ++ [x]) = a.
Proof.
  unfold popped. rewrite length_app. simpl.
  replace (length a + 1 - 1) with (length a) by lia. by rewrite take_app_length.
Qed.

Lemma pop_snoc {A} (a : list A) (x : A) : pop (a ++ [x]) = Some x.
Proof. apply last_snoc. Qed.

Lemma popped_app_nonempty {A} (a b : list A) :
  b ≠ [] → popped (a ++ b) = a ++ popped b.
Proof.
  intros Hb. destruct b as [|x b _] using rev_ind; [done|].
  by rewrite (assoc_L (++)), !popped_snoc.
Qed.

Lemma pop_app_nonempty {A} (a b : list A) : b ≠ [] → pop (a ++ b) = pop b.
Proof.
  intros Hb. destruct b as [|x b _] using rev_ind; [done|].
  by rewrite (assoc_L (++)), !pop_snoc.
Qed.

Lemma popped_cons {A} (x y : A) (a : list A) :
  popped (x :: y :: a) = x :: popped (y :: a).
Proof. unfold popped. simpl. by rewrite Nat.sub_0_r. Qed.

Lemma pop_cons {A} (x y : A) (a : list A) : pop (x :: y :: a) = pop (y :: a).
Proof. done. Qed.

Lemma split_nonempty (sep : N) (s : jsstring) : split sep s ≠ [].
Proof.
  destruct s as [|c s]; simpl; [done|].
  destruct (c =? sep)%N; [done|]. by destruct (split sep s).
Qed.

(** Splitting a text that continues: the complete pieces of the first part
    stay, and its last, unfinished piece is continued by the second part. *)
Lemma split_app (sep : N) (x y : jsstring) :
  split sep (x ++ y)
  = popped (split sep x) ++ split sep (default [] (pop (split sep x)) ++ y).
Proof.
  induction x as [|c x IH]; simpl; [done|].
  destruct (c =? sep)%N eqn:E.
  - rewrite IH. destruct (split sep x) as [|w ws] eqn:Ex.
    { by apply split_nonempty in Ex. }
    by rewrite popped_cons, pop_cons.
  - rewrite IH. destruct (split sep x) as [|w [|w' ws]] eqn:Ex.
    + by apply split_nonempty in Ex.
    + cbn. by rewrite E.
    + by rewrite !popped_cons, !pop_cons.
Qed.

Lemma split_snoc_sep (sep : N) (x : jsstring) :
  split sep (x ++ [sep]) = split sep x ++ [[]].
Proof.
  induction x as [|c x IH]; simpl.
  - by rewrite N.eqb_refl.
  - rewrite IH. destruct (c =? sep)%N; [done|].
    destruct (split sep x) eqn:Ex; [by apply split_nonempty in Ex | done].
Qed.

Lemma split_no_sep (sep : N) (s : jsstring) : sep ∉ s → split sep s = [s].
Proof.
  induction s as [|c s IH]; simpl; [done|].
  intros Hnot. apply not_elem_of_cons in Hnot as [Hne Hnot].
  destruct (N.eqb_spec c sep) as [->|_]; [done|]. by rewrite IH.
Qed.

Lemma split_last_line (sep : N) (text rest : jsstring) :
  sep ∉ rest → split sep (text ++ [sep] ++ rest) = split sep text ++ [rest].
Proof.
  intros Hnot. rewrite (assoc_L (++)), split_app, split_snoc_sep.
  rewrite popped_snoc, pop_snoc. simpl. by rewrite (split_no_sep sep rest).
Qed.

Lemma includes_cons_false (p : jsstring) (c : N) (s : jsstring) :
  includes p (c :: s) = false → includes p s = false.
Proof.
  rewrite !includes_false. intros H pre r ->. by apply (H (c :: pre) r).
Qed.

Lemma includes_app_r_false (p ws s : jsstring) :
  includes p (ws ++ s) = false → includes p s = false.
Proof.
  induction ws as [|c ws IH]; simpl; [done|].
  intros H. by apply IH, (includes_cons_false p c).
Qed.

Lemma trimStart_suffix (s : jsstring) : ∃ ws, s = ws ++ trimStart s.
Proof. destruct (trimStart_spec s) as (ws & Hs & _). by exists ws. Qed.

Lemma trimStart_idemp (s : jsstring) : trimStart (trimStart s) = trimStart s.
Proof.
  destruct (trimStart_spec s) as (_ & _ & _ & Hhd).
  by apply (trimStart_app [] (trimStart s)).
Qed.

Lemma trim_trimStart (s : jsstring) : trim (trimStart s) = trim s.
Proof. unfold trim. by rewrite trimStart_idemp. Qed.

(** An occurrence of [p] in [text ++ gap ++ p ++ r] that starts before the
    one shown would lie in [text] or hold a unit of [gap]. *)
Lemma leftmost_after_gap (text gap p r pre' r' : jsstring) :
  includes p text = false →
  gap ≠ [] →
  (∀ c, c ∈ gap → c ∉ p) →
  text ++ gap ++ p ++ r = pre' ++ p ++ r' →
  length (text ++ gap) ≤ length pre'.
Proof.
  intros Hinc Hne Hgap Heq. rewrite length_app.
  assert (0 < length gap) by (destruct gap; [done|simpl; lia]).
  assert (0 < length p).
  { destruct p; [|simpl; lia]. rewrite includes_false in Hinc.
    by destruct (Hinc [] text). }
  destruct (decide (length text + length gap ≤ length pre')) as [|Hlt]; [done|].
  exfalso. destruct (decide (length pre' + length p ≤ length text)) as [Hin|Hout].
  - apply (f_equal (take (length text))) in Heq.
    rewrite take_app_length, (assoc_L (++) pre' p r') in Heq.
    rewrite take_app_ge, <-(assoc_L (++)) in Heq by (rewrite length_app; lia).
    rewrite includes_false in Hinc. by apply Hinc in Heq.
  - assert (∃ i, length text ≤ i < length text + length gap
                 ∧ length pre' ≤ i < length pre' + length p) as (i & Hi1 & Hi2).
    { exists (length text `max` length pre'). lia. }
    assert (∃ c, (text ++ gap ++ p ++ r) !! i = Some c ∧ c ∈ gap)
      as (c & Hc & Hcg).
    { rewrite lookup_app_r by lia.
      destruct (lookup_lt_is_Some_2 gap (i - length text)) as [c Hc]; [lia|].
      exists c. rewrite lookup_app_l by lia.
      split; [done|]. by eapply list_elem_of_lookup_2. }
    rewrite Heq, lookup_app_r in Hc by lia.
    rewrite lookup_app_l in Hc by lia.
    apply (Hgap c Hcg). by eapply list_elem_of_lookup_2.
Qed.

Section SetFacts.
Context `{Countable A}.
Implicit Types a s : list A.

Lemma elem_of_foldl_Set_add a s x :
  x ∈ foldl Set_add s a ↔ x ∈ s ∨ x ∈ a.
Proof.
  revert s. induction a as [|y a IH]; intros s; simpl.
  - rewrite elem_of_nil. tauto.
  - rewrite IH, elem_of_cons. unfold Set_add. case_bool_decide.
    + split; [tauto|]. intros [?|[->|?]]; tauto.
    + rewrite elem_of_app, list_elem_of_singleton. tauto.
Qed.

Lemma NoDup_foldl_Set_add a s : NoDup s → NoDup (foldl Set_add s a).
Proof.
  revert s. induction a as [|y a IH]; intros s Hs; simpl; [done|].
  apply IH. unfold Set_add. case_bool_decide; [done|].
  apply NoDup_app. split; [done|]. split; [|apply NoDup_singleton].
  intros x Hx ->%list_elem_of_singleton. done.
Qed.

Lemma elem_of_newSet a x : x ∈ newSet a ↔ x ∈ a.
Proof. unfold newSet. rewrite elem_of_foldl_Set_add, elem_of_nil. tauto. Qed.

Lemma NoDup_newSet a : NoDup (newSet a).
Proof. apply NoDup_foldl_Set_add, NoDup_nil_2. Qed.

(** The [size] of a [Set] built from an array is the number of distinct
    elements of the array. *)
Lemma length_newSet a : length (newSet a) = size (list_to_set (C:=gset A) a).
Proof.
  rewrite <-(size_list_to_set (C:=gset A) (newSet a)) by apply NoDup_newSet.
  f_equal. apply set_eq. intros x. by rewrite !elem_of_list_to_set, elem_of_newSet.
Qed.

End SetFacts.

End Js.

(** ** [frontend/src/lib/utils.ts] *)

Module Utils.
Import Js.

(** The marker the function looks for: [**Final Answer:**]. *)
Definition marker : jsstring := str "**Final Answer:**".

(** The lookahead [(?=\n\n\*\*|$)]: a blank line followed by [**], or the
    end of the input. *)
Definition lookahead (s : jsstring) : bool :=
  startsWith [LF; LF; 42; 42]%N s || bool_decide (s = []).

(** The lazy group [([\s\S]*?)] followed by the lookahead: the shortest
    prefix after which the lookahead holds.  The end of the input always
    satisfies the lookahead, so the group always matches. *)
Fixpoint lazyGroup (s : jsstring) : jsstring :=
  if lookahead s then []
  else match s with
       | [] => []
       | c :: s' => c :: lazyGroup s'
       end.

(** [messageContent.match(/\*\*Final Answer:\*\*\s*([\s\S]*?)(?=\n\n\*\*|$)/)],
    reduced to its capture group 1.  The match starts at the leftmost
    occurrence of the marker; [\s*] is greedy and, since the rest of the
    pattern matches after any position, keeps every white-space unit that
    follows the marker. *)
Definition finalAnswerMatch (messageContent : jsstring) : option jsstring :=
  rest ← afterFirst marker messageContent;
  Some (lazyGroup (trimStart rest)).

Definition extractFinalAnswerText (messageContent : jsstring) : jsstring :=
  if includes marker messageContent then
    match finalAnswerMatch messageContent with
    | Some group1 => trim group1
    | None => messageContent
    end
  else messageContent.

(** *** The segment the regular expression selects, stated on the text

    [cap] is the final-answer segment of [s] when [s] reads
    [pre ++ marker ++ ws ++ cap ++ rest] where the marker occurrence is the
    leftmost one, [ws] is the whole run of white space that follows it,
    [rest] is empty or starts with a blank line and [**], and no earlier
    position of [cap] is followed by such a header. *)
Definition FinalAnswerSegment (s cap : jsstring) : Prop :=
  ∃ pre ws rest,
    s = pre ++ marker ++ ws ++ cap ++ rest ∧
    (∀ pre' r', s = pre' ++ marker ++ r' → length pre ≤ length pre') ∧
    forallb isWhiteSpace ws = true ∧
    (∀ c t, cap ++ rest = c :: t → isWhiteSpace c = false) ∧
    lookahead rest = true ∧
    (∀ k, k < length cap → lookahead (drop k (cap ++ rest)) = false).

(** What the specification's sentence describes: the text that follows the
    first [Final Answer:] up to a following line that starts a bold header
    (or the end); the whole text when the token is absent. *)
Definition specToken : jsstring := str "Final Answer:".

Fixpoint untilBoldHeader (s : jsstring) : jsstring :=
  if startsWith [LF; 42; 42]%N s then []
  else match s with
       | [] => []
       | c :: s' => c :: untilBoldHeader s'
       end.

Definition specExtract (moderatorOutput : jsstring) : jsstring :=
  match afterFirst specToken moderatorOutput with
  | Some rest => untilBoldHeader rest
  | None => moderatorOutput
  end.

Lemma lazyGroup_spec (s : jsstring) :
  ∃ rest, s = lazyGroup s ++ rest ∧ lookahead rest = true ∧
          ∀ k, k < length (lazyGroup s) → lookahead (drop k s) = false.
Proof.
  induction s as [|c s (rest & Heq & Hla & Hmin)].
  - exists []. simpl. split; [done|]. split; [done|]. intros k Hk. simpl in Hk. lia.
  - simpl. destruct (lookahead (c :: s)) eqn:E.
    + exists (c :: s). split; [done|]. split; [done|]. simpl. lia.
    + exists rest. split; [simpl; by f_equal|]. split; [done|].
      intros [|k] Hk; simpl in *; [done|]. apply Hmin. lia.
Qed.

Lemma lazyGroup_shortest (cap rest : jsstring) :
  lookahead rest = true →
  (∀ k, k < length cap → lookahead (drop k (cap ++ rest)) = false) →
  lazyGroup (cap ++ rest) = cap.
Proof.
  intros Hla. induction cap as [|c cap IH]; intros Hmin.
  - simpl. destruct rest; simpl in *; by rewrite ?Hla.
  - assert (lookahead ((c :: cap) ++ rest) = false) as H0.
    { apply (Hmin 0). simpl. lia. }
    simpl in *. rewrite H0. f_equal. apply IH.
    intros k Hk. apply (Hmin (S k)). lia.
Qed.

Lemma finalAnswerMatch_segment (s cap : jsstring) :
  FinalAnswerSegment s cap → finalAnswerMatch s = Some cap.
Proof.
  intros (pre & ws & rest & -> & Hleft & Hws & Hhd & Hla & Hmin).
  unfold finalAnswerMatch. rewrite afterFirst_leftmost by done. simpl.
  by rewrite trimStart_app, lazyGroup_shortest.
Qed.

Lemma finalAnswerMatch_exists (s : jsstring) :
  includes marker s = true →
  ∃ cap, finalAnswerMatch s = Some cap ∧ FinalAnswerSegment s cap.
Proof.
  unfold includes. rewrite bool_decide_eq_true. intros [r Hr].
  unfold finalAnswerMatch. rewrite Hr. simpl.
  exists (lazyGroup (trimStart r)). split; [done|].
  apply afterFirst_Some in Hr as (pre & -> & Hleft).
  destruct (trimStart_spec r) as (ws & Hr & Hws & Hhd).
  destruct (lazyGroup_spec (trimStart r)) as (rest & Hcap & Hla & Hmin).
  exists pre, ws, rest. rewrite <-Hcap, <-Hr. done.
Qed.

(** C1 (as amended). The function looks for the bold marker
    [**Final Answer:**], not for the bare token: when the marker occurs,
    the result is the trimmed final-answer segment of the text (the text
    between the white space after the leftmost marker and the first
    following blank line that starts with [**], or the end); when the
    marker does not occur, and in particular when the token
    [Final Answer:] does not occur at all, the result is the input,
    unchanged. *)
Theorem extractFinalAnswerText_segment (messageContent : jsstring) :
  (includes specToken messageContent = false →
     extractFinalAnswerText messageContent = messageContent) ∧
  (includes marker messageContent = false →
     extractFinalAnswerText messageContent = messageContent) ∧
  (∀ cap, FinalAnswerSegment messageContent cap →
     extractFinalAnswerText messageContent = trim cap) ∧
  (includes marker messageContent = true →
     ∃ cap, FinalAnswerSegment messageContent cap).
Proof.
  unfold extractFinalAnswerText. repeat split.
  - intros H. by rewrite (includes_infix (str "**") specToken (str "**")).
  - by intros ->.
  - intros cap Hseg. rewrite (finalAnswerMatch_segment _ _ Hseg).
    destruct Hseg as (pre & ws & rest & -> & _).
    by rewrite (proj2 (includes_true _ _)) by eauto.
  - intros H. destruct (finalAnswerMatch_exists _ H) as (cap & _ & Hseg). eauto.
Qed.

(** C1, a text on which the sentence of the specification and the function
    differ: the token is present but not written in bold, so the function
    returns the whole text where the sentence selects [" 42"]. *)
Lemma extractFinalAnswerText_bare_token :
  includes specToken (str "intro Final Answer: 42") = true ∧
  extractFinalAnswerText (str "intro Final Answer: 42")
    = str "intro Final Answer: 42" ∧
  specExtract (str "intro Final Answer: 42") = str " 42".
Proof. by vm_compute. Qed.

(** C1, the amended statement at a concrete text: a marker, a line break and
    a space, the answer, then a blank line and the next bold header. *)
Lemma extractFinalAnswerText_segment_witness :
  extractFinalAnswerText
    (str "x **Final Answer:**" ++ [LF; SPACE] ++ str "42 " ++ [LF; LF]
       ++ str "**Next**") = str "42".
Proof.
  change (str "42") with (trim (str "42 ")).
  apply (proj1 (proj2 (proj2 (extractFinalAnswerText_segment _)))).
  exists (str "x "), [LF; SPACE], ([LF; LF] ++ str "**Next**").
  split; [reflexivity|]. split.
  { intros [|a [|b pre']] r' Heq; simpl; try lia; vm_compute in Heq; discriminate. }
  split; [reflexivity|]. split.
  { by intros c t' [= <- <-]. }
  split; [reflexivity|].
  intros [|[|[|k]]] Hk; [reflexivity..|simpl in Hk; lia].
Defined.

End Utils.

(** ** [LangGraphMemoryView.tsx] *)

Module MemoryView.
Import Js.

(** [interface LangGraphMemoryEntry].  The attribute bag [context] is kept
    as its list of keys and rendered values. *)
Record LangGraphMemoryEntry : Type := {
  thread_id : jsstring;
  user_query : jsstring;
  response : jsstring;
  context : list (jsstring * jsstring);
  timestamp : jsstring;
  entry_id : jsstring;
}.

(** [intersection.size / union.size > 0.8] on the two sizes.  The operands
    are non-negative integers far below 2^53, so the quotient is the double
    nearest to the exact ratio, and the literal [0.8] is the double nearest
    to 4/5: the rounded quotient exceeds the literal exactly when the exact
    ratio exceeds 4/5.  A zero divisor gives [Infinity], or [NaN] for 0/0,
    and [NaN > 0.8] is false. *)
Definition ratioExceeds80 (a b : nat) : bool :=
  match b with
  | 0 => negb (a =? 0)
  | _ => 4 * b <? 5 * a
  end.

(** The set of words of a text, as [new Set(text.split(' '))] holds it, and
    the Jaccard similarity of two such sets. *)
Definition wordSet (text : jsstring) : gset (list N) :=
  list_to_set (split SPACE text).

Definition jaccard (X Y : gset (list N)) : Q :=
  Qmake (Z.of_nat (size (X ∩ Y))) (Pos.of_nat (size (X ∪ Y))).

(** The write-side guard as the specification words it: the fingerprint of
    a response is its lowercased text with every run of white space
    collapsed to one space, and a new entry is tagged when one of the last
    five entries of its thread has the same fingerprint. *)
Fixpoint collapseWhitespace (inRun : bool) (s : jsstring) : jsstring :=
  match s with
  | [] => []
  | c :: s' =>
      if isWhiteSpace c
      then (if inRun then collapseWhitespace true s'
            else SPACE :: collapseWhitespace true s')
      else c :: collapseWhitespace false s'
  end.

Definition lastEntries {A} (n : nat) (l : list A) : list A :=
  drop (length l - n) l.

(** *** The sizes the function compares are those of the word sets *)

Lemma intersection_size (cur prev : jsstring) :
  length (newSet (filter (λ x, x ∈ newSet (split SPACE prev))
                         (newSet (split SPACE cur))))
  = size (wordSet cur ∩ wordSet prev).
Proof.
  rewrite length_newSet. f_equal. apply set_eq. intros x. unfold wordSet.
  rewrite elem_of_intersection, !elem_of_list_to_set, list_elem_of_filter,
    !elem_of_newSet. tauto.
Qed.

Lemma union_size (cur prev : jsstring) :
  length (newSet (newSet (split SPACE cur) ++ newSet (split SPACE prev)))
  = size (wordSet cur ∪ wordSet prev).
Proof.
  rewrite length_newSet. f_equal. apply set_eq. intros x. unfold wordSet.
  rewrite elem_of_union, !elem_of_list_to_set, elem_of_app, !elem_of_newSet.
  tauto.
Qed.

Lemma wordSet_union_size (cur prev : jsstring) :
  size (wordSet cur ∪ wordSet prev) ≠ 0.
Proof.
  intros Hsz. apply size_empty_iff in Hsz.
  destruct (split SPACE cur) as [|w ws] eqn:E; [by apply split_nonempty in E|].
  assert (w ∈ wordSet cur ∪ wordSet prev) as Hw.
  { apply elem_of_union_l. unfold wordSet. rewrite E. set_solver. }
  rewrite Hsz in Hw. set_solver.
Qed.

Lemma ratioExceeds80_jaccard (X Y : gset (list N)) :
  size (X ∪ Y) ≠ 0 →
  ratioExceeds80 (size (X ∩ Y)) (size (X ∪ Y)) = true ↔ (4 # 5 < jaccard X Y)%Q.
Proof.
  intros Hu. unfold jaccard, Qlt. simpl.
  rewrite <-(positive_nat_Z (Pos.of_nat _)), Nat2Pos.id by done.
  unfold ratioExceeds80. destruct (size (X ∪ Y)) as [|u] eqn:E; [done|].
  rewrite Nat.ltb_lt. lia.
Qed.

Section WithLowerCase.

(** [String.prototype.toLowerCase]. *)
Variable toLowerCase : jsstring → jsstring.

(** Lowercasing maps the empty text, and no other, to the empty text. *)
Hypothesis toLowerCase_empty : ∀ s, toLowerCase s = [] ↔ s = [].



(** [const isDuplicateContent = (entry, index) => ...], with the component
    state [memoryEntries] it reads made a parameter.  A missing
    [memoryEntries[index - 1]] and an empty previous text are both falsy in
    [if (!previousText) return false]. *)
Definition isDuplicateContent (memoryEntries : list LangGraphMemoryEntry)
    (entry : LangGraphMemoryEntry) (index : nat) : bool :=
  if bool_decide (index = 0) then false
  else
    let currentText := toLowerCase (response entry) in
    match memoryEntries !! (index - 1) with
    | None => false
    | Some previous =>
        let previousText := toLowerCase (response previous) in
        if bool_decide (previousText = []) then false
        else if bool_decide (currentText = previousText) then true
        else
          let currentWords := newSet (split SPACE currentText) in
          let previousWords := newSet (split SPACE previousText) in
          let intersection :=
            newSet (filter (λ x, x ∈ previousWords) currentWords) in
          let union := newSet (currentWords ++ previousWords) in
          ratioExceeds80 (length intersection) (length union)
    end.


Lemma isDuplicateContent_step (memoryEntries : list LangGraphMemoryEntry)
    (entry previous : LangGraphMemoryEntry) (index : nat) :
  memoryEntries !! index = Some previous →
  isDuplicateContent memoryEntries entry (S index) =
    if bool_decide (response previous = []) then false
    else if bool_decide (toLowerCase (response entry)
                         = toLowerCase (response previous)) then true
    else
      let X := wordSet (toLowerCase (response entry)) in
      let Y := wordSet (toLowerCase (response previous)) in
      ratioExceeds80 (size (X ∩ Y)) (size (X ∪ Y)).
Proof.
  intros Hprev. unfold isDuplicateContent.
  rewrite bool_decide_eq_false_2 by done.
  replace (S index - 1) with index by lia. rewrite Hprev. cbv zeta.
  rewrite (bool_decide_ext _ _ (toLowerCase_empty (response previous))).
  by rewrite intersection_size, union_size.
Qed.

Lemma isDuplicateContent_missing (memoryEntries : list LangGraphMemoryEntry)
    (entry : LangGraphMemoryEntry) (index : nat) :
  memoryEntries !! index = None →
  isDuplicateContent memoryEntries entry (S index) = false.
Proof.
  intros Hnone. unfold isDuplicateContent.
  rewrite bool_decide_eq_false_2 by done.
  replace (S index - 1) with index by lia. by rewrite Hnone.
Qed.

(** C10 (as amended). The entry at index 0 is never flagged.  An entry at a
    later index is compared with the entry listed immediately before it and
    with no other: when that entry's response is empty the entry is never
    flagged; when it is not empty, the entry is flagged if the two responses
    are equal up to case, and otherwise exactly when the Jaccard similarity
    of the space-split word sets of the two lowercased responses exceeds
    4/5. *)
Theorem isDuplicateContent_previous_entry
    (memoryEntries : list LangGraphMemoryEntry) (entry : LangGraphMemoryEntry) :
  isDuplicateContent memoryEntries entry 0 = false ∧
  (∀ index previous, memoryEntries !! index = Some previous →
     (response previous = [] →
        isDuplicateContent memoryEntries entry (S index) = false) ∧
     (response previous ≠ [] →
        toLowerCase (response entry) = toLowerCase (response previous) →
        isDuplicateContent memoryEntries entry (S index) = true) ∧
     (response previous ≠ [] →
        toLowerCase (response entry) ≠ toLowerCase (response previous) →
        (isDuplicateContent memoryEntries entry (S index) = true ↔
           (4 # 5 < jaccard (wordSet (toLowerCase (response entry)))
                            (wordSet (toLowerCase (response previous))))%Q))) ∧
  (∀ index, memoryEntries !! index = None →
     isDuplicateContent memoryEntries entry (S index) = false) ∧
  (∀ others index, others !! (index - 1) = memoryEntries !! (index - 1) →
     isDuplicateContent others entry index
     = isDuplicateContent memoryEntries entry index).
Proof.
  split; [done|]. split; [|split].
  - intros index previous Hprev.
    rewrite (isDuplicateContent_step _ _ _ _ Hprev). split; [|split].
    + intros ->. done.
    + intros Hne Heq. by rewrite bool_decide_eq_false_2, bool_decide_eq_true_2.
    + intros Hne Hdiff. rewrite !bool_decide_eq_false_2 by done. cbv zeta.
      apply ratioExceeds80_jaccard, wordSet_union_size.
  - apply isDuplicateContent_missing.
  - intros others index Heq. unfold isDuplicateContent. by rewrite Heq.
Qed.



End WithLowerCase.

(** *** [clearMemory] and [fetchMemoryEntries]

    The state of the component, the answer of [confirm], and what the
    [DELETE] request returns ([None] when [fetch] rejects, with the
    message of the error). *)
Record LangGraphMemoryStats : Type := {
  total_entries : nat;
  thread_count : nat;
  storage_type : jsstring;
}.

Record ViewState : Type := {
  memoryEntries : list LangGraphMemoryEntry;
  memoryStats : option LangGraphMemoryStats;
  searchResults : list LangGraphMemoryEntry;
  isLoading : bool;
  error : option jsstring;
  success : option jsstring;
}.

Record ClearResponse : Type := {
  ok : bool;
  cleared : bool;
  clearError : option jsstring;
}.

Definition clearMemory (threadId : jsstring) (confirmed : bool)
    (response : ClearResponse + jsstring) (st : ViewState) : ViewState :=
  if bool_decide (threadId = []) then st
  else if negb confirmed then st
  else
    match response with
    | inl data =>
        if ok data && cleared data then
          {| memoryEntries := []; memoryStats := None; searchResults := [];
             isLoading := false; error := None;
             success := Some (str "Memory cleared successfully") |}
        else
          {| memoryEntries := memoryEntries st; memoryStats := memoryStats st;
             searchResults := searchResults st; isLoading := false;
             error := Some (str "Failed to clear memory: "
                              ++ default (str "Unknown error") (clearError data));
             success := success st |}
    | inr message =>
        {| memoryEntries := memoryEntries st; memoryStats := memoryStats st;
           searchResults := searchResults st; isLoading := false;
           error := Some (str "Clear error: " ++ message);
           success := success st |}
    end.

(** *** Concrete lists of entries *)

Definition entryWith (r : jsstring) : LangGraphMemoryEntry :=
  {| thread_id := str "frontend_thread_1";
     user_query := str "What pricing strategy should I use?";
     response := r;
     context := [];
     timestamp := str "2025-01-25T10:30:00Z";
     entry_id := str "entry" |}.

Lemma jaccard_words_one_replaced :
  (4 # 5 < jaccard (wordSet (str "a b c d e f g h i k"))
                   (wordSet (str "a b c d e f g h i j")))%Q.
Proof.
  apply ratioExceeds80_jaccard; [apply wordSet_union_size|].
  rewrite <-intersection_size, <-union_size. by vm_compute.
Qed.

(** C10, the amended statement at a concrete list: two responses that differ
    in one word out of ten. *)
Lemma isDuplicateContent_previous_entry_witness :
  isDuplicateContent toLowerCaseAscii
    [entryWith (str "a b c d e f g h i j"); entryWith (str "A B C D E F G H I K")]
    (entryWith (str "A B C D E F G H I K")) 1 = true.
Proof.
  pose proof (isDuplicateContent_previous_entry toLowerCaseAscii
                toLowerCaseAscii_empty
                [entryWith (str "a b c d e f g h i j");
                 entryWith (str "A B C D E F G H I K")]
                (entryWith (str "A B C D E F G H I K"))) as (_ & Hstep & _).
  destruct (Hstep 0 (entryWith (str "a b c d e f g h i j")) eq_refl)
    as (_ & _ & Hjac).
  apply Hjac; [done | by vm_compute | apply jaccard_words_one_replaced].
Defined.

(** C10, lists on which the claim fails: the previous response is empty.
    The second entry equals the first up to case and is not flagged; and a
    response of one space, whose word set is that of the empty response
    (similarity 1), is not flagged either. *)
Lemma isDuplicateContent_empty_previous :
  toLowerCaseAscii (response (entryWith [])) = toLowerCaseAscii (response (entryWith [])) ∧
  isDuplicateContent toLowerCaseAscii [entryWith []; entryWith []] (entryWith []) 1 = false ∧
  toLowerCaseAscii [SPACE] ≠ toLowerCaseAscii [] ∧
  (4 # 5 < jaccard (wordSet (toLowerCaseAscii [SPACE])) (wordSet (toLowerCaseAscii [])))%Q ∧
  isDuplicateContent toLowerCaseAscii [entryWith []; entryWith [SPACE]]
    (entryWith [SPACE]) 1 = false.
Proof.
  split; [done|]. split; [done|]. split; [done|]. split; [|done].
  apply ratioExceeds80_jaccard; [apply wordSet_union_size|].
  rewrite <-intersection_size, <-union_size. by vm_compute.
Qed.



End MemoryView.

(** ** [App.tsx]: reading the event stream *)

Module StreamReader.
Import Js.

(** [interface StreamEvent] *)
Record StreamEvent : Type := { type : jsstring; content : jsstring }.

Section Loop.

(** [new TextDecoder()] and [decoder.decode(value, { stream: true })]: the
    decoder keeps the bytes of an unfinished character from one call to the
    next, so that the text of two chunks read one after the other is the
    text of the two chunks read as one; a chunk of no bytes yields no text. *)
Variable TextDecoder : Type.
Variable newTextDecoder : TextDecoder.
Variable decode : TextDecoder → list byte → TextDecoder * jsstring.

Hypothesis decode_nil : ∀ d, decode d [] = (d, []).
Hypothesis decode_app : ∀ d value1 value2,
  decode d (value1 ++ value2)
  = let '(d1, text1) := decode d value1 in
    let '(d2, text2) := decode d1 value2 in
    (d2, text1 ++ text2).

(** [JSON.parse], with [None] for the [SyntaxError] it throws. *)
Variable JSON_parse : jsstring → option StreamEvent.

(** The local variables of the loop, and the events passed to
    [handleStreamEvent] so far, in order. *)
Record LoopState : Type := {
  decoder : TextDecoder;
  buffer : jsstring;
  dispatched : list StreamEvent;
}.

(** The body of [for (const line of lines)]: a line that does not start
    with [data: ], or whose remainder does not parse, dispatches nothing,
    and the loop goes on. *)
Definition onLine (line : jsstring) : option StreamEvent :=
  if startsWith (str "data: ") line then JSON_parse (slice 6 line) else None.

(** One turn of [while (true)] for a chunk [value] that [reader.read()]
    returned with [done] false. *)
Definition onChunk (st : LoopState) (value : list byte) : LoopState :=
  let '(d, text) := decode (decoder st) value in
  let buffer0 := buffer st ++ text in
  let lines := split LF buffer0 in
  {| decoder := d;
     buffer := default [] (pop lines);
     dispatched := dispatched st ++ omap onLine (popped lines) |}.

(** The loop, over the chunks the reader returns before [done]. *)
Definition readLoop (chunks : list (list byte)) : LoopState :=
  foldl onChunk
    {| decoder := newTextDecoder; buffer := []; dispatched := [] |} chunks.

(** The text of a response body. *)
Definition decodeAll (body : list byte) : jsstring :=
  (decode newTextDecoder body).2.

(** *** The loop invariant: after any chunks, the state is the one a single
    chunk holding all their bytes would have produced. *)

Definition stateAfter (body : list byte) : LoopState :=
  let '(d, text) := decode newTextDecoder body in
  {| decoder := d;
     buffer := default [] (pop (split LF text));
     dispatched := omap onLine (popped (split LF text)) |}.

Lemma onChunk_stateAfter (body value : list byte) :
  onChunk (stateAfter body) value = stateAfter (body ++ value).
Proof.
  unfold onChunk, stateAfter. rewrite decode_app.
  destruct (decode newTextDecoder body) as [d1 text1]. simpl.
  destruct (decode d1 value) as [d2 text2]. simpl.
  rewrite (split_app LF text1 text2), popped_app_nonempty, pop_app_nonempty
    by apply split_nonempty.
  by rewrite omap_app.
Qed.

Lemma foldl_onChunk_stateAfter (body : list byte) (chunks : list (list byte)) :
  foldl onChunk (stateAfter body) chunks = stateAfter (body ++ concat chunks).
Proof.
  revert body. induction chunks as [|value chunks IH]; intros body; simpl.
  - by rewrite (right_id_L [] (++)).
  - by rewrite onChunk_stateAfter, IH, (assoc_L (++)).
Qed.

Lemma readLoop_stateAfter (chunks : list (list byte)) :
  readLoop chunks = stateAfter (concat chunks).
Proof.
  unfold readLoop.
  replace {| decoder := newTextDecoder; buffer := []; dispatched := [] |}
    with (stateAfter []) by (unfold stateAfter; by rewrite decode_nil).
  apply (foldl_onChunk_stateAfter [] chunks).
Qed.

Lemma onLine_Some (line : jsstring) (event : StreamEvent) :
  onLine line = Some event ↔
  ∃ json, line = str "data: " ++ json ∧ JSON_parse json = Some event.
Proof.
  unfold onLine. destruct (startsWith (str "data: ") line) eqn:E.
  - apply startsWith_spec in E as [json ->].
    change 6 with (length (str "data: ")). rewrite slice_app_length. split.
    + intros Hp. by exists json.
    + intros (json' & Heq & Hp). by apply app_inv_head in Heq as ->.
  - split; [done|]. intros (json & -> & _). by rewrite startsWith_app in E.
Qed.

(** C9. The events passed to the handler do not depend on how the bytes of
    the response are cut into chunks.  When the text of the response ends
    with a line feed, they are, in order and once each, the events of the
    lines of that text: a line [data: ] followed by a text that
    [JSON.parse] accepts yields the parsed event, every other line yields
    nothing, and the loop reads on to the last line (the buffer ends
    empty). *)
Theorem readLoop_chunking (chunks : list (list byte)) :
  (∀ chunks', concat chunks' = concat chunks →
     dispatched (readLoop chunks') = dispatched (readLoop chunks)) ∧
  (∀ text, decodeAll (concat chunks) = text ++ [LF] →
     dispatched (readLoop chunks) = omap onLine (split LF text) ∧
     buffer (readLoop chunks) = []) ∧
  (∀ line event,
     onLine line = Some event ↔
     ∃ json, line = str "data: " ++ json ∧ JSON_parse json = Some event).
Proof.
  split; [|split].
  - intros chunks' Heq. by rewrite !readLoop_stateAfter, Heq.
  - intros text Htext. rewrite readLoop_stateAfter. unfold stateAfter.
    unfold decodeAll in Htext.
    destruct (decode newTextDecoder (concat chunks)) as [d text']. simpl in *.
    subst text'. by rewrite split_snoc_sep, popped_snoc, pop_snoc.
  - apply onLine_Some.
Qed.

(** X2. What follows the last line feed of the response is never
    dispatched: it is left in the buffer when the stream ends, even when it
    is a complete [data: ] record.  The events dispatched are those of the
    lines that a line feed ends. *)
Theorem readLoop_unterminated_line (chunks : list (list byte))
    (text rest : jsstring) :
  decodeAll (concat chunks) = text ++ [LF] ++ rest →
  LF ∉ rest →
  dispatched (readLoop chunks) = omap onLine (split LF text) ∧
  buffer (readLoop chunks) = rest.
Proof.
  intros Htext Hrest. rewrite readLoop_stateAfter. unfold stateAfter.
  unfold decodeAll in Htext.
  destruct (decode newTextDecoder (concat chunks)) as [d text'].
  cbn [snd] in Htext. subst text'. cbn [dispatched buffer].
  by rewrite (split_last_line LF text rest), popped_snoc, pop_snoc.
Qed.

End Loop.

(** *** A response of three lines, read in two chunks *)

(** The decoder on bytes below 128, each of which is one unit of text. *)
Definition decodeAscii (d : unit) (value : list byte) : unit * jsstring :=
  (d, Byte.to_N <$> value).

(** A parser that accepts the texts in braces. *)
Definition parseBraces (json : jsstring) : option StreamEvent :=
  if startsWith (str "{") json
  then Some {| type := json; content := [] |} else None.

Definition chunk1 : list byte :=
  list_byte_of_string "data: {a}" ++ [x0a] ++ list_byte_of_string "da".
Definition chunk2 : list byte :=
  list_byte_of_string "ta: oops" ++ [x0a] ++ list_byte_of_string "data: {b}"
    ++ [x0a].

Lemma readLoop_chunking_witness :
  dispatched unit (readLoop unit tt decodeAscii parseBraces [chunk1; chunk2])
  = [ {| type := str "{a}"; content := [] |};
      {| type := str "{b}"; content := [] |} ].
Proof.
  assert (∀ d, decodeAscii d [] = (d, [])) as Hnil by done.
  assert (∀ d value1 value2,
            decodeAscii d (value1 ++ value2)
            = let '(d1, text1) := decodeAscii d value1 in
              let '(d2, text2) := decodeAscii d1 value2 in
              (d2, text1 ++ text2)) as Happ.
  { intros d v1 v2. unfold decodeAscii. by rewrite fmap_app. }
  destruct (readLoop_chunking unit tt decodeAscii Hnil Happ parseBraces
              [chunk1; chunk2]) as (_ & Hlines & _).
  destruct (Hlines (str "data: {a}" ++ [LF] ++ str "data: oops" ++ [LF]
                      ++ str "data: {b}") eq_refl) as [-> _].
  reflexivity.
Defined.

(** X2 at a response whose last record has no line feed after it. *)
Lemma readLoop_unterminated_line_witness :
  dispatched unit
    (readLoop unit tt decodeAscii parseBraces
       [list_byte_of_string "data: {a}" ++ [x0a];
        list_byte_of_string "data: {b}"])
  = [ {| type := str "{a}"; content := [] |} ] ∧
  buffer unit
    (readLoop unit tt decodeAscii parseBraces
       [list_byte_of_string "data: {a}" ++ [x0a];
        list_byte_of_string "data: {b}"])
  = str "data: {b}".
Proof.
  assert (∀ d, decodeAscii d [] = (d, [])) as Hnil by done.
  assert (∀ d value1 value2,
            decodeAscii d (value1 ++ value2)
            = let '(d1, text1) := decodeAscii d value1 in
              let '(d2, text2) := decodeAscii d1 value2 in
              (d2, text1 ++ text2)) as Happ.
  { intros d v1 v2. unfold decodeAscii. by rewrite fmap_app. }
  apply (readLoop_unterminated_line unit tt decodeAscii Hnil Happ parseBraces
           [list_byte_of_string "data: {a}" ++ [x0a];
            list_byte_of_string "data: {b}"]
           (str "data: {a}") (str "data: {b}")); [reflexivity|].
  apply (bool_decide_unpack (LF ∉ str "data: {b}")). by vm_compute.
Defined.

End StreamReader.

(** ** [InputForm.tsx] and [App.tsx]: submitting a query *)

Module App.
Import Js StreamReader.

Inductive MessageType : Type := human | ai.

(** [Message.metadata], with the [final_answer] that the spread of
    [streamingMetadata] adds to it. *)
Record Metadata : Type := {
  processing_time : option nat;
  query_type : option jsstring;
  debate_category : option jsstring;
  domain_analysis : option jsstring;
  ux_analysis : option jsstring;
  technical_analysis : option jsstring;
  revenue_analysis : option jsstring;
  moderator_aggregation : option jsstring;
  debate_resolution : option jsstring;
  final_answer : option jsstring;
  is_followup : option bool;
}.

Definition noMetadata : Metadata :=
  {| processing_time := None; query_type := None; debate_category := None;
     domain_analysis := None; ux_analysis := None; technical_analysis := None;
     revenue_analysis := None; moderator_aggregation := None;
     debate_resolution := None; final_answer := None; is_followup := None |}.

Record Message : Type := {
  mtype : MessageType;
  mcontent : jsstring;
  id : jsstring;
  metadata : option Metadata;
}.

Record ProcessedEvent : Type := { title : jsstring; data : jsstring }.

(** The state of the [App] component ([useState] cells), and the
    [thread_id] parameter of the page address. *)
Record AppState : Type := {
  messages : list Message;
  isLoading : bool;
  processedEventsTimeline : list ProcessedEvent;
  historicalActivities : gmap (list N) (list ProcessedEvent);
  error : option jsstring;
  currentStreamingMessage : jsstring;
  streamingMetadata : Metadata;
  currentThreadId : option jsstring;
  hasLoadedContext : bool;
  urlThreadId : option jsstring;
}.

Definition initialState : AppState :=
  {| messages := []; isLoading := false; processedEventsTimeline := [];
     historicalActivities := ∅; error := None; currentStreamingMessage := [];
     streamingMetadata := noMetadata; currentThreadId := None;
     hasLoadedContext := false; urlThreadId := None |}.

(** *** [handleStreamEvent]

    The callback reads [messages], [currentStreamingMessage],
    [streamingMetadata], [processedEventsTimeline] and [currentThreadId] from
    the render it was created in ([seen]), and updates the current state
    ([st]) through the setters. *)

Definition appendSection (heading : jsstring) (event : StreamEvent)
    (prev : jsstring) : jsstring :=
  prev ++ [LF; LF] ++ heading ++ [LF] ++ content event.

Definition setStreaming (md : Metadata) (text : jsstring) (st : AppState)
    : AppState :=
  {| messages := messages st; isLoading := isLoading st;
     processedEventsTimeline := processedEventsTimeline st;
     historicalActivities := historicalActivities st; error := error st;
     currentStreamingMessage := text; streamingMetadata := md;
     currentThreadId := currentThreadId st;
     hasLoadedContext := hasLoadedContext st; urlThreadId := urlThreadId st |}.

Definition setError (e : option jsstring) (st : AppState) : AppState :=
  {| messages := messages st; isLoading := isLoading st;
     processedEventsTimeline := processedEventsTimeline st;
     historicalActivities := historicalActivities st; error := e;
     currentStreamingMessage := currentStreamingMessage st;
     streamingMetadata := streamingMetadata st;
     currentThreadId := currentThreadId st;
     hasLoadedContext := hasLoadedContext st; urlThreadId := urlThreadId st |}.

Definition setIsLoading (b : bool) (st : AppState) : AppState :=
  {| messages := messages st; isLoading := b;
     processedEventsTimeline := processedEventsTimeline st;
     historicalActivities := historicalActivities st; error := error st;
     currentStreamingMessage := currentStreamingMessage st;
     streamingMetadata := streamingMetadata st;
     currentThreadId := currentThreadId st;
     hasLoadedContext := hasLoadedContext st; urlThreadId := urlThreadId st |}.

Definition withDomain (c : jsstring) (md : Metadata) : Metadata :=
  {| processing_time := processing_time md; query_type := query_type md;
     debate_category := debate_category md; domain_analysis := Some c;
     ux_analysis := ux_analysis md; technical_analysis := technical_analysis md;
     revenue_analysis := revenue_analysis md;
     moderator_aggregation := moderator_aggregation md;
     debate_resolution := debate_resolution md;
     final_answer := final_answer md; is_followup := is_followup md |}.

Definition withUx (c : jsstring) (md : Metadata) : Metadata :=
  {| processing_time := processing_time md; query_type := query_type md;
     debate_category := debate_category md;
     domain_analysis := domain_analysis md; ux_analysis := Some c;
     technical_analysis := technical_analysis md;
     revenue_analysis := revenue_analysis md;
     moderator_aggregation := moderator_aggregation md;
     debate_resolution := debate_resolution md;
     final_answer := final_answer md; is_followup := is_followup md |}.

Definition withTechnical (c : jsstring) (md : Metadata) : Metadata :=
  {| processing_time := processing_time md; query_type := query_type md;
     debate_category := debate_category md;
     domain_analysis := domain_analysis md; ux_analysis := ux_analysis md;
     technical_analysis := Some c; revenue_analysis := revenue_analysis md;
     moderator_aggregation := moderator_aggregation md;
     debate_resolution := debate_resolution md;
     final_answer := final_answer md; is_followup := is_followup md |}.

Definition withRevenue (c : jsstring) (md : Metadata) : Metadata :=
  {| processing_time := processing_time md; query_type := query_type md;
     debate_category := debate_category md;
     domain_analysis := domain_analysis md; ux_analysis := ux_analysis md;
     technical_analysis := technical_analysis md; revenue_analysis := Some c;
     moderator_aggregation := moderator_aggregation md;
     debate_resolution := debate_resolution md;
     final_answer := final_answer md; is_followup := is_followup md |}.

Definition withModerator (c : jsstring) (md : Metadata) : Metadata :=
  {| processing_time := processing_time md; query_type := query_type md;
     debate_category := debate_category md;
     domain_analysis := domain_analysis md; ux_analysis := ux_analysis md;
     technical_analysis := technical_analysis md;
     revenue_analysis := revenue_analysis md;
     moderator_aggregation := Some c;
     debate_resolution := debate_resolution md;
     final_answer := final_answer md; is_followup := is_followup md |}.

Definition withFinalAnswer (c : jsstring) (md : Metadata) : Metadata :=
  {| processing_time := processing_time md; query_type := query_type md;
     debate_category := debate_category md;
     domain_analysis := domain_analysis md; ux_analysis := ux_analysis md;
     technical_analysis := technical_analysis md;
     revenue_analysis := revenue_analysis md;
     moderator_aggregation := moderator_aggregation md;
     debate_resolution := debate_resolution md;
     final_answer := Some c; is_followup := is_followup md |}.

(** [{ ...streamingMetadata, processing_time: 0, query_type: "general",
       is_followup: isFollowup }] *)
Definition completedMetadata (md : Metadata) (isFollowup : bool) : Metadata :=
  {| processing_time := Some 0; query_type := Some (str "general");
     debate_category := debate_category md;
     domain_analysis := domain_analysis md; ux_analysis := ux_analysis md;
     technical_analysis := technical_analysis md;
     revenue_analysis := revenue_analysis md;
     moderator_aggregation := moderator_aggregation md;
     debate_resolution := debate_resolution md;
     final_answer := final_answer md; is_followup := Some isFollowup |}.

(** [const isFollowup = messages.length > 1] *)
Definition isFollowup (seenMessages : list Message) : bool :=
  bool_decide (1 < length seenMessages).

(** The message that the [complete] case appends; [suffix] stands for
    [`${Date.now()}_${Math.random().toString(36).substr(2, 9)}`]. *)
Definition aiMessage (seen : AppState) (suffix : jsstring) : Message :=
  {| mtype := ai;
     mcontent := if bool_decide (currentStreamingMessage seen = [])
                 then str "Analysis completed"
                 else currentStreamingMessage seen;
     id := str "ai_" ++ suffix;
     metadata := Some (completedMetadata (streamingMetadata seen)
                                         (isFollowup (messages seen))) |}.

Definition onComplete (seen : AppState) (suffix : jsstring) (st : AppState)
    : AppState :=
  let m := aiMessage seen suffix in
  {| messages := messages st ++ [m]; isLoading := isLoading st;
     processedEventsTimeline := processedEventsTimeline st;
     historicalActivities :=
       <[id m := processedEventsTimeline seen]> (historicalActivities st);
     error := error st;
     currentStreamingMessage := currentStreamingMessage st;
     streamingMetadata := streamingMetadata st;
     currentThreadId := currentThreadId st;
     hasLoadedContext := hasLoadedContext st;
     urlThreadId := match currentThreadId seen with
                    | Some thread => Some thread
                    | None => urlThreadId st
                    end |}.

Definition handleStreamEvent (seen : AppState) (suffix : jsstring)
    (st : AppState) (event : StreamEvent) : AppState :=
  let md := streamingMetadata st in
  let text := currentStreamingMessage st in
  let c := content event in
  if bool_decide (type event = str "domain_expert") then
    setStreaming (withDomain c md)
      (appendSection (str "**Domain Expert Analysis:**") event text) st
  else if bool_decide (type event = str "ux_ui_specialist") then
    setStreaming (withUx c md)
      (appendSection (str "**UX/UI Specialist Analysis:**") event text) st
  else if bool_decide (type event = str "technical_architect") then
    setStreaming (withTechnical c md)
      (appendSection (str "**Technical Architect Analysis:**") event text) st
  else if bool_decide (type event = str "revenue_model_analyst") then
    setStreaming (withRevenue c md)
      (appendSection (str "**Revenue Model Analyst Analysis:**") event text) st
  else if bool_decide (type event = str "moderator_aggregation") then
    setStreaming (withModerator c md)
      (appendSection (str "**Moderator Aggregation:**") event text) st
  else if bool_decide (type event = str "final_answer") then
    setStreaming (withFinalAnswer c md)
      (appendSection (str "**Final Answer:**") event text) st
  else if bool_decide (type event = str "message") then
    setStreaming md c st
  else if bool_decide (type event = str "complete") then
    onComplete seen suffix st
  else if bool_decide (type event = str "error") then
    setError (Some c) st
  else st.

(** *** [InputForm.handleInternalSubmit]

    The second component is the call [onSubmit(internalInputValue,
    queryType)], when it is made. *)
Record InputFormState : Type := {
  internalInputValue : jsstring;
  queryType : jsstring;
}.

Definition handleInternalSubmit (st : InputFormState)
    : InputFormState * option (jsstring * jsstring) :=
  if bool_decide (trim (internalInputValue st) = []) then (st, None)
  else ({| internalInputValue := []; queryType := queryType st |},
        Some (internalInputValue st, queryType st)).

(** *** [handleSubmit] *)

(** The requests [handleSubmit] sends. *)
Inductive Request : Type :=
  | GetContext (threadId : jsstring)
      (* GET /api/context/{threadId}, in checkAndLoadThreadContext *)
  | PostStream (query query_type thread_id : jsstring).
      (* POST /api/refine-requirements/stream *)

(** What comes back for the streaming request. *)
Inductive Response : Type :=
  | NotOk (status : jsstring)           (* [response.ok] is false *)
  | NoReader                            (* [response.body] is missing *)
  | Body (chunks : list (list byte))    (* the chunks read before [done] *)
  | Rejected (message : jsstring).      (* [fetch] or [read] rejects *)

Definition timelineEvents : list ProcessedEvent :=
  [ {| title := str "Query Classification";
       data := str "Analyzing query type and routing to appropriate specialists..." |};
    {| title := str "Domain Expert Analysis";
       data := str "Analyzing business logic and domain-specific requirements..." |};
    {| title := str "UX/UI Specialist Analysis";
       data := str "Analyzing user experience and interface design requirements..." |};
    {| title := str "Technical Architect Analysis";
       data := str "Analyzing technical architecture and implementation requirements..." |};
    {| title := str "Revenue Model Analyst Analysis";
       data := str "Analyzing revenue models and monetization strategies..." |};
    {| title := str "Moderator Aggregation";
       data := str "Consolidating feedback and resolving conflicts..." |};
    {| title := str "Final Answer Generation";
       data := str "Generating comprehensive final answer..." |} ].

(** What a call of [handleSubmit] leaves: the state, the requests sent, in
    order, and the timers set ([setTimeout] delays in milliseconds, each
    appending one event to [processedEventsTimeline]). *)
Record Outcome : Type := {
  state : AppState;
  requests : list Request;
  timers : list (nat * ProcessedEvent);
}.

Section Submit.

Variable TextDecoder : Type.
Variable newTextDecoder : TextDecoder.
Variable decode : TextDecoder → list byte → TextDecoder * jsstring.
Variable JSON_parse : jsstring → option StreamEvent.

(** [`${Date.now()}_${Math.random().toString(36).substr(2, 9)}`], as
    evaluated for the thread, the user message and the reply. *)
Variables threadStamp humanStamp aiStamp : jsstring.

(** The messages [checkAndLoadThreadContext] sets when the thread has
    context, and the response to a streaming request. *)
Variable threadContext : jsstring → option (list Message).
Variable respond : Request → Response.

Definition beginAnalysis (thread : jsstring) (loaded : option (list Message))
    (userMessage : Message) (st : AppState) : AppState :=
  {| messages := default (messages st) loaded ++ [userMessage];
     isLoading := true;
     processedEventsTimeline := [];
     historicalActivities := historicalActivities st;
     error := None;
     currentStreamingMessage := [];
     streamingMetadata := noMetadata;
     currentThreadId := Some thread;
     hasLoadedContext := match loaded with
                         | Some _ => true
                         | None => hasLoadedContext st
                         end;
     urlThreadId := urlThreadId st |}.

Definition handleSubmit (seen st : AppState)
    (submittedInputValue effort : jsstring) : Outcome :=
  if bool_decide (trim submittedInputValue = []) then
    {| state := st; requests := []; timers := [] |}
  else
    let threadId := default (str "frontend_thread_" ++ threadStamp)
                            (currentThreadId st) in
    let checks := bool_decide (length (messages st) = 0)
                  && negb (hasLoadedContext st) in
    let loaded := if checks then threadContext threadId else None in
    let userMessage :=
      {| mtype := human; mcontent := submittedInputValue;
         id := str "human_" ++ humanStamp; metadata := None |} in
    let st1 := beginAnalysis threadId loaded userMessage st in
    let request := PostStream submittedInputValue effort threadId in
    let st2 :=
      match respond request with
      | NotOk status => setError (Some (str "HTTP error! status: " ++ status)) st1
      | NoReader => setError (Some (str "No response body reader available")) st1
      | Body chunks =>
          foldl (handleStreamEvent seen aiStamp) st1
            (dispatched _ (readLoop _ newTextDecoder decode JSON_parse chunks))
      | Rejected message => setError (Some message) st1
      end in
    {| state := setIsLoading false st2;
       requests := (if checks then [GetContext threadId] else []) ++ [request];
       timers := imap (λ i event, (i * 1000, event)) timelineEvents |}.

End Submit.

(** *** The streaming message grows in the order of arrival *)

(** The heading of the section that an event of each analysis type adds. *)
Definition sectionHeading (eventType : jsstring) : option jsstring :=
  if bool_decide (eventType = str "domain_expert") then
    Some (str "**Domain Expert Analysis:**")
  else if bool_decide (eventType = str "ux_ui_specialist") then
    Some (str "**UX/UI Specialist Analysis:**")
  else if bool_decide (eventType = str "technical_architect") then
    Some (str "**Technical Architect Analysis:**")
  else if bool_decide (eventType = str "revenue_model_analyst") then
    Some (str "**Revenue Model Analyst Analysis:**")
  else if bool_decide (eventType = str "moderator_aggregation") then
    Some (str "**Moderator Aggregation:**")
  else if bool_decide (eventType = str "final_answer") then
    Some (str "**Final Answer:**")
  else None.

Definition sectionOf (event : StreamEvent) : jsstring :=
  match sectionHeading (type event) with
  | Some heading => [LF; LF] ++ heading ++ [LF] ++ content event
  | None => []
  end.

Lemma handleStreamEvent_section (seen : AppState) (suffix : jsstring)
    (st : AppState) (event : StreamEvent) :
  is_Some (sectionHeading (type event)) →
  currentStreamingMessage (handleStreamEvent seen suffix st event)
  = currentStreamingMessage st ++ sectionOf event.
Proof.
  unfold handleStreamEvent, sectionOf, sectionHeading, appendSection.
  intros [heading Hh]. revert Hh.
  repeat (case_bool_decide; [by intros _|]). done.
Qed.

(** X1. Events of the analysis types are rendered in the order in which
    they arrive, whatever the roles: after any such events the streaming
    message is the earlier message followed by their sections, in that
    order. *)
Theorem handleStreamEvent_arrival_order (seen : AppState) (suffix : jsstring)
    (st : AppState) (events : list StreamEvent) :
  Forall (λ event, is_Some (sectionHeading (type event))) events →
  currentStreamingMessage (foldl (handleStreamEvent seen suffix) st events)
  = currentStreamingMessage st ++ (events ≫= sectionOf).
Proof.
  intros Hall. revert st.
  induction Hall as [|event events Hevent _ IH]; intros st; simpl.
  - by rewrite (right_id_L [] (++)).
  - by rewrite IH, handleStreamEvent_section, (assoc_L (++)).
Qed.

(** X1 at two specialists answering in the reverse of the role order. *)
Lemma handleStreamEvent_arrival_order_witness :
  currentStreamingMessage
    (foldl (handleStreamEvent initialState []) initialState
       [ {| type := str "revenue_model_analyst"; content := str "R" |};
         {| type := str "domain_expert"; content := str "D" |} ])
  = [LF; LF] ++ str "**Revenue Model Analyst Analysis:**" ++ [LF] ++ str "R"
    ++ [LF; LF] ++ str "**Domain Expert Analysis:**" ++ [LF] ++ str "D".
Proof.
  rewrite handleStreamEvent_arrival_order; [reflexivity|].
  repeat constructor; by eexists.
Defined.

End App.

(** ** [ChatMessagesView.tsx]: copying the final answer *)

Module ChatMessagesView.
Import Js StreamReader.

(** The text that the copy button under the streaming reply copies:
    [handleCopy(extractFinalAnswerText(streamingMessage), "streaming")]. *)
Definition copiedText (streamingMessage : jsstring) : jsstring :=
  Utils.extractFinalAnswerText streamingMessage.

Lemma lazyGroup_no_header (s : jsstring) :
  includes [LF; LF; 42; 42]%N s = false → Utils.lazyGroup s = s.
Proof.
  induction s as [|c s IH]; [done|]. intros Hinc.
  cbn [Utils.lazyGroup]. unfold Utils.lookahead.
  rewrite bool_decide_eq_false_2, orb_false_r by done.
  destruct (startsWith _ (c :: s)) eqn:E.
  - apply startsWith_spec in E as [r Hr]. rewrite includes_false in Hinc.
    by destruct (Hinc [] r).
  - f_equal. by apply IH, (includes_cons_false _ c).
Qed.

(** X3. When a [final_answer] event arrives and no earlier section of the
    streaming message holds the marker [**Final Answer:**], the copy button
    copies the content of the event, trimmed, provided that content holds no
    blank line followed by [**]. *)
Theorem final_answer_copied (seen : App.AppState) (suffix : jsstring)
    (st : App.AppState) (event : StreamEvent) :
  type event = str "final_answer" →
  includes Utils.marker (App.currentStreamingMessage st) = false →
  includes [LF; LF; 42; 42]%N (content event) = false →
  copiedText
    (App.currentStreamingMessage (App.handleStreamEvent seen suffix st event))
  = trim (content event).
Proof.
  intros Htype Hmarker Hheader.
  assert (App.sectionHeading (type event) = Some Utils.marker) as Hh
    by (by rewrite Htype).
  rewrite App.handleStreamEvent_section by (by rewrite Hh).
  unfold App.sectionOf. rewrite Hh.
  set (text := App.currentStreamingMessage st) in *.
  unfold copiedText, Utils.extractFinalAnswerText.
  rewrite (proj2 (includes_true _ _))
    by (exists (text ++ [LF; LF]), ([LF] ++ content event);
        by rewrite <-!(assoc_L (++))).
  unfold Utils.finalAnswerMatch.
  rewrite (assoc_L (++) text [LF; LF]).
  rewrite afterFirst_leftmost.
  - simpl.
    destruct (trimStart_suffix (content event)) as [ws Hws].
    rewrite lazyGroup_no_header, trim_trimStart; [done|].
    apply (includes_app_r_false _ ws). by rewrite <-Hws.
  - intros pre' r' Heq. rewrite <-(assoc_L (++)) in Heq.
    apply (leftmost_after_gap _ _ _ _ _ _ Hmarker) in Heq; [done..|].
    intros c Hc. apply (bool_decide_unpack (c ∉ Utils.marker)).
    repeat (apply elem_of_cons in Hc as [->|Hc]; [by vm_compute|]).
    by apply elem_of_nil in Hc.
Qed.

(** X3 at the first event of a reply. *)
Lemma final_answer_copied_witness :
  copiedText
    (App.currentStreamingMessage
       (App.handleStreamEvent App.initialState [] App.initialState
          {| type := str "final_answer"; content := str " Start small. " |}))
  = str "Start small.".
Proof.
  change (str "Start small.") with (trim (str " Start small. ")).
  by apply final_answer_copied.
Defined.

End ChatMessagesView.

(** ** [backend/src/agent/graph.py], as quoted in [FOLLOWUP_FUNCTIONALITY.md]

    Python strings are sequences of code points; the routing code only
    lowercases them and searches them for keywords. *)

Module Graph.
Import Js.

Abbreviation pystr := (list N).

Section Excerpts.

(** The items of [agent_history], and [str.lower]. *)
Variable HistoryItem : Type.
Variable lower : pystr → pystr.

(** The keys of [OverallState] the two functions read; [None] for a key
    that is not set.  The analyses are the names [finalize_answer] reads
    in its follow-up branch. *)
Record OverallState : Type := {
  user_query : option pystr;
  agent_history : option (list HistoryItem);
  domain_analysis : option pystr;
  ux_analysis : option pystr;
  technical_analysis : option pystr;
  revenue_analysis : option pystr;
  moderator_analysis : option pystr;
}.

(** [agent_history = state.get("agent_history", [])]
    [is_followup = len(agent_history) > 0] *)
Definition is_followup (state : OverallState) : bool :=
  bool_decide (0 < length (default [] (agent_history state))).

(** The parts of [detect_followup_and_route] that the excerpt leaves out:
    the routing after the revenue keywords ([# ... more routing logic]) and
    the result for a query that is not a follow-up. *)
Variable moreRoutingLogic : OverallState → pystr.
Variable initialRoute : OverallState → pystr.

Definition revenueKeywords : list pystr :=
  [str "revenue"; str "money"; str "income"; str "pricing"; str "monetization"].

Definition detect_followup_and_route (state : OverallState) : pystr :=
  let query := lower (default [] (user_query state)) in
  if is_followup state then
    if existsb (λ keyword, includes keyword query) revenueKeywords
    then str "revenue_model_analyst"
    else moreRoutingLogic state
  else initialRoute state.

(** [a or b]: the first operand when it is truthy (a string that is not
    empty), the second one otherwise. *)
Definition py_or (a b : option pystr) : option pystr :=
  match a with
  | Some (_ :: _) => a
  | _ => b
  end.

(** The dictionary [finalize_answer] returns. *)
Record Finalized : Type := {
  f_messages : list (option pystr);     (* [AIMessage(content=...)] *)
  f_final_answer : option pystr;
  f_is_complete : bool;
  f_is_followup : bool;
}.

(** The rest of [finalize_answer], for a query that is not a follow-up,
    which the excerpt leaves out. *)
Variable finalizeInitial : OverallState → Finalized.

Definition finalize_answer (state : OverallState) : Finalized :=
  if is_followup state then
    let final_content :=
      py_or (domain_analysis state)
        (py_or (ux_analysis state)
           (py_or (technical_analysis state)
              (py_or (revenue_analysis state) (moderator_analysis state)))) in
    {| f_messages := [final_content];
       f_final_answer := final_content;
       f_is_complete := true;
       f_is_followup := true |}
  else finalizeInitial state.


End Excerpts.

End Graph.

(** ** Follow-up detection *)

Module FollowUp.
Import Js.





End FollowUp.

(** ** The classifier (specification, section 4.1) *)

Module Classifier.
Import Js.

Inductive Role : Type := domain | ux_ui | technical | revenue.

#[global] Instance Role_eq_dec : EqDecision Role.
Proof. solve_decision. Defined.

#[global] Instance Role_countable : Countable Role.
Proof.
  refine (inj_countable'
            (λ r, match r with
                  | domain => 0 | ux_ui => 1 | technical => 2 | revenue => 3
                  end)
            (λ n, match n with
                  | 0 => domain | 1 => ux_ui | 2 => technical | _ => revenue
                  end) _).
  by intros [].
Defined.

Inductive QueryKind : Type :=
  | kind_general | kind_domain | kind_ux_ui | kind_technical | kind_revenue
  | kind_debate.

Inductive FocusHint : Type :=
  | hint_general | hint_domain | hint_ux_ui | hint_technical | hint_revenue.

Inductive ShortcutTarget : Type :=
  | to_role (r : Role)
  | to_moderator.

Inductive ErrorKind : Type :=
  | InvalidInput | UpstreamUnavailable | Timeout | StorageError | Cancelled
  | Internal.

Record Verdict : Type := {
  query_kind : QueryKind;
  is_followup : bool;
  shortcut_target : option ShortcutTarget;
}.

Definition kindOf (r : Role) : QueryKind :=
  match r with
  | domain => kind_domain
  | ux_ui => kind_ux_ui
  | technical => kind_technical
  | revenue => kind_revenue
  end.

(** Modelled from the spec: the keyword sets of step 2 of the classifier
    (section 4.1); the classifier itself, part of the backend, is not among
    the sources. *)
Definition revenueSet : list jsstring :=
  [str "revenue"; str "money"; str "income"; str "pricing";
   str "monetization"; str "profit"; str "earnings"].
Definition uxSet : list jsstring :=
  [str "ui"; str "ux"; str "design"; str "user experience"; str "interface";
   str "usability"; str "accessibility"].
Definition technicalSet : list jsstring :=
  [str "technical"; str "architecture"; str "code"; str "database";
   str "api"; str "infrastructure"; str "scalability"].
Definition domainSet : list jsstring :=
  [str "business"; str "domain"; str "market"; str "industry";
   str "compliance"; str "regulation"].

Definition mentions (keywords : list jsstring) (text : jsstring) : bool :=
  existsb (λ keyword, includes keyword text) keywords.

(** Modelled from the spec: steps 2 and 4 of the classifier, the scan of
    the lowercased query with the tie-break order
    [revenue > ux_ui > technical > domain]. *)
Definition scan (lowered : jsstring) : option Role :=
  if mentions revenueSet lowered then Some revenue
  else if mentions uxSet lowered then Some ux_ui
  else if mentions technicalSet lowered then Some technical
  else if mentions domainSet lowered then Some domain
  else None.

(** Modelled from the spec: step 3, the hints that override the scan. *)
Definition hinted (focus_hint : option FocusHint) : option Role :=
  match focus_hint with
  | Some hint_domain => Some domain
  | Some hint_ux_ui => Some ux_ui
  | Some hint_technical => Some technical
  | Some hint_revenue => Some revenue
  | Some hint_general | None => None
  end.

Section Classify.

Variable toLowerCase : jsstring → jsstring.

(** Lowercasing does not change a text of white space. *)
Hypothesis toLowerCase_blank :
  ∀ s, forallb isWhiteSpace s = true → toLowerCase s = s.

(** Modelled from the spec: the classifier of section 4.1, steps 1 to 7,
    with its edge cases (an empty query, or one of white space only, fails
    with [InvalidInput]).  [Entry] is the type of the entries of the thread
    history, of which only the number matters. *)
Definition classify {Entry : Type} (user_query : jsstring)
    (thread_history : list Entry) (focus_hint : option FocusHint)
    : ErrorKind + Verdict :=
  if bool_decide (trim user_query = []) then inl InvalidInput
  else
    let followup := bool_decide (0 < length thread_history) in
    let target :=
      match hinted focus_hint with
      | Some r => Some r
      | None => scan (toLowerCase user_query)
      end in
    inr {| query_kind := from_option kindOf kind_general target;
           is_followup := followup;
           shortcut_target :=
             if followup
             then Some (from_option to_role to_moderator target)
             else None |}.

Lemma mentions_true (keywords : list jsstring) (keyword text : jsstring) :
  keyword ∈ keywords → includes keyword text = true →
  mentions keywords text = true.
Proof.
  intros Hin Hinc. unfold mentions. apply existsb_exists.
  exists keyword. by rewrite <-list_elem_of_In.
Qed.

Lemma blank_excludes_pricing (s : jsstring) :
  forallb isWhiteSpace s = true → includes (str "pricing") s = false.
Proof.
  intros Hws. apply includes_false. intros pre r ->.
  rewrite !forallb_app in Hws. simpl in Hws.
  by rewrite andb_false_r in Hws.
Qed.

Lemma pricing_not_blank (user_query : jsstring) :
  includes (str "pricing") (toLowerCase user_query) = true →
  trim user_query ≠ [].
Proof.
  intros Hinc Hblank. apply trim_blank in Hblank.
  rewrite (toLowerCase_blank _ Hblank) in Hinc.
  by rewrite blank_excludes_pricing in Hinc.
Qed.

(** C4. A query whose lowercased text contains [pricing], with no focus
    hint: in an empty thread the verdict is [revenue], not a follow-up, with
    no shortcut (the full pipeline runs); in a thread that has entries it
    is a follow-up with the shortcut to [revenue].  In that second case
    the routing function of the backend, [detect_followup_and_route],
    returns [revenue_model_analyst]. *)
Theorem classify_pricing {Entry : Type} (lower : jsstring → jsstring)
    (moreRoutingLogic initialRoute : Graph.OverallState Entry → jsstring)
    (state : Graph.OverallState Entry)
    (user_query : jsstring) (thread_history : list Entry) :
  includes (str "pricing") (toLowerCase user_query) = true →
  (thread_history = [] →
     classify user_query thread_history None
     = inr {| query_kind := kind_revenue; is_followup := false;
              shortcut_target := None |}) ∧
  (thread_history ≠ [] →
     classify user_query thread_history None
     = inr {| query_kind := kind_revenue; is_followup := true;
              shortcut_target := Some (to_role revenue) |}) ∧
  (Graph.is_followup _ state = true →
   includes (str "pricing") (lower (default [] (Graph.user_query _ state)))
     = true →
     Graph.detect_followup_and_route _ lower moreRoutingLogic initialRoute state
     = str "revenue_model_analyst").
Proof.
  intros Hinc. pose proof (pricing_not_blank _ Hinc) as Hne.
  assert (scan (toLowerCase user_query) = Some revenue) as Hscan.
  { unfold scan. rewrite (mentions_true revenueSet (str "pricing")); [done| |done].
    unfold revenueSet. set_solver. }
  unfold classify. rewrite bool_decide_eq_false_2 by done. simpl. rewrite Hscan.
  split; [|split].
  - by intros ->.
  - intros Hhist. rewrite bool_decide_eq_true_2; [done|].
    destruct thread_history; [done|simpl; lia].
  - intros Hfollow Hq. unfold Graph.detect_followup_and_route.
    rewrite Hfollow.
    change (existsb _ Graph.revenueKeywords)
      with (mentions Graph.revenueKeywords
              (lower (default [] (Graph.user_query _ state)))).
    rewrite (mentions_true Graph.revenueKeywords (str "pricing")); [done| |done].
    unfold Graph.revenueKeywords. set_solver.
Qed.

End Classify.

Lemma toLowerCaseAscii_blank (s : jsstring) :
  forallb isWhiteSpace s = true → toLowerCaseAscii s = s.
Proof.
  induction s as [|c s IH]; simpl; [done|].
  intros [Hc Hs]%andb_true_iff. rewrite IH by done. f_equal.
  destruct ((65 <=? c) && (c <=? 90))%N eqn:E; [|done].
  apply andb_true_iff in E as [H1%N.leb_le H2%N.leb_le].
  unfold isWhiteSpace in Hc.
  repeat (apply orb_true_iff in Hc as [Hc|Hc]);
    repeat (apply andb_true_iff in Hc as [? ?]);
    repeat match goal with
           | H : (_ =? _)%N = true |- _ => apply N.eqb_eq in H
           | H : (_ <=? _)%N = true |- _ => apply N.leb_le in H
           end; lia.
Qed.

(** C4 at the follow-up of the second seed scenario. *)
Lemma classify_pricing_witness :
  classify toLowerCaseAscii (str "What pricing strategy should I use?")
    [str "Build a food delivery app"] None
  = inr {| query_kind := kind_revenue; is_followup := true;
           shortcut_target := Some (to_role revenue) |}.
Proof.
  refine (proj1 (proj2 (classify_pricing toLowerCaseAscii
            toLowerCaseAscii_blank toLowerCaseAscii (λ _, []) (λ _, [])
            {| Graph.user_query := None; Graph.agent_history := None;
               Graph.domain_analysis := None; Graph.ux_analysis := None;
               Graph.technical_analysis := None;
               Graph.revenue_analysis := None;
               Graph.moderator_analysis := None |}
            (str "What pricing strategy should I use?")
            [str "Build a food delivery app"] _)) _).
  - by vm_compute.
  - done.
Defined.

End Classifier.

(** ** The memory store (specification, sections 3 and 4.7) *)

Module MemoryStore.
Import Js.

Inductive RouteDecision : Type :=
  | full_pipeline
  | shortcut (r : Classifier.Role).

(** Modelled from the spec: the conversation entry of section 3, with the
    [duplicate] tag that the store adds (section 4.7); the store is part of
    the backend, which is not among the sources. *)
Record ConversationEntry : Type := {
  entry_id : jsstring;
  thread_id : jsstring;
  timestamp : N;
  user_query : jsstring;
  query_kind : Classifier.QueryKind;
  is_followup : bool;
  processing_time_ms : N;
  specialist_outputs : list (Classifier.Role * jsstring);
  moderator_output : option jsstring;
  final_answer : jsstring;
  route_decision : RouteDecision;
  duplicate : bool;
}.



(** Modelled from the spec: the store is an append-only log of entries,
    here in the order of the appends. *)
Abbreviation Store := (list ConversationEntry).

Definition threadEntries (thread : jsstring) (store : Store) : Store :=
  filter (λ e, thread_id e = thread) store.

Section Store.

Variable toLowerCase : jsstring → jsstring.

(** Modelled from the spec: the normalized-response fingerprint and the
    write-side guard of section 4.7, with its window of five entries. *)
Definition fingerprint (e : ConversationEntry) : jsstring :=
  MemoryView.collapseWhitespace false (toLowerCase (final_answer e)).

Definition isDuplicate (store : Store) (e : ConversationEntry) : bool :=
  bool_decide
    (fingerprint e
       ∈ fingerprint <$> MemoryView.lastEntries 5
                           (threadEntries (thread_id e) store)).


End Store.

(** Modelled from the spec: [list(thread_id, limit)], most recent first;
    [None] is the limit written as infinity. *)
Definition list_thread (store : Store) (thread : jsstring)
    (limit : option nat) : Store :=
  let entries := reverse (threadEntries thread store) in
  match limit with
  | Some n => take n entries
  | None => entries
  end.








Section StoreFacts.

Variable toLowerCase : jsstring → jsstring.




End StoreFacts.

(** *** A thread of one entry, and its follow-up *)

Definition entry1 : ConversationEntry :=
  {| entry_id := str "e1"; thread_id := str "t1"; timestamp := 1;
     user_query := str "Build a food delivery app";
     query_kind := Classifier.kind_general; is_followup := false;
     processing_time_ms := 31120;
     specialist_outputs := [(Classifier.domain, str "Market analysis")];
     moderator_output := Some (str "Final Answer: start small");
     final_answer := str "start small";
     route_decision := full_pipeline; duplicate := false |}.

Definition entry2 : ConversationEntry :=
  {| entry_id := str "e2"; thread_id := str "t1"; timestamp := 2;
     user_query := str "What pricing strategy should I use?";
     query_kind := Classifier.kind_revenue; is_followup := true;
     processing_time_ms := 8610;
     specialist_outputs := [(Classifier.revenue, str "Use tiered pricing")];
     moderator_output := None;
     final_answer := str "Use tiered pricing";
     route_decision := shortcut Classifier.revenue; duplicate := false |}.


End MemoryStore.

(** ** The entry of the orchestrator (specification, sections 4.1, 6.1, 7) *)

Module Orchestrator.
Import Js.

(** Modelled from the spec: the status that surfaces each kind of error
    (sections 6.1 and 7); a cancelled request has no response body. *)
Definition httpStatus (kind : Classifier.ErrorKind) : option nat :=
  match kind with
  | Classifier.InvalidInput => Some 400
  | Classifier.UpstreamUnavailable => Some 502
  | Classifier.Timeout => Some 504
  | Classifier.StorageError => Some 500
  | Classifier.Internal => Some 500
  | Classifier.Cancelled => None
  end.

(** What a run leaves: the store, the analyzers it invoked, in order, and
    the entry it committed or the kind of its failure. *)
Record RunResult : Type := {
  store_after : MemoryStore.Store;
  invoked : list Classifier.Role;
  result : Classifier.ErrorKind + MemoryStore.ConversationEntry;
}.

Section Run.

Variable toLowerCase : jsstring → jsstring.

(** The state machine past [CLASSIFIED]: the plan of the supervisor, the
    analyzers, the moderator and the finalizer. *)
Variable pipeline :
  Classifier.Verdict → jsstring → jsstring → MemoryStore.Store → RunResult.

(** Modelled from the spec: [run], from [INIT].  The orchestrator reads the
    history of the thread, classifies the query, and goes to [FAILED] with
    the classifier's error when it fails (section 7: no entry is
    persisted); [thread] is the thread of the request, allocated when the
    request names none. *)
Definition run (store : MemoryStore.Store) (query thread : jsstring)
    (focus_hint : option Classifier.FocusHint) : RunResult :=
  match Classifier.classify toLowerCase query
          (MemoryStore.list_thread store thread None) focus_hint with
  | inl kind => {| store_after := store; invoked := []; result := inl kind |}
  | inr verdict => pipeline verdict query thread store
  end.

(** C6. A query that is empty, or of white space only, fails with
    [InvalidInput], which surfaces as status 400: the store is left as it
    was and no analyzer is invoked.  The frontend does not send such a
    query: the input form does not call [onSubmit] for it, and
    [handleSubmit] returns at once, with no request sent, no timer set and
    the state unchanged. *)
Theorem blank_query_InvalidInput (query : jsstring)
    (store : MemoryStore.Store) (thread : jsstring)
    (focus_hint : option Classifier.FocusHint)
    (TextDecoder : Type) (newTextDecoder : TextDecoder)
    (decode : TextDecoder → list byte → TextDecoder * jsstring)
    (JSON_parse : jsstring → option StreamReader.StreamEvent)
    (threadStamp humanStamp aiStamp : jsstring)
    (threadContext : jsstring → option (list App.Message))
    (respond : App.Request → App.Response)
    (seen st : App.AppState) (effort queryType : jsstring) :
  forallb isWhiteSpace query = true →
  run store query thread focus_hint
    = {| store_after := store; invoked := [];
         result := inl Classifier.InvalidInput |} ∧
  httpStatus Classifier.InvalidInput = Some 400 ∧
  App.handleInternalSubmit
    {| App.internalInputValue := query; App.queryType := queryType |}
    = ({| App.internalInputValue := query; App.queryType := queryType |},
       None) ∧
  App.handleSubmit TextDecoder newTextDecoder decode JSON_parse
    threadStamp humanStamp aiStamp threadContext respond seen st query effort
    = {| App.state := st; App.requests := []; App.timers := [] |}.
Proof.
  intros Hblank%trim_blank.
  unfold run, Classifier.classify, App.handleInternalSubmit, App.handleSubmit.
  simpl. by rewrite !bool_decide_eq_true_2.
Qed.

End Run.

(** C6 at a query of three spaces, with a server that would answer. *)
Lemma blank_query_InvalidInput_witness :
  run toLowerCaseAscii
      (λ _ _ _ store, {| store_after := store; invoked := [Classifier.domain];
                         result := inl Classifier.Internal |})
      [MemoryStore.entry1] (str "   ") (str "t1") None
  = {| store_after := [MemoryStore.entry1]; invoked := [];
       result := inl Classifier.InvalidInput |}.
Proof.
  refine (proj1 (blank_query_InvalidInput toLowerCaseAscii _ (str "   ")
            [MemoryStore.entry1] (str "t1") None unit tt
            StreamReader.decodeAscii StreamReader.parseBraces [] [] []
            (λ _, None) (λ _, App.NoReader) App.initialState App.initialState
            [] [] _)).
  reflexivity.
Defined.

End Orchestrator.

(** ** The event stream of a request (specification, sections 4.6 and 5) *)

Module EventStream.
Import Js.
Import Classifier.

(** Modelled from the spec: the event vocabulary of section 4.6; the
    orchestrator that emits it is part of the backend, which is not among
    the sources. *)
Inductive Event : Type :=
  | classification (verdict : Verdict)
  | supervisor_plan
  | specialist_start (role : Role)
  | specialist_result (role : Role) (text : jsstring)
  | moderator_start
  | moderator_result (text : jsstring)
  | final_answer (text : jsstring)
  | complete (entry : MemoryStore.ConversationEntry)
  | error (kind : ErrorKind)
  | cancelled.

(** Modelled from the spec: the states of the orchestrator (section 4.6).
    While the specialists run, the state holds the roles still running and
    the log of the completions so far, each with the text of the role or
    [None] when the role ended unavailable. *)
Inductive Phase : Type :=
  | INIT
  | CLASSIFIED (verdict : Verdict)
  | SHORTCUT_RUNNING (role : Role)
  | FANOUT_RUNNING (pending : gset Role)
                   (completed : list (Role * option jsstring))
  | FANOUT_COMPLETE (outputs : list (Role * jsstring))
  | MODERATING (outputs : list (Role * jsstring))
  | FINALIZING (text : jsstring)
  | DONE
  | CANCELLED
  | FAILED.

Definition terminal (ph : Phase) : bool :=
  match ph with
  | DONE | CANCELLED | FAILED => true
  | _ => false
  end.

Definition allRoles : list Role := [domain; ux_ui; technical; revenue].

Definition successes (completed : list (Role * option jsstring))
    : list (Role * jsstring) :=
  omap (λ c, (λ text, (c.1, text)) <$> c.2) completed.

(** Modelled from the spec: the transitions, each with the events it
    emits.  A specialist of the fan-out completes at any time, in any
    order ([step_result], [step_unavailable]); the moderator starts behind
    the barrier, when no role is running any more; a request can be
    cancelled, or time out, in any state that is not terminal. *)
Inductive step : Phase → list Event → Phase → Prop :=
  | step_classify verdict :
      step INIT [classification verdict] (CLASSIFIED verdict)
  | step_invalid :
      step INIT [error InvalidInput] FAILED
  | step_shortcut verdict role :
      shortcut_target verdict = Some (to_role role) →
      step (CLASSIFIED verdict) [specialist_start role] (SHORTCUT_RUNNING role)
  | step_shortcut_moderator verdict :
      shortcut_target verdict = Some to_moderator →
      step (CLASSIFIED verdict) [moderator_start] (MODERATING [])
  | step_fanout verdict :
      shortcut_target verdict = None →
      step (CLASSIFIED verdict)
        (supervisor_plan :: (specialist_start <$> allRoles))
        (FANOUT_RUNNING (list_to_set allRoles) [])
  | step_shortcut_result role text :
      step (SHORTCUT_RUNNING role) [specialist_result role text]
        (FINALIZING text)
  | step_shortcut_unavailable role :
      step (SHORTCUT_RUNNING role) [error UpstreamUnavailable] FAILED
  | step_result pending completed role text :
      role ∈ pending →
      step (FANOUT_RUNNING pending completed) [specialist_result role text]
        (FANOUT_RUNNING (pending ∖ {[role]}) (completed ++ [(role, Some text)]))
  | step_unavailable pending completed role :
      role ∈ pending →
      step (FANOUT_RUNNING pending completed) []
        (FANOUT_RUNNING (pending ∖ {[role]}) (completed ++ [(role, None)]))
  | step_barrier completed :
      successes completed ≠ [] →
      step (FANOUT_RUNNING ∅ completed) []
        (FANOUT_COMPLETE (successes completed))
  | step_all_unavailable completed :
      successes completed = [] →
      step (FANOUT_RUNNING ∅ completed) [error UpstreamUnavailable] FAILED
  | step_moderator_start outputs :
      step (FANOUT_COMPLETE outputs) [moderator_start] (MODERATING outputs)
  | step_moderator_result outputs text :
      step (MODERATING outputs) [moderator_result text]
        (FINALIZING (Utils.specExtract text))
  | step_moderator_fallback role text outputs :
      step (MODERATING ((role, text) :: outputs)) [] (FINALIZING text)
  | step_moderator_unavailable :
      step (MODERATING []) [error UpstreamUnavailable] FAILED
  | step_commit text entry :
      step (FINALIZING text) [final_answer text; complete entry] DONE
  | step_storage text :
      step (FINALIZING text) [final_answer text; error StorageError] FAILED
  | step_cancel ph :
      terminal ph = false → step ph [cancelled] CANCELLED
  | step_timeout ph :
      terminal ph = false → step ph [error Timeout] FAILED.

(** The states a request reaches from [INIT], with the events emitted on
    the way, in order. *)
Inductive run : Phase → list Event → Prop :=
  | run_init : run INIT []
  | run_step ph trace events ph' :
      run ph trace → step ph events ph' → run ph' (trace ++ events).

(** *** Kinds of events *)

Definition isClassification (e : Event) : bool :=
  match e with classification _ => true | _ => false end.
Definition isSpecialist (e : Event) : bool :=
  match e with
  | specialist_start _ | specialist_result _ _ => true
  | _ => false
  end.
Definition isResult (e : Event) : bool :=
  match e with specialist_result _ _ => true | _ => false end.
Definition isModeratorStart (e : Event) : bool :=
  match e with moderator_start => true | _ => false end.
Definition isFinalAnswer (e : Event) : bool :=
  match e with final_answer _ => true | _ => false end.
Definition isComplete (e : Event) : bool :=
  match e with complete _ => true | _ => false end.

(** The specialist results of a trace, in the order of their emission. *)
Definition results (trace : list Event) : list (Role * jsstring) :=
  omap (λ e, match e with
             | specialist_result role text => Some (role, text)
             | _ => None
             end) trace.

(** [P] precedes [Q] in a trace: every event of kind [Q] has an event of
    kind [P] before it.  [seen] tells whether a [P] came before the part
    that is scanned. *)
Fixpoint precedes (P Q : Event → bool) (seen : bool) (trace : list Event)
    : bool :=
  match trace with
  | [] => true
  | e :: rest => (negb (Q e) || seen) && precedes P Q (seen || P e) rest
  end.

(** No [Q] after a [P] in a trace. *)
Fixpoint noneAfter (P Q : Event → bool) (seen : bool) (trace : list Event)
    : bool :=
  match trace with
  | [] => true
  | e :: rest => negb (seen && Q e) && noneAfter P Q (seen || P e) rest
  end.

(** *** The scans and their meaning *)

Lemma precedes_app (P Q : Event → bool) (seen : bool) (a b : list Event) :
  precedes P Q seen (a ++ b)
  = precedes P Q seen a && precedes P Q (seen || existsb P a) b.
Proof.
  revert seen. induction a as [|e a IH]; intros seen; simpl.
  - by rewrite orb_false_r.
  - by rewrite IH, andb_assoc, orb_assoc.
Qed.

Lemma noneAfter_app (P Q : Event → bool) (seen : bool) (a b : list Event) :
  noneAfter P Q seen (a ++ b)
  = noneAfter P Q seen a && noneAfter P Q (seen || existsb P a) b.
Proof.
  revert seen. induction a as [|e a IH]; intros seen; simpl.
  - by rewrite orb_false_r.
  - by rewrite IH, andb_assoc, orb_assoc.
Qed.

Lemma results_app (a b : list Event) : results (a ++ b) = results a ++ results b.
Proof. apply omap_app. Qed.

Lemma precedes_sound (P Q : Event → bool) (seen : bool) (trace : list Event) :
  precedes P Q seen trace = true →
  ∀ before e after, trace = before ++ e :: after → Q e = true →
    seen = true ∨ ∃ e', e' ∈ before ∧ P e' = true.
Proof.
  revert seen. induction trace as [|x trace IH]; intros seen Hscan before e after Heq HQ.
  - by destruct before.
  - simpl in Hscan. apply andb_true_iff in Hscan as [Hx Hrest].
    destruct before as [|y before]; simplify_eq/=.
    + rewrite HQ in Hx. simpl in Hx. by left.
    + destruct (IH _ Hrest before e after eq_refl HQ) as [Hseen|(e' & He' & HP)].
      * apply orb_true_iff in Hseen as [?|?]; [by left|].
        right. exists y. split; [apply list_elem_of_here|done].
      * right. exists e'. split; [by apply list_elem_of_further|done].
Qed.

Lemma noneAfter_seen (P Q : Event → bool) (trace : list Event) :
  noneAfter P Q true trace = true → ∀ e, e ∈ trace → Q e = false.
Proof.
  induction trace as [|x trace IH]; intros Hscan e He.
  - by apply elem_of_nil in He.
  - simpl in Hscan. apply andb_true_iff in Hscan as [Hx Hrest].
    apply elem_of_cons in He as [->|He]; [by apply negb_true_iff in Hx|].
    by apply IH.
Qed.

Lemma noneAfter_sound (P Q : Event → bool) (seen : bool) (trace : list Event) :
  noneAfter P Q seen trace = true →
  ∀ before e after, trace = before ++ e :: after → P e = true →
    ∀ e', e' ∈ after → Q e' = false.
Proof.
  revert seen. induction trace as [|x trace IH]; intros seen Hscan before e after Heq HP.
  - by destruct before.
  - simpl in Hscan. apply andb_true_iff in Hscan as [Hx Hrest].
    destruct before as [|y before]; simplify_eq/=.
    + rewrite HP, orb_true_r in Hrest. by apply (noneAfter_seen P Q after).
    + by eapply IH.
Qed.

(** *** The invariant of the runs *)

Definition mayRunSpecialists (ph : Phase) : bool :=
  match ph with
  | CLASSIFIED _ | SHORTCUT_RUNNING _ | FANOUT_RUNNING _ _ => true
  | _ => false
  end.

Definition pastBarrier (ph : Phase) : bool :=
  match ph with
  | MODERATING _ | FINALIZING _ | DONE | CANCELLED | FAILED => true
  | _ => false
  end.

Definition logged (ph : Phase) (trace : list Event) : Prop :=
  match ph with
  | INIT | CLASSIFIED _ => results trace = []
  | FANOUT_RUNNING _ completed => results trace = successes completed
  | FANOUT_COMPLETE outputs => results trace = outputs
  | _ => True
  end.

Record Inv (ph : Phase) (trace : list Event) : Prop := {
  inv_classified : precedes isClassification isSpecialist false trace = true;
  inv_has_classification :
    mayRunSpecialists ph = true → existsb isClassification trace = true;
  inv_barrier : noneAfter isModeratorStart isResult false trace = true;
  inv_past : existsb isModeratorStart trace = true → pastBarrier ph = true;
  inv_final : precedes isFinalAnswer isComplete false trace = true;
  inv_logged : logged ph trace;
}.

Lemma successes_snoc_Some completed role text :
  successes (completed ++ [(role, Some text)])
  = successes completed ++ [(role, text)].
Proof. unfold successes. by rewrite omap_app. Qed.

Lemma successes_snoc_None completed role :
  successes (completed ++ [(role, None)]) = successes completed.
Proof. unfold successes. rewrite omap_app. apply (right_id_L [] (++)). Qed.

Lemma step_Inv (ph ph' : Phase) (trace events : list Event) :
  Inv ph trace → step ph events ph' → Inv ph' (trace ++ events).
Proof.
  intros [Hc Hhas Hb Hpast Hf Hlog] Hstep.
  split; rewrite ?precedes_app, ?noneAfter_app, ?existsb_app, ?results_app,
           ?Hc, ?Hb, ?Hf; simpl;
    destruct Hstep; simpl in *;
    rewrite ?results_app, ?successes_snoc_Some, ?successes_snoc_None, ?Hlog,
      ?(right_id_L [] (++)), ?orb_false_r, ?andb_true_r in *;
    try done;
    try (rewrite Hhas by done; done);
    try (intros _; by apply Hhas);
    try (destruct (existsb isModeratorStart trace); [by specialize (Hpast eq_refl)|done]);
    try (by destruct (existsb isFinalAnswer trace));
    try (by destruct (existsb isClassification trace));
    try (by destruct (existsb isModeratorStart trace));
    try (destruct ph; simpl in *; try done;
         intros; by apply Hhas);
    try (cbn; by rewrite (right_id_L [] (++))).
Qed.

Lemma run_Inv (ph : Phase) (trace : list Event) : run ph trace → Inv ph trace.
Proof.
  induction 1 as [|ph trace events ph' _ IH Hstep]; [by split|].
  by eapply step_Inv.
Qed.

(** *** Every order of completion has a run *)

Lemma successes_all (order : list (Role * jsstring)) :
  successes ((λ o, (o.1, Some o.2)) <$> order) = order.
Proof.
  induction order as [|[role text] order IH]; [done|].
  cbn. f_equal. exact IH.
Qed.

Lemma fanout_any_order (order : list (Role * jsstring)) :
  NoDup order.*1 →
  ∀ pending completed trace,
    pending = list_to_set order.*1 →
    run (FANOUT_RUNNING pending completed) trace →
    ∃ trace',
      run (FANOUT_RUNNING ∅ (completed ++ ((λ o, (o.1, Some o.2)) <$> order)))
          trace' ∧
      results trace' = results trace ++ order.
Proof.
  induction order as [|[role text] order IH];
    intros Hnodup pending completed trace -> Hrun.
  - exists trace. rewrite fmap_nil, !(right_id_L [] (++)). by split.
  - simpl in Hnodup. apply NoDup_cons in Hnodup as [Hrole Hnodup].
    assert (step (FANOUT_RUNNING (list_to_set ((role, text) :: order).*1)
                                 completed)
                 [specialist_result role text]
                 (FANOUT_RUNNING (list_to_set order.*1)
                                 (completed ++ [(role, Some text)]))) as Hstep.
    { replace (list_to_set order.*1 : gset Role)
        with (list_to_set ((role, text) :: order).*1 ∖ {[role]} : gset Role).
      - apply step_result. rewrite elem_of_list_to_set. apply list_elem_of_here.
      - apply set_eq. intros x. simpl.
        rewrite elem_of_difference, elem_of_union, !elem_of_singleton,
          !elem_of_list_to_set.
        split; [by intros [[->|?] ?]|]. intros Hx. split; [by right|].
        by intros ->. }
    destruct (IH Hnodup _ _ _ eq_refl (run_step _ _ _ _ Hrun Hstep))
      as (trace' & Hrun' & Hres).
    exists trace'. split.
    + by rewrite <-(assoc_L (++)) in Hrun'.
    + rewrite Hres, results_app. simpl. by rewrite <-(assoc_L (++)).
Qed.

Lemma fanout_complete_any_order (outputs : list (Role * jsstring)) :
  outputs.*1 ≡ₚ allRoles →
  ∃ trace, run (FANOUT_COMPLETE outputs) trace ∧ results trace = outputs.
Proof.
  intros Hperm.
  set (verdict := {| query_kind := kind_general; is_followup := false;
                     shortcut_target := None |}).
  assert (run (FANOUT_RUNNING (list_to_set allRoles) [])
              ([] ++ [classification verdict]
                  ++ supervisor_plan :: (specialist_start <$> allRoles)))
    as Hrun.
  { rewrite (assoc_L (++)).
    apply (run_step (CLASSIFIED verdict)); [|by apply step_fanout].
    apply (run_step INIT []); [apply run_init|apply step_classify]. }
  assert (NoDup outputs.*1) as Hnodup.
  { rewrite Hperm. by apply (bool_decide_unpack (NoDup allRoles)). }
  destruct (fanout_any_order outputs Hnodup _ _ _
              (list_to_set_perm_L _ _ (symmetry Hperm)) Hrun)
    as (trace' & Hrun' & Hres).
  exists (trace' ++ []). split.
  - rewrite <-(successes_all outputs) at 1.
    eapply run_step; [done|]. apply step_barrier.
    rewrite successes_all. intros ->. by apply Permutation_nil_l in Hperm.
  - by rewrite (right_id_L [] (++)), Hres.
Qed.

(** C7. In the event stream of every request: a [classification] event
    comes before any specialist event; no [specialist_result] comes after
    [moderator_start]; a [final_answer] comes before [complete]; and the
    [specialist_result] events appear in the order in which the specialists
    completed, which is not fixed by the roles: every order of the four
    roles is the order of the results of some request. *)
Theorem event_stream_order (ph : Phase) (trace : list Event) :
  run ph trace →
  (∀ before e after,
     trace = before ++ e :: after → isSpecialist e = true →
     ∃ verdict, classification verdict ∈ before) ∧
  (∀ before after,
     trace = before ++ moderator_start :: after →
     ∀ role text, specialist_result role text ∉ after) ∧
  (∀ before entry after,
     trace = before ++ complete entry :: after →
     ∃ text, final_answer text ∈ before) ∧
  (∀ pending completed,
     ph = FANOUT_RUNNING pending completed →
     results trace = successes completed) ∧
  (∀ outputs, ph = FANOUT_COMPLETE outputs → results trace = outputs) ∧
  (∀ outputs : list (Role * jsstring),
     outputs.*1 ≡ₚ allRoles →
     ∃ trace', run (FANOUT_COMPLETE outputs) trace' ∧ results trace' = outputs).
Proof.
  intros [Hc _ Hb _ Hf Hlog]%run_Inv. repeat split.
  - intros before e after Heq He.
    destruct (precedes_sound _ _ _ _ Hc before e after Heq He)
      as [|([] & Hin & Hcl)]; try done. eauto.
  - intros before after Heq role text Hin.
    by pose proof (noneAfter_sound _ _ _ _ Hb before _ after Heq eq_refl
                     _ Hin).
  - intros before entry after Heq.
    destruct (precedes_sound _ _ _ _ Hf before _ after Heq eq_refl)
      as [|([] & Hin & Hfa)]; try done. eauto.
  - by intros pending completed ->.
  - by intros outputs ->.
  - apply fanout_complete_any_order.
Qed.

(** C7 at the run of a follow-up that is routed to the revenue analyst:
    the run exists, and its classification comes before the result. *)
Lemma event_stream_order_witness :
  run DONE
    [classification {| query_kind := kind_revenue; is_followup := true;
                       shortcut_target := Some (to_role revenue) |};
     specialist_start revenue;
     specialist_result revenue (str "Use tiered pricing");
     final_answer (str "Use tiered pricing");
     complete MemoryStore.entry2] ∧
  ∃ verdict,
    classification verdict
      ∈ [classification {| query_kind := kind_revenue; is_followup := true;
                           shortcut_target := Some (to_role revenue) |};
         specialist_start revenue].
Proof.
  set (verdict := {| query_kind := kind_revenue; is_followup := true;
                     shortcut_target := Some (to_role revenue) |}).
  assert (run DONE
            ([classification verdict; specialist_start revenue]
               ++ specialist_result revenue (str "Use tiered pricing")
               :: [final_answer (str "Use tiered pricing");
                   complete MemoryStore.entry2])) as Hrun.
  { apply (run_step (FINALIZING (str "Use tiered pricing"))
             [classification verdict; specialist_start revenue;
              specialist_result revenue (str "Use tiered pricing")]);
      [|apply step_commit].
    apply (run_step (SHORTCUT_RUNNING revenue)
             [classification verdict; specialist_start revenue]);
      [|apply step_shortcut_result].
    apply (run_step (CLASSIFIED verdict) [classification verdict]);
      [|by apply step_shortcut].
    apply (run_step INIT []); [apply run_init|apply step_classify]. }
  split; [exact Hrun|].
  destruct (event_stream_order _ _ Hrun) as (Hfirst & _).
  by apply (Hfirst _ (specialist_result revenue (str "Use tiered pricing"))
              [final_answer (str "Use tiered pricing");
               complete MemoryStore.entry2]).
Defined.

End EventStream.

(** ** [LangGraphMemoryView.tsx]: what the panel shows of an entry *)

Module MemoryPanel.
Import Js MemoryView.

(** [s.substring(start, finish)] for indices that are natural numbers:
    both are clamped to the length, and swapped when the first is the
    larger. *)
Definition substring (s : jsstring) (start finish : nat) : jsstring :=
  let a := start `min` length s in
  let b := finish `min` length s in
  take (a `max` b - a `min` b) (drop (a `min` b) s).

(** [const truncateText = (text, maxLength = 100) => ...]; the entries are
    listed with [truncateText(entry.response, 200)], the search results with
    [truncateText(entry.response, 150)]. *)
Definition truncateText (text : jsstring) (maxLength : nat) : jsstring :=
  if bool_decide (text = []) then str "No content"
  else if bool_decide (length text ≤ maxLength) then text
  else substring text 0 maxLength ++ str "...".

Lemma substring_0 (s : jsstring) (n : nat) : substring s 0 n = take n s.
Proof.
  unfold substring. simpl. rewrite Nat.sub_0_r, drop_0.
  destruct (decide (n ≤ length s)).
  - by rewrite Nat.min_l.
  - rewrite Nat.min_r, !take_ge by lia. done.
Qed.

Lemma truncateText_cut (text : jsstring) (n : nat) :
  n < length text → truncateText text n = take n text ++ str "...".
Proof.
  intros Hlong. unfold truncateText.
  rewrite bool_decide_eq_false_2 by (intros ->; simpl in Hlong; lia).
  rewrite bool_decide_eq_false_2 by lia. by rewrite substring_0.
Qed.

Lemma truncateText_short (text : jsstring) (n : nat) :
  text ≠ [] → length text ≤ n → truncateText text n = text.
Proof.
  intros Hne Hshort. unfold truncateText.
  by rewrite bool_decide_eq_false_2, bool_decide_eq_true_2.
Qed.

(** X4. The text shown for a response is never empty and has at most
    [maxLength + 3] units (ten for the placeholder of an empty response).
    It starts with the first [maxLength] units of a response that is not
    empty; and a response that is over the limit comes out with exactly
    [maxLength + 3] units, which is more than it has when it is one or two
    units over. *)
Theorem truncateText_length (text : jsstring) (maxLength : nat) :
  truncateText text maxLength ≠ [] ∧
  length (truncateText text maxLength) ≤ 10 `max` (maxLength + 3) ∧
  (text ≠ [] → take maxLength (truncateText text maxLength)
               = take maxLength text) ∧
  (maxLength < length text →
     length (truncateText text maxLength) = maxLength + 3).
Proof.
  destruct (decide (text = [])) as [->|Hne].
  { change (truncateText [] maxLength) with (str "No content").
    split; [done|]. split; [change (length (str "No content")) with 10; lia|].
    split; [by intros []|]. intros Hlt. simpl in Hlt. lia. }
  destruct (decide (length text ≤ maxLength)) as [Hshort|Hlong].
  - rewrite truncateText_short by done.
    split; [done|]. split; [lia|]. split; [done|]. lia.
  - rewrite truncateText_cut by lia.
    assert (length (take maxLength text ++ str "...") = maxLength + 3) as Hlen.
    { rewrite length_app, length_take. simpl. lia. }
    repeat split.
    + intros Hnil. rewrite Hnil in Hlen. simpl in Hlen. lia.
    + lia.
    + intros _. rewrite take_app_le by (rewrite length_take; lia).
      by rewrite take_take, Nat.min_id.
    + done.
Qed.

(** X4 at a response of five units and a limit of three. *)
Lemma truncateText_length_witness :
  take 3 (truncateText (str "Hello") 3) = str "Hel" ∧
  length (truncateText (str "Hello") 3) = 6.
Proof.
  destruct (truncateText_length (str "Hello") 3) as (_ & _ & Hpre & Hlen).
  split; [by apply Hpre | apply Hlen; simpl; lia].
Defined.

(** X5. Truncating what was truncated changes nothing, for every response
    that is not empty and, for the empty response, whenever the limit is
    at least the ten units of the placeholder. *)
Theorem truncateText_idempotent (text : jsstring) (maxLength : nat) :
  text ≠ [] ∨ 10 ≤ maxLength →
  truncateText (truncateText text maxLength) maxLength
  = truncateText text maxLength.
Proof.
  intros Hcase. destruct (decide (text = [])) as [->|Hne].
  { destruct Hcase as [|Hten]; [done|].
    change (truncateText [] maxLength) with (str "No content").
    apply truncateText_short; [done|simpl; lia]. }
  destruct (decide (length text ≤ maxLength)) as [Hshort|Hlong].
  - rewrite (truncateText_short text) by done. by apply truncateText_short.
  - rewrite (truncateText_cut text) by lia.
    rewrite truncateText_cut by (rewrite length_app, length_take; simpl; lia).
    rewrite take_app_le by (rewrite length_take; lia).
    by rewrite take_take, Nat.min_id.
Qed.

Lemma truncateText_idempotent_witness :
  truncateText (truncateText (str "Hello") 3) 3 = str "Hel...".
Proof.
  rewrite truncateText_idempotent; [reflexivity|by left].
Defined.

(** *** The duplicate badge and the words of two responses *)

Lemma ratioExceeds80_same (n : nat) : n ≠ 0 → ratioExceeds80 n n = true.
Proof.
  intros Hn. unfold ratioExceeds80. destruct n as [|n]; [done|].
  apply Nat.ltb_lt. lia.
Qed.

Lemma ratioExceeds80_small (a b : nat) :
  b ≠ 0 → 5 * a ≤ 4 * b → ratioExceeds80 a b = false.
Proof.
  intros Hb Hle. unfold ratioExceeds80. destruct b as [|b]; [done|].
  apply Nat.ltb_ge. lia.
Qed.

Lemma wordSet_size (text : jsstring) : size (wordSet text) ≠ 0.
Proof.
  pose proof (wordSet_union_size text text) as Hne.
  by rewrite (idemp_L (∪)) in Hne.
Qed.

Lemma size_intersection_le (X Y : gset (list N)) :
  size (X ∩ Y) ≤ size X `min` size Y.
Proof.
  apply Nat.min_glb; apply subseteq_size.
  - apply intersection_subseteq_l.
  - apply intersection_subseteq_r.
Qed.

Lemma size_union_ge (X Y : gset (list N)) :
  size X `max` size Y ≤ size (X ∪ Y).
Proof.
  apply Nat.max_lub; apply subseteq_size.
  - apply union_subseteq_l.
  - apply union_subseteq_r.
Qed.

Section Duplicates.

Variable toLowerCase : jsstring → jsstring.
Hypothesis toLowerCase_empty : ∀ s, toLowerCase s = [] ↔ s = [].

Local Abbreviation isDuplicate := (isDuplicateContent toLowerCase).
Local Abbreviation words entry := (wordSet (toLowerCase (response entry))).

(** X6. An entry whose lowercased response is made of the same words as
    that of the entry listed before it, in whatever order and however often
    repeated, carries the badge, provided the response before it is not
    empty. *)
Theorem isDuplicateContent_same_words
    (memoryEntries : list LangGraphMemoryEntry)
    (entry previous : LangGraphMemoryEntry) (index : nat) :
  memoryEntries !! index = Some previous →
  response previous ≠ [] →
  words entry = words previous →
  isDuplicate memoryEntries entry (S index) = true.
Proof.
  intros Hprev Hne Hwords.
  rewrite (isDuplicateContent_step _ toLowerCase_empty _ _ _ _ Hprev).
  rewrite bool_decide_eq_false_2 by done. case_bool_decide; [done|].
  cbv zeta. rewrite Hwords, (idemp_L (∩)), (idemp_L (∪)).
  apply ratioExceeds80_same, wordSet_size.
Qed.

(** X7. Between two responses that are not empty the comparison is
    symmetric: the second of two entries carries the badge exactly when
    the first would carry it were the two listed the other way round. *)
Theorem isDuplicateContent_symmetric
    (entries1 entries2 : list LangGraphMemoryEntry)
    (a b : LangGraphMemoryEntry) (i j : nat) :
  entries1 !! i = Some a → entries2 !! j = Some b →
  response a ≠ [] → response b ≠ [] →
  isDuplicate entries1 b (S i) = isDuplicate entries2 a (S j).
Proof.
  intros Ha Hb Hnea Hneb.
  rewrite (isDuplicateContent_step _ toLowerCase_empty _ _ _ _ Ha),
    (isDuplicateContent_step _ toLowerCase_empty _ _ _ _ Hb).
  rewrite (bool_decide_eq_false_2 (response a = [])),
    (bool_decide_eq_false_2 (response b = [])) by done. cbv zeta.
  rewrite (comm_L (∩) (words b)), (comm_L (∪) (words b)).
  repeat case_bool_decide; congruence.
Qed.

(** X8. An entry is never flagged when one of the two responses has at
    most four fifths as many distinct words as the other, whatever the
    words are: five words against four shared ones are not enough. *)
Theorem isDuplicateContent_fewer_words
    (memoryEntries : list LangGraphMemoryEntry)
    (entry previous : LangGraphMemoryEntry) (index : nat) :
  memoryEntries !! index = Some previous →
  5 * (size (words entry) `min` size (words previous))
    ≤ 4 * (size (words entry) `max` size (words previous)) →
  isDuplicate memoryEntries entry (S index) = false.
Proof.
  intros Hprev Hfew.
  rewrite (isDuplicateContent_step _ toLowerCase_empty _ _ _ _ Hprev).
  case_bool_decide; [done|]. case_bool_decide as Heq.
  { rewrite Heq, Nat.min_id, Nat.max_id in Hfew.
    pose proof (wordSet_size (toLowerCase (response previous))). lia. }
  cbv zeta. apply ratioExceeds80_small; [apply wordSet_union_size|].
  pose proof (size_intersection_le (words entry) (words previous)).
  pose proof (size_union_ge (words entry) (words previous)). lia.
Qed.

End Duplicates.

(** X6 at a response that repeats and reorders the words of the one
    before it. *)
Lemma isDuplicateContent_same_words_witness :
  isDuplicateContent toLowerCaseAscii
    [entryWith (str "yes no"); entryWith (str "No yes YES")]
    (entryWith (str "No yes YES")) 1 = true.
Proof.
  apply (isDuplicateContent_same_words toLowerCaseAscii toLowerCaseAscii_empty
           _ _ (entryWith (str "yes no")) 0); [reflexivity|done|].
  apply set_eq. intros w. unfold wordSet. rewrite !elem_of_list_to_set.
  change (split SPACE (toLowerCaseAscii (response (entryWith (str "No yes YES")))))
    with [str "no"; str "yes"; str "yes"].
  change (split SPACE (toLowerCaseAscii (response (entryWith (str "yes no")))))
    with [str "yes"; str "no"].
  rewrite !elem_of_cons, !elem_of_nil. tauto.
Defined.

(** X7 at two responses that differ in one word out of ten. *)
Lemma isDuplicateContent_symmetric_witness :
  isDuplicateContent toLowerCaseAscii
    [entryWith (str "a b c d e f g h i j"); entryWith (str "a b c d e f g h i k")]
    (entryWith (str "a b c d e f g h i k")) 1
  = isDuplicateContent toLowerCaseAscii
      [entryWith (str "a b c d e f g h i k"); entryWith (str "a b c d e f g h i j")]
      (entryWith (str "a b c d e f g h i j")) 1.
Proof.
  by apply (isDuplicateContent_symmetric toLowerCaseAscii
              toLowerCaseAscii_empty).
Defined.

(** X8 at four words against five, four of them shared: a similarity of
    exactly 4/5. *)
Lemma isDuplicateContent_fewer_words_witness :
  isDuplicateContent toLowerCaseAscii
    [entryWith (str "a b c d e"); entryWith (str "a b c d")]
    (entryWith (str "a b c d")) 1 = false.
Proof.
  apply (isDuplicateContent_fewer_words toLowerCaseAscii
           toLowerCaseAscii_empty _ _ (entryWith (str "a b c d e")) 0);
    [reflexivity|].
  unfold wordSet. rewrite <-!length_newSet. by vm_compute.
Defined.

End MemoryPanel.

(** ** [ActivityTimeline.tsx] *)

Module ActivityTimeline.
Import Js.
Export App(ProcessedEvent, title, data).

(** The icons of [lucide-react] that the component draws, with their
    [className]. *)
Inductive Glyph : Type :=
  | Loader2 | Search | Brain | Activity | TextSearch | DollarSign | Sparkles
  | CheckCircle.

Record Icon : Type := { glyph : Glyph; className : jsstring }.

(** One entry of [processedEvents.map(...)]: the line that joins it to the
    next one, its icon, its title, the class and the two numbers of its
    badge ([{index + 1}/{processedEvents.length}]), and its text ([data] is
    a string in every event that [App.tsx] makes, and is shown as it is). *)
Record Item : Type := {
  connector : bool;
  icon : Icon;
  heading : jsstring;
  badgeClass : jsstring;
  badge : nat * nat;
  detail : jsstring;
}.

(** The content of the card when it is not collapsed: the block
    [Initializing analysis...], the entries, the block
    [Processing next step...] and the block [No activity to display.] *)
Record Body : Type := {
  initializing : bool;
  items : list Item;
  processing : bool;
  noActivity : bool;
}.

(** The state [isTimelineCollapsed] after the effect on
    [[isLoading, processedEvents]] has run, and after the first render,
    where it starts as [false]; a click on the header negates it. *)
Definition collapseEffect (processedEvents : list ProcessedEvent)
    (isLoading isTimelineCollapsed : bool) : bool :=
  if negb isLoading && negb (bool_decide (length processedEvents = 0))
  then true
  else isTimelineCollapsed.

Definition collapsedAtFirst (processedEvents : list ProcessedEvent)
    (isLoading : bool) : bool :=
  collapseEffect processedEvents isLoading false.

Section Timeline.

(** [String.prototype.toLowerCase]. *)
Variable toLowerCase : jsstring → jsstring.

(** [title.toLowerCase().includes(keyword)] *)
Definition titleHas (keyword : string) (title : jsstring) : bool :=
  includes (str keyword) (toLowerCase title).

Definition getEventIcon (processedEvents : list ProcessedEvent)
    (isLoading : bool) (title : jsstring) (index : nat) : Icon :=
  if bool_decide (index = 0) && isLoading
     && bool_decide (length processedEvents = 0)
  then {| glyph := Loader2;
          className := str "h-4 w-4 text-blue-400 animate-spin" |}
  else if titleHas "query classification" title
  then {| glyph := Search; className := str "h-4 w-4 text-blue-400" |}
  else if titleHas "domain expert" title
  then {| glyph := Brain; className := str "h-4 w-4 text-blue-400" |}
  else if titleHas "ux/ui" title
  then {| glyph := Activity; className := str "h-4 w-4 text-green-400" |}
  else if titleHas "technical" title
  then {| glyph := TextSearch; className := str "h-4 w-4 text-purple-400" |}
  else if titleHas "revenue" title
  then {| glyph := DollarSign; className := str "h-4 w-4 text-orange-400" |}
  else if titleHas "moderator" title
  then {| glyph := Sparkles; className := str "h-4 w-4 text-pink-400" |}
  else if titleHas "final answer" title
  then {| glyph := CheckCircle; className := str "h-4 w-4 text-green-400" |}
  else {| glyph := Activity; className := str "h-4 w-4 text-gray-400" |}.

Definition getEventColor (title : jsstring) : jsstring :=
  if titleHas "query classification" title
  then str "border-blue-500/30 bg-blue-900/20"
  else if titleHas "domain expert" title
  then str "border-blue-500/30 bg-blue-900/20"
  else if titleHas "ux/ui" title
  then str "border-green-500/30 bg-green-900/20"
  else if titleHas "technical" title
  then str "border-purple-500/30 bg-purple-900/20"
  else if titleHas "revenue" title
  then str "border-orange-500/30 bg-orange-900/20"
  else if titleHas "moderator" title
  then str "border-pink-500/30 bg-pink-900/20"
  else if titleHas "final answer" title
  then str "border-green-500/30 bg-green-900/20"
  else str "border-gray-500/30 bg-gray-900/20".

Definition renderItem (processedEvents : list ProcessedEvent)
    (isLoading : bool) (index : nat) (eventItem : ProcessedEvent) : Item :=
  {| connector :=
       bool_decide (index < length processedEvents - 1)
       || isLoading && bool_decide (index = length processedEvents - 1);
     icon := getEventIcon processedEvents isLoading (title eventItem) index;
     heading := title eventItem;
     badgeClass := str "text-xs " ++ getEventColor (title eventItem);
     badge := (index + 1, length processedEvents);
     detail := data eventItem |}.

Definition ActivityTimeline (processedEvents : list ProcessedEvent)
    (isLoading : bool) : Body :=
  {| initializing := isLoading && bool_decide (length processedEvents = 0);
     items :=
       if bool_decide (0 < length processedEvents)
       then imap (renderItem processedEvents isLoading) processedEvents
       else [];
     processing :=
       bool_decide (0 < length processedEvents)
       && isLoading && bool_decide (0 < length processedEvents);
     noActivity :=
       negb (bool_decide (0 < length processedEvents)) && negb isLoading |}.

(** The colours of the palette that the two functions draw from. *)
Definition hues : list jsstring :=
  [str "blue"; str "green"; str "purple"; str "orange"; str "pink";
   str "gray"].

(** The class of an icon and the class of a badge name the same colour. *)
Definition sameHue (iconClass badgeClass : jsstring) : Prop :=
  ∃ hue, hue ∈ hues ∧
    includes (str "text-" ++ hue ++ str "-400") iconClass = true ∧
    includes (str "border-" ++ hue ++ str "-500/30 bg-" ++ hue
                ++ str "-900/20") badgeClass = true.

Lemma getEventIcon_listed (processedEvents : list ProcessedEvent)
    (isLoading : bool) (title : jsstring) (index : nat) :
  index < length processedEvents →
  glyph (getEventIcon processedEvents isLoading title index) ≠ Loader2 ∧
  sameHue (className (getEventIcon processedEvents isLoading title index))
          (str "text-xs " ++ getEventColor title).
Proof.
  intros Hindex. unfold getEventIcon, getEventColor.
  rewrite (bool_decide_eq_false_2 (length processedEvents = 0)) by lia.
  rewrite andb_false_r.
  repeat match goal with
         | |- context [titleHas ?keyword title] =>
             destruct (titleHas keyword title)
         end;
    (split; [done|]);
    [ exists (str "blue") | exists (str "blue") | exists (str "green")
    | exists (str "purple") | exists (str "orange") | exists (str "pink")
    | exists (str "green") | exists (str "gray") ];
    (split; [apply (bool_decide_unpack (_ ∈ hues)); by vm_compute
            | by vm_compute]).
Qed.

(** X9. In the list that the card shows, no entry ever has the spinning
    loader for its icon (the branch of [getEventIcon] that draws it needs
    an empty list), and the icon and the badge of an entry always have the
    same colour, whatever the title. *)
Theorem ActivityTimeline_items (processedEvents : list ProcessedEvent)
    (isLoading : bool) (item : Item) :
  item ∈ items (ActivityTimeline processedEvents isLoading) →
  glyph (icon item) ≠ Loader2 ∧
  sameHue (className (icon item)) (badgeClass item).
Proof.
  unfold ActivityTimeline. simpl. case_bool_decide; [|by intros ?%elem_of_nil].
  intros (index & Hitem)%list_elem_of_lookup.
  rewrite list_lookup_imap in Hitem.
  destruct (processedEvents !! index) as [eventItem|] eqn:Hevent; [|done].
  injection Hitem as <-. simpl.
  apply getEventIcon_listed. by eapply lookup_lt_Some.
Qed.

End Timeline.

(** X9 at the first entry of a timeline that is loading. *)
Lemma ActivityTimeline_items_witness :
  glyph (icon (renderItem toLowerCaseAscii
                 [ {| title := str "Query Classification"; data := [] |} ]
                 true 0
                 {| title := str "Query Classification"; data := [] |}))
  ≠ Loader2 ∧
  sameHue (str "h-4 w-4 text-blue-400")
          (str "text-xs border-blue-500/30 bg-blue-900/20").
Proof.
  apply (ActivityTimeline_items toLowerCaseAscii
           [ {| title := str "Query Classification"; data := [] |} ] true
           (renderItem toLowerCaseAscii
              [ {| title := str "Query Classification"; data := [] |} ]
              true 0
              {| title := str "Query Classification"; data := [] |})).
  apply list_elem_of_here.
Defined.

End ActivityTimeline.

(** ** [ChatMessagesView.tsx]: what is drawn for a conversation *)

Module ChatView.
Import Js.
Export App(Message, MessageType, human, ai, mtype, mcontent, id, metadata,
           is_followup).
Import ActivityTimeline.

(** The properties an [<ActivityTimeline>] element is given. *)
Record TimelineProps : Type := {
  processedEvents : list ProcessedEvent;
  isLoading : bool;
}.

(** What is drawn for one message.  For a reply: the badge [Follow-up],
    the timeline above the text when there is one, whether the copy button
    is visible, and the text it copies. *)
Inductive Bubble : Type :=
  | HumanMessageBubble (message : Message)
  | AiMessageBubble (message : Message) (followUp : bool)
      (timeline : option TimelineProps) (copyVisible : bool)
      (copyText : jsstring).

(** The scroll area: the bubbles of the messages, the bubble [Processing]
    (with the timeline in it, or without one the text
    [Processing your request...]) and the bubble [Streaming] with the text
    its copy button copies; and [hasHistory] of the input form. *)
Record View : Type := {
  bubbles : list Bubble;
  processingBubble : option (option TimelineProps);
  streamingBubble : option (jsstring * jsstring);
  hasHistory : bool;
}.

(** [message.metadata?.is_followup], as a condition. *)
Definition followUpBadge (message : Message) : bool :=
  match metadata message with
  | Some md => default false (is_followup md)
  | None => false
  end.

(** [AiMessageBubble].  [historicalActivity] is
    [historicalActivities[message.id]]; the identifiers of the messages
    start with [ai_] or [human_], so that no key is one that every object
    inherits. *)
Definition renderAiMessageBubble (message : Message)
    (historicalActivity : option (list ProcessedEvent))
    (liveActivity : list ProcessedEvent)
    (isLastMessage isOverallLoading : bool) : Bubble :=
  let activityForThisBubble :=
    if isLastMessage && isOverallLoading then Some liveActivity
    else historicalActivity in
  let isLiveActivityForThisBubble := isLastMessage && isOverallLoading in
  AiMessageBubble message (followUpBadge message)
    match activityForThisBubble with
    | Some activity =>
        if bool_decide (0 < length activity)
        then Some {| processedEvents := activity;
                     isLoading := isLiveActivityForThisBubble |}
        else None
    | None => None
    end
    (bool_decide (0 < length (mcontent message)))
    (Utils.extractFinalAnswerText (mcontent message)).

Definition renderMessage (messages : list Message) (isLoading : bool)
    (liveActivityEvents : list ProcessedEvent)
    (historicalActivities : gmap (list N) (list ProcessedEvent))
    (index : nat) (message : Message) : Bubble :=
  let isLast := bool_decide (index = length messages - 1) in
  match mtype message with
  | human => HumanMessageBubble message
  | ai =>
      renderAiMessageBubble message (historicalActivities !! id message)
        liveActivityEvents isLast isLoading
  end.

Definition ChatMessagesView (messages : list Message) (isLoading : bool)
    (liveActivityEvents : list ProcessedEvent)
    (historicalActivities : gmap (list N) (list ProcessedEvent))
    (streamingMessage : jsstring) : View :=
  {| bubbles :=
       imap (renderMessage messages isLoading liveActivityEvents
               historicalActivities) messages;
     processingBubble :=
       if isLoading
          && match last messages with
             | None => true
             | Some message =>
                 match mtype message with human => true | ai => false end
             end
       then Some (if bool_decide (0 < length liveActivityEvents)
                  then Some {| processedEvents := liveActivityEvents;
                               isLoading := true |}
                  else None)
       else None;
     streamingBubble :=
       if bool_decide (streamingMessage = []) then None
       else Some (streamingMessage,
                  Utils.extractFinalAnswerText streamingMessage);
     hasHistory := bool_decide (0 < length messages) |}.

(** The timelines of a view, from top to bottom. *)
Definition bubbleTimeline (bubble : Bubble) : option TimelineProps :=
  match bubble with
  | HumanMessageBubble _ => None
  | AiMessageBubble _ _ timeline _ _ => timeline
  end.

Definition timelines (view : View) : list TimelineProps :=
  omap bubbleTimeline (bubbles view)
  ++ match processingBubble view with
     | Some (Some props) => [props]
     | _ => []
     end.

(** *** The timelines of the bubbles *)

Section Bubbles.

Variable messages : list Message.
Variable isLoading : bool.
Variable liveActivityEvents : list ProcessedEvent.
Variable historicalActivities : gmap (list N) (list ProcessedEvent).

Local Abbreviation render :=
  (renderMessage messages isLoading liveActivityEvents historicalActivities).

Lemma renderMessage_timeline (index : nat) (message : Message)
    (props : TimelineProps) :
  bubbleTimeline (render index message) = Some props →
  processedEvents props ≠ [] ∧
  (ChatView.isLoading props = true →
     isLoading = true ∧ index = length messages - 1 ∧ mtype message = ai ∧
     processedEvents props = liveActivityEvents).
Proof.
  unfold renderMessage, renderAiMessageBubble.
  destruct (mtype message) eqn:Htype; [done|]. simpl.
  destruct (bool_decide (index = length messages - 1) && isLoading) eqn:Hlive.
  - apply andb_true_iff in Hlive as [Hlast%bool_decide_eq_true ->].
    case_bool_decide as Hlen; [|done]. intros [= <-]. simpl.
    split; [intros Hnil; rewrite Hnil in Hlen; simpl in Hlen; lia|done].
  - clear Hlive.
    destruct (historicalActivities !! id message) as [activity|]; [|done].
    case_bool_decide as Hlen; [|done]. intros [= <-]. simpl.
    split; [intros Hnil; rewrite Hnil in Hlen; simpl in Hlen; lia|done].
Qed.

Lemma renderMessage_last (message : Message) :
  mtype message = ai → isLoading = true → liveActivityEvents ≠ [] →
  bubbleTimeline (render (length messages - 1) message)
  = Some (Build_TimelineProps liveActivityEvents true).
Proof.
  intros Hai -> Hlive. unfold renderMessage, renderAiMessageBubble.
  rewrite Hai, bool_decide_eq_true_2 by done. simpl.
  rewrite bool_decide_eq_true_2; [done|].
  destruct liveActivityEvents; [done|simpl; lia].
Qed.

End Bubbles.

Lemma filter_loading_nil (shown : list TimelineProps) :
  Forall (λ props, isLoading props = false) shown →
  filter (λ props, isLoading props = true) shown = [].
Proof.
  induction 1 as [|props shown Hprops _ IH]; [done|].
  rewrite filter_cons_False by (by rewrite Hprops). done.
Qed.

Lemma bubbles_timeline (messages : list Message) (loading : bool)
    (live : list ProcessedEvent)
    (hist : gmap (list N) (list ProcessedEvent)) (l : list Message)
    (offset : nat) (props : TimelineProps) :
  props ∈ omap bubbleTimeline
            (imap (λ i, renderMessage messages loading live hist (offset + i))
                  l) →
  ∃ index message,
    l !! index = Some message ∧
    bubbleTimeline (renderMessage messages loading live hist
                      (offset + index) message) = Some props.
Proof.
  intros (bubble & Hbubble & Hprops)%list_elem_of_omap.
  apply elem_of_lookup_imap in Hbubble as (index & message & -> & Hl).
  by exists index, message.
Qed.

Lemma timelines_events (messages : list Message) (loading : bool)
    (live : list ProcessedEvent)
    (hist : gmap (list N) (list ProcessedEvent)) (streamingMessage : jsstring)
    (props : TimelineProps) :
  props ∈ timelines (ChatMessagesView messages loading live hist
                       streamingMessage) →
  processedEvents props ≠ [].
Proof.
  intros Hprops.
  unfold timelines, ChatMessagesView in Hprops. simpl in Hprops.
  apply elem_of_app in Hprops as [Hbubble|Hprocessing].
  - apply (bubbles_timeline messages loading live hist messages 0)
      in Hbubble as (index & message & _ & Htimeline).
    by apply renderMessage_timeline in Htimeline as [? _].
  - destruct (loading && _); [|by apply elem_of_nil in Hprocessing].
    case_bool_decide as Hlen; [|by apply elem_of_nil in Hprocessing].
    apply list_elem_of_singleton in Hprocessing as ->. simpl.
    intros Hnil. rewrite Hnil in Hlen. simpl in Hlen. lia.
Qed.

(** X10. Every timeline that the chat view draws, in a reply or in the
    bubble [Processing], is given a list of events that is not empty: the
    card never shows its block [Initializing analysis...] nor its block
    [No activity to display.], and lists one entry for each event. *)
Theorem ChatMessagesView_timelines (toLowerCase : jsstring → jsstring)
    (messages : list Message) (loading : bool) (live : list ProcessedEvent)
    (hist : gmap (list N) (list ProcessedEvent)) (streamingMessage : jsstring)
    (props : TimelineProps) :
  props ∈ timelines (ChatMessagesView messages loading live hist
                       streamingMessage) →
  processedEvents props ≠ [] ∧
  initializing (ActivityTimeline toLowerCase (processedEvents props)
                  (isLoading props)) = false ∧
  noActivity (ActivityTimeline toLowerCase (processedEvents props)
                (isLoading props)) = false ∧
  length (items (ActivityTimeline toLowerCase (processedEvents props)
                   (isLoading props)))
  = length (processedEvents props).
Proof.
  intros Hprops. pose proof (timelines_events _ _ _ _ _ _ Hprops) as Hne.
  assert (0 < length (processedEvents props)) as Hlen
    by (destruct (processedEvents props); [done|simpl; lia]).
  split; [done|]. unfold ActivityTimeline. simpl.
  rewrite (bool_decide_eq_false_2 (length _ = 0)) by lia.
  rewrite (bool_decide_eq_true_2 (0 < length _)) by done.
  rewrite andb_false_r, length_imap. done.
Qed.

(** X11. While a request is loading and the live timeline has events,
    exactly one timeline on the screen is drawn as live, and it shows the
    live events: it sits in the last bubble when that is a reply, and in
    the bubble [Processing] otherwise.  When nothing is loading, or the
    live timeline is empty, no timeline is drawn as live. *)
Theorem ChatMessagesView_live_timeline (messages : list Message)
    (loading : bool) (live : list ProcessedEvent)
    (hist : gmap (list N) (list ProcessedEvent))
    (streamingMessage : jsstring) :
  (loading = true → live ≠ [] →
     filter (λ props, isLoading props = true)
       (timelines (ChatMessagesView messages loading live hist
                     streamingMessage))
     = [Build_TimelineProps live true]) ∧
  (loading = false ∨ live = [] →
     Forall (λ props, isLoading props = false)
       (timelines (ChatMessagesView messages loading live hist
                     streamingMessage))).
Proof.
  unfold timelines, ChatMessagesView. simpl. split.
  - intros -> Hlive. rewrite filter_app. simpl.
    assert (bool_decide (0 < length live) = true) as ->
      by (apply bool_decide_eq_true_2; destruct live; [done|simpl; lia]).
    destruct messages as [|m init _] using rev_ind; [done|].
    rewrite imap_app, omap_app, filter_app, last_snoc. simpl.
    rewrite (filter_loading_nil (omap _ (imap _ init))).
    2:{ apply Forall_forall. intros props Hprops.
        apply (bubbles_timeline (init ++ [m]) true live hist init 0)
          in Hprops as (index & message & Hindex & Htimeline).
        apply renderMessage_timeline in Htimeline as [_ Hlast].
        destruct (isLoading props); [|done].
        destruct (Hlast eq_refl) as (_ & Hindex' & _).
        apply lookup_lt_Some in Hindex. rewrite length_app in Hindex'.
        simpl in *. lia. }
    replace (length init + 0) with (length (init ++ [m]) - 1)
      by (rewrite length_app; simpl; lia).
    destruct (mtype m) eqn:Htype.
    + unfold renderMessage. by rewrite Htype.
    + by rewrite (renderMessage_last _ _ _ _ _ Htype eq_refl Hlive).
  - intros Hcase. apply Forall_app. split.
    + apply Forall_forall. intros props Hprops.
      apply (bubbles_timeline messages loading live hist messages 0)
        in Hprops as (index & message & _ & Htimeline).
      apply renderMessage_timeline in Htimeline as [Hne Hlast].
      destruct (isLoading props); [|done].
      destruct (Hlast eq_refl) as (Hloading & _ & _ & Hlive).
      destruct Hcase as [->| ->]; [done|]. by rewrite Hlive in Hne.
    + destruct Hcase as [->| ->]; [done|].
      destruct (loading && _); [|done]. done.
Qed.

(** X25. A timeline of the chat view starts collapsed exactly when it is
    not the live one: the timelines stored with earlier replies are folded
    as soon as they are drawn, and the one of the request that is loading
    is open. *)
Theorem ChatMessagesView_collapsed (messages : list Message) (loading : bool)
    (live : list ProcessedEvent)
    (hist : gmap (list N) (list ProcessedEvent)) (streamingMessage : jsstring)
    (props : TimelineProps) :
  props ∈ timelines (ChatMessagesView messages loading live hist
                       streamingMessage) →
  collapsedAtFirst (processedEvents props) (isLoading props)
  = negb (isLoading props).
Proof.
  intros Hprops. pose proof (timelines_events _ _ _ _ _ _ Hprops) as Hne.
  unfold collapsedAtFirst, collapseEffect.
  rewrite (bool_decide_eq_false_2 (length _ = 0))
    by (destruct (processedEvents props); [done|simpl; lia]).
  by destruct (isLoading props).
Qed.

(** X10 and X11 at a conversation of one query, loading, with one live
    event. *)
Lemma ChatMessagesView_timelines_witness :
  length (items (ActivityTimeline toLowerCaseAscii
                   [ {| title := str "Query Classification"; data := [] |} ]
                   true))
  = 1.
Proof.
  apply (ChatMessagesView_timelines toLowerCaseAscii
           [ {| mtype := human; mcontent := str "Build an app";
                id := str "human_1"; metadata := None |} ]
           true [ {| title := str "Query Classification"; data := [] |} ]
           ∅ []
           (Build_TimelineProps
              [ {| title := str "Query Classification"; data := [] |} ] true)).
  apply list_elem_of_here.
Defined.

Lemma ChatMessagesView_collapsed_witness :
  collapsedAtFirst [ {| title := str "Query Classification"; data := [] |} ]
                   true
  = false.
Proof.
  apply (ChatMessagesView_collapsed
           [ {| mtype := human; mcontent := str "Build an app";
                id := str "human_1"; metadata := None |} ]
           true [ {| title := str "Query Classification"; data := [] |} ]
           ∅ []
           (Build_TimelineProps
              [ {| title := str "Query Classification"; data := [] |} ] true)).
  apply list_elem_of_here.
Defined.

Lemma ChatMessagesView_live_timeline_witness :
  filter (λ props, isLoading props = true)
    (timelines
       (ChatMessagesView
          [ {| mtype := human; mcontent := str "Build an app";
               id := str "human_1"; metadata := None |} ]
          true [ {| title := str "Query Classification"; data := [] |} ]
          ∅ []))
  = [Build_TimelineProps
       [ {| title := str "Query Classification"; data := [] |} ] true].
Proof.
  by apply ChatMessagesView_live_timeline.
Defined.

End ChatView.

(** ** [App.tsx]: messages made from a stored history *)

From stdpp Require Import pretty.

Module History.
Import Js.

(** [entry.state_snapshot] and an entry of the history that the server
    returns, with the attributes that [App.tsx] reads.  An attribute that is
    missing is [None]; those that hold text are taken to hold strings. *)
Record StateSnapshot : Type := {
  domain_expert_analysis : option jsstring;
  ux_ui_specialist_analysis : option jsstring;
  technical_architect_analysis : option jsstring;
  revenue_model_analyst_analysis : option jsstring;
  moderator_aggregation : option jsstring;
}.

Record Entry : Type := {
  user_query : option jsstring;
  final_answer : option jsstring;
  state_snapshot : option StateSnapshot;
  timestamp : option jsstring;
  _id : option jsstring;
  processing_time : option nat;
  query_type : option jsstring;
  is_followup : option bool;
}.

(** A value that is a string or [undefined], as a condition; [a || b]
    between two such values, and between such a value and a string. *)
Definition truthy (v : option jsstring) : bool :=
  match v with
  | Some (_ :: _) => true
  | _ => false
  end.

Definition or_else (a b : option jsstring) : option jsstring :=
  if truthy a then a else b.

Definition or_string (a : option jsstring) (b : jsstring) : jsstring :=
  match a with
  | Some (c :: s) => c :: s
  | _ => b
  end.

(** [`${index}`] for an index of an array: its decimal digits. *)
Definition decimal (index : nat) : jsstring := str (pretty index).

(** The four places that turn a history into messages differ in the
    attribute that stamps the identifiers, and in whether [is_followup] is
    copied: [checkAndLoadThreadContext] uses [entry.timestamp] and copies
    it; [loadInitialHistory], [loadConversationHistory] and
    [handleLoadHistory] use [entry._id] and do not. *)
Inductive Source : Type := fromContext | fromHistory.

Section Convert.

Variable source : Source.

(** [Date.now()], as text, when it is evaluated for the message of a kind
    made from the entry at an index. *)
Variable now : nat → App.MessageType → jsstring.

Definition stamp (index : nat) (kind : App.MessageType) (entry : Entry)
    : jsstring :=
  or_string match source with
            | fromContext => timestamp entry
            | fromHistory => _id entry
            end
            (now index kind).

Definition copied_is_followup (entry : Entry) : option bool :=
  match source with
  | fromContext => is_followup entry
  | fromHistory => None
  end.

(** [entry.final_answer || (entry.state_snapshot?.domain_expert_analysis ||
     ... || "Previous analysis completed")] *)
Definition aiContent (entry : Entry) : jsstring :=
  let snapshot := state_snapshot entry in
  or_string (final_answer entry)
    (or_string
       (or_else
          (or_else
             (or_else
                (or_else (snapshot ≫= domain_expert_analysis)
                         (snapshot ≫= ux_ui_specialist_analysis))
                (snapshot ≫= technical_architect_analysis))
             (snapshot ≫= revenue_model_analyst_analysis))
          (snapshot ≫= moderator_aggregation))
       (str "Previous analysis completed")).

Definition humanMessage (index : nat) (entry : Entry) (content : jsstring)
    : App.Message :=
  {| App.mtype := App.human;
     App.mcontent := content;
     App.id := str "human_" ++ stamp index App.human entry ++ str "_"
                 ++ decimal index;
     App.metadata :=
       Some {| App.processing_time := processing_time entry;
               App.query_type := query_type entry;
               App.debate_category := None;
               App.domain_analysis := None;
               App.ux_analysis := None;
               App.technical_analysis := None;
               App.revenue_analysis := None;
               App.moderator_aggregation := None;
               App.debate_resolution := None;
               App.final_answer := None;
               App.is_followup := copied_is_followup entry |} |}.

Definition aiMessage (index : nat) (entry : Entry) : App.Message :=
  let snapshot := state_snapshot entry in
  {| App.mtype := App.ai;
     App.mcontent := aiContent entry;
     App.id := str "ai_" ++ stamp index App.ai entry ++ str "_"
                 ++ decimal index;
     App.metadata :=
       Some {| App.processing_time := processing_time entry;
               App.query_type := query_type entry;
               App.debate_category := None;
               App.domain_analysis := snapshot ≫= domain_expert_analysis;
               App.ux_analysis := snapshot ≫= ux_ui_specialist_analysis;
               App.technical_analysis :=
                 snapshot ≫= technical_architect_analysis;
               App.revenue_analysis :=
                 snapshot ≫= revenue_model_analyst_analysis;
               App.moderator_aggregation := snapshot ≫= moderator_aggregation;
               App.debate_resolution := None;
               App.final_answer := None;
               App.is_followup := copied_is_followup entry |} |}.

(** What one turn of [history.forEach((entry, index) => ...)] pushes. *)
Definition entryMessages (index : nat) (entry : Entry) : list App.Message :=
  match user_query entry with
  | Some (c :: query) => [humanMessage index entry (c :: query)]
  | _ => []
  end
  ++ (if truthy (final_answer entry)
         || bool_decide (is_Some (state_snapshot entry))
      then [aiMessage index entry]
      else []).

(** [historyMessages] after the loop. *)
Definition historyMessages (history : list Entry) : list App.Message :=
  mjoin (imap entryMessages history).

(** The messages that are set, when some are: [history] is the array of
    the response, if it has one. *)
Definition loaded (history : option (list Entry))
    : option (list App.Message) :=
  match history with
  | Some (entry :: entries) =>
      let messages := historyMessages (entry :: entries) in
      if bool_decide (0 < length messages) then Some messages else None
  | _ => None
  end.

End Convert.

(** *** Decimal digits and identifiers *)

#[local] Instance MessageType_eq_dec : EqDecision App.MessageType.
Proof. solve_decision. Defined.

Definition isDigit (c : ascii) : Prop := (48 ≤ N_of_ascii c ≤ 57)%N.

Lemma pretty_N_char_digit (x : N) : isDigit (pretty_N_char x).
Proof. unfold pretty_N_char, isDigit. repeat case_match; by vm_compute. Qed.

Lemma pretty_N_go_digits (x : N) (s : string) :
  Forall isDigit (list_ascii_of_string s) →
  Forall isDigit (list_ascii_of_string (pretty_N_go x s)).
Proof.
  revert s. induction (N.lt_wf_0 x) as [x _ IH]. intros s Hs.
  destruct (decide (x = 0)%N) as [->|Hx]; [by rewrite pretty_N_go_0|].
  rewrite pretty_N_go_step by lia. apply IH.
  - apply N.div_lt; lia.
  - simpl. constructor; [apply pretty_N_char_digit|done].
Qed.

Lemma decimal_digits (index : nat) (c : N) :
  c ∈ decimal index → (48 ≤ c ≤ 57)%N.
Proof.
  unfold decimal, str. intros (a & -> & Ha)%list_elem_of_fmap.
  revert a Ha. apply Forall_forall.
  unfold pretty, pretty_nat, pretty, pretty_N. case_decide.
  - simpl. repeat constructor; by vm_compute.
  - apply pretty_N_go_digits. constructor.
Qed.

Lemma str_inj (s1 s2 : string) : str s1 = str s2 → s1 = s2.
Proof.
  unfold str. intros Heq.
  rewrite <-(string_of_list_ascii_of_string s1),
    <-(string_of_list_ascii_of_string s2). f_equal.
  revert Heq. generalize (list_ascii_of_string s1) (list_ascii_of_string s2).
  intros l1. induction l1 as [|a l1 IH]; intros [|b l2]; try done.
  simpl. intros [= Hab Hl]. f_equal; [|by apply IH].
  by rewrite <-(ascii_N_embedding a), <-(ascii_N_embedding b), Hab.
Qed.

Lemma decimal_inj (i j : nat) : decimal i = decimal j → i = j.
Proof. intros Heq%str_inj. by apply (inj pretty). Qed.

(** What follows the last occurrence of a unit is determined by the text. *)
Lemma before_separator (u : N) (x y a b : jsstring) :
  u ∉ x → u ∉ y → x ++ u :: a = y ++ u :: b → x = y.
Proof.
  revert y. induction x as [|c x IH]; intros [|d y] Hx Hy; simpl.
  - done.
  - intros [= <- _]. exfalso. apply Hy, list_elem_of_here.
  - intros [= -> _]. exfalso. apply Hx, list_elem_of_here.
  - intros [= -> Heq]. f_equal. apply IH; [| |done].
    + intros Hin. apply Hx. by apply list_elem_of_further.
    + intros Hin. apply Hy. by apply list_elem_of_further.
Qed.

Lemma after_separator (u : N) (x y a b : jsstring) :
  u ∉ x → u ∉ y → a ++ u :: x = b ++ u :: y → x = y.
Proof.
  intros Hx Hy Heq. apply (f_equal reverse) in Heq.
  rewrite !reverse_app, !reverse_cons, <-!(assoc_L (++)) in Heq. simpl in Heq.
  apply (inj reverse). eapply (before_separator u); [| |exact Heq].
  - by rewrite elem_of_reverse.
  - by rewrite elem_of_reverse.
Qed.

(** An identifier that ends with [_] and the digits of [index]. *)
Definition indexed (index : nat) (message : App.Message) : Prop :=
  ∃ a, App.id message = a ++ 95%N :: decimal index.

Lemma indexed_inj (i j : nat) (message : App.Message) :
  indexed i message → indexed j message → i = j.
Proof.
  intros [a Ha] [b Hb]. rewrite Ha in Hb.
  apply (after_separator 95%N) in Hb; [by apply decimal_inj| |].
  - intros Hin%decimal_digits. lia.
  - intros Hin%decimal_digits. lia.
Qed.

Section ConvertFacts.

Variable source : Source.
Variable now : nat → App.MessageType → jsstring.

Local Abbreviation entryMessages := (entryMessages source now).
Local Abbreviation historyMessages := (historyMessages source now).

Lemma or_string_nonempty (a : option jsstring) (b : jsstring) :
  b ≠ [] → or_string a b ≠ [].
Proof. by destruct a as [[|c s]|]. Qed.

Lemma aiContent_nonempty (entry : Entry) : aiContent entry ≠ [].
Proof. unfold aiContent. by repeat apply or_string_nonempty. Qed.

Lemma humanMessage_spec (index : nat) (entry : Entry) (content : jsstring) :
  let message := humanMessage source now index entry content in
  App.mcontent message = content ∧ App.mtype message = App.human ∧
  indexed index message ∧ App.id message !! 0 = Some 104%N.
Proof.
  split; [done|]. split; [done|]. split; [|done].
  exists (str "human_" ++ stamp source now index App.human entry).
  unfold humanMessage. cbn [App.id]. by rewrite <-(assoc_L (++)).
Qed.

Lemma aiMessage_spec (index : nat) (entry : Entry) :
  let message := aiMessage source now index entry in
  App.mcontent message ≠ [] ∧ App.mtype message = App.ai ∧
  indexed index message ∧ App.id message !! 0 = Some 97%N.
Proof.
  split; [apply aiContent_nonempty|]. split; [done|]. split; [|done].
  exists (str "ai_" ++ stamp source now index App.ai entry).
  unfold aiMessage. cbn [App.id]. by rewrite <-(assoc_L (++)).
Qed.

Lemma pushed_spec (index : nat) (h a : App.Message) (hasH hasA : bool) :
  App.mcontent h ≠ [] → App.mtype h = App.human → indexed index h →
  App.id h !! 0 = Some 104%N →
  App.mcontent a ≠ [] → App.mtype a = App.ai → indexed index a →
  App.id a !! 0 = Some 97%N →
  let pushed := (if hasH then [h] else []) ++ (if hasA then [a] else []) in
  Forall (λ message, App.mcontent message ≠ [] ∧ indexed index message)
         pushed ∧
  NoDup (App.id <$> pushed) ∧
  length pushed ≤ 2 ∧
  filter (λ message, App.mtype message = App.human) pushed
  = if hasH then [h] else [].
Proof.
  intros Hhc Hht Hhi Hh0 Hac Hat Hai Ha0.
  assert (filter (λ message, App.mtype message = App.human) [a] = [])
    as Hfa by (by rewrite filter_cons_False, filter_nil by (by rewrite Hat)).
  assert (App.id h ≠ App.id a) as Hdiff
    by (intros Heq; rewrite Heq, Ha0 in Hh0; done).
  destruct hasH, hasA; cbn zeta; simpl; rewrite ?filter_cons_True by done;
    rewrite ?Hfa, ?filter_nil; (split; [|split; [|split; [lia|done]]]).
  all: try (by repeat constructor).
  all: rewrite ?fmap_cons, ?fmap_nil.
  all: repeat (apply NoDup_cons; split);
    rewrite ?list_elem_of_singleton; try apply not_elem_of_nil;
    try apply NoDup_nil_2; done.
Qed.

Lemma entryMessages_spec (index : nat) (entry : Entry) :
  Forall (λ message, App.mcontent message ≠ [] ∧ indexed index message)
         (entryMessages index entry) ∧
  NoDup (App.id <$> entryMessages index entry) ∧
  length (entryMessages index entry) ≤ 2 ∧
  App.mcontent <$> filter (λ message, App.mtype message = App.human)
                          (entryMessages index entry)
  = match user_query entry with
    | Some (c :: query) => [c :: query]
    | _ => []
    end.
Proof.
  unfold History.entryMessages.
  destruct (aiMessage_spec index entry) as (Hac & Hat & Hai & Ha0).
  set (hasA := truthy (final_answer entry) || _).
  assert (∀ (content : jsstring) (hasH : bool), content ≠ [] →
            let pushed :=
              (if hasH
               then [humanMessage source now index entry content] else [])
              ++ (if hasA then [aiMessage source now index entry] else []) in
            Forall (λ message, App.mcontent message ≠ [] ∧
                               indexed index message) pushed ∧
            NoDup (App.id <$> pushed) ∧
            length pushed ≤ 2 ∧
            filter (λ message, App.mtype message = App.human) pushed
            = if hasH
              then [humanMessage source now index entry content] else [])
    as Hpushed.
  { intros content hasH Hcontent.
    destruct (humanMessage_spec index entry content)
      as (Hhc & Hht & Hhi & Hh0).
    apply pushed_spec; try done. }
  destruct (user_query entry) as [[|c query]|] eqn:Hquery.
  - destruct (Hpushed [LF] false) as (H1 & H2 & H3 & H4); [done|].
    split; [done|]. split; [done|]. split; [done|]. by rewrite H4.
  - destruct (Hpushed (c :: query) true) as (H1 & H2 & H3 & H4); [done|].
    split; [done|]. split; [done|]. split; [done|]. by rewrite H4.
  - destruct (Hpushed [LF] false) as (H1 & H2 & H3 & H4); [done|].
    split; [done|]. split; [done|]. split; [done|]. by rewrite H4.
Qed.

Lemma historyMessages_from (history : list Entry) (offset : nat) :
  let messages :=
    mjoin (imap (λ index, entryMessages (offset + index)) history) in
  Forall (λ message, App.mcontent message ≠ [] ∧
                     ∃ index, offset ≤ index ∧ indexed index message)
         messages ∧
  NoDup (App.id <$> messages) ∧
  length messages ≤ 2 * length history ∧
  App.mcontent <$> filter (λ message, App.mtype message = App.human) messages
  = omap (λ entry, match user_query entry with
                   | Some (c :: query) => Some (c :: query)
                   | _ => None
                   end) history.
Proof.
  revert offset. induction history as [|entry history IH]; intros offset.
  { simpl. split; [constructor|]. split; [constructor|]. split; [lia|done]. }
  cbn zeta. rewrite imap_cons. simpl mjoin.
  rewrite Nat.add_0_r.
  rewrite (imap_ext _ (λ index, entryMessages (S offset + index)))
    by (intros i x _; simpl; by rewrite Nat.add_succ_r).
  destruct (IH (S offset)) as (Hall & Hnodup & Hlen & Hhumans).
  destruct (entryMessages_spec offset entry)
    as (Hall1 & Hnodup1 & Hlen1 & Hhumans1).
  split; [|split; [|split]].
  - apply Forall_app. split.
    + eapply Forall_impl; [exact Hall1|]. intros message [Hne Hidx].
      split; [done|]. by exists offset.
    + eapply Forall_impl; [exact Hall|].
      intros message (Hne & index & Hle & Hidx).
      split; [done|]. exists index. split; [lia|done].
  - rewrite fmap_app. apply NoDup_app. split; [done|]. split; [|done].
    intros ident (m1 & -> & Hm1)%list_elem_of_fmap
                 (m2 & Hid & Hm2)%list_elem_of_fmap.
    rewrite Forall_forall in Hall1. rewrite Forall_forall in Hall.
    destruct (Hall1 _ Hm1) as [_ [a Ha]].
    destruct (Hall _ Hm2) as (_ & index & Hle & [b Hb]).
    rewrite Hid, Hb in Ha.
    apply (after_separator 95%N) in Ha.
    + apply decimal_inj in Ha. lia.
    + intros Hin%decimal_digits. lia.
    + intros Hin%decimal_digits. lia.
  - rewrite length_app.
    change (length (entry :: history)) with (S (length history)). lia.
  - rewrite filter_app, fmap_app, Hhumans1, Hhumans. simpl.
    by destruct (user_query entry) as [[|c query]|].
Qed.

(** X12. Whatever the stored history holds, no message made from it has
    an empty text (a reply without any stored text reads
    [Previous analysis completed]), at most two messages are made of each
    entry, and the queries shown are exactly the stored queries that are
    not empty, verbatim and in the order of the history. *)
Theorem historyMessages_contents (history : list Entry) :
  Forall (λ message, App.mcontent message ≠ []) (historyMessages history) ∧
  length (historyMessages history) ≤ 2 * length history ∧
  App.mcontent <$> filter (λ message, App.mtype message = App.human)
                          (historyMessages history)
  = omap (λ entry, match user_query entry with
                   | Some (c :: query) => Some (c :: query)
                   | _ => None
                   end) history.
Proof.
  destruct (historyMessages_from history 0) as (Hall & _ & Hlen & Hhumans).
  split; [|by split].
  eapply Forall_impl; [exact Hall|]. by intros message [Hne _].
Qed.

(** X13. The messages made from a history have identifiers that differ
    from one another, whatever the stamps of the entries are (equal, or
    missing, or holding underscores and digits of their own): the kind of
    the message and the index of the entry tell them apart. *)
Theorem historyMessages_ids (history : list Entry) :
  NoDup (App.id <$> historyMessages history).
Proof. by destruct (historyMessages_from history 0) as (_ & Hnodup & _). Qed.

End ConvertFacts.

End History.

(** ** [App.tsx]: the other handlers, and what is drawn *)

Module Handlers.
Import Js StreamReader App.

(** [handleCancel] *)
Definition handleCancel (st : AppState) : AppState :=
  {| messages := messages st;
     isLoading := false;
     processedEventsTimeline := [];
     historicalActivities := historicalActivities st;
     error := None;
     currentStreamingMessage := [];
     streamingMetadata := noMetadata;
     currentThreadId := currentThreadId st;
     hasLoadedContext := hasLoadedContext st;
     urlThreadId := urlThreadId st |}.

(** [handleNewAnalysis]; the last three lines of it remove [thread_id] from
    the address of the page. *)
Definition handleNewAnalysis (st : AppState) : AppState :=
  {| messages := [];
     isLoading := false;
     processedEventsTimeline := [];
     historicalActivities := ∅;
     error := None;
     currentStreamingMessage := [];
     streamingMetadata := noMetadata;
     currentThreadId := None;
     hasLoadedContext := false;
     urlThreadId := None |}.

(** What a [GET] or [POST] of the loaders comes back with: a response
    that is [ok], with its JSON; a response that is not; or an exception
    of [fetch] or of [response.json()]. *)
Inductive Fetched (A : Type) : Type :=
  | fetched (data : A)
  | refused
  | thrown.
Arguments fetched {A} data.
Arguments refused {A}.
Arguments thrown {A}.

(** [contextData] of [/api/context/{threadId}] and of
    [/api/thread-context/{threadId}]. *)
Record ContextData : Type := {
  has_context : bool;
  history : option (list History.Entry);
}.

(** [setMessages(historyMessages); setHasLoadedContext(true)] *)
Definition setLoaded (historyMessages : list Message) (st : AppState)
    : AppState :=
  {| messages := historyMessages;
     isLoading := isLoading st;
     processedEventsTimeline := processedEventsTimeline st;
     historicalActivities := historicalActivities st;
     error := error st;
     currentStreamingMessage := currentStreamingMessage st;
     streamingMetadata := streamingMetadata st;
     currentThreadId := currentThreadId st;
     hasLoadedContext := true;
     urlThreadId := urlThreadId st |}.

(** [setCurrentThreadId(threadId)] *)
Definition setCurrentThreadId (threadId : option jsstring) (st : AppState)
    : AppState :=
  {| messages := messages st;
     isLoading := isLoading st;
     processedEventsTimeline := processedEventsTimeline st;
     historicalActivities := historicalActivities st;
     error := error st;
     currentStreamingMessage := currentStreamingMessage st;
     streamingMetadata := streamingMetadata st;
     currentThreadId := threadId;
     hasLoadedContext := hasLoadedContext st;
     urlThreadId := urlThreadId st |}.

Section Loaders.

(** [Date.now()], as text, where the identifiers of the messages need
    it. *)
Variable now : nat → MessageType → jsstring.

(** The messages that [checkAndLoadThreadContext] sets, when it sets
    some and returns [true]. *)
Definition contextMessages (response : Fetched ContextData)
    : option (list Message) :=
  match response with
  | fetched contextData =>
      if has_context contextData
      then History.loaded History.fromContext now (history contextData)
      else None
  | _ => None
  end.

Definition checkAndLoadThreadContext (response : Fetched ContextData)
    (st : AppState) : AppState * bool :=
  match contextMessages response with
  | Some historyMessages => (setLoaded historyMessages st, true)
  | None => (st, false)
  end.

(** [loadConversationHistory(threadId, forceLoad)] *)
Definition loadConversationHistory (forceLoad : bool)
    (response : Fetched ContextData) (st : AppState) : AppState :=
  match response with
  | fetched contextData =>
      if forceLoad then
        match History.loaded History.fromHistory now (history contextData) with
        | Some historyMessages => setLoaded historyMessages st
        | None => st
        end
      else st
  | _ => st
  end.

(** [handleLoadHistory], and [loadInitialHistory] of the first effect:
    the response is the array of [/api/conversation-history/default]. *)
Definition handleLoadHistory (response : Fetched (option (list History.Entry)))
    (st : AppState) : AppState :=
  match response with
  | fetched history =>
      match History.loaded History.fromHistory now history with
      | Some historyMessages => setLoaded historyMessages st
      | None => st
      end
  | _ => st
  end.

(** The three effects that load a history: the one that runs while there
    is neither message nor thread nor loaded context, the one that reads
    [thread_id] from the address when the page starts, and the one that
    runs when a thread is set and there is no message yet. *)
Definition initialHistoryEffect
    (response : Fetched (option (list History.Entry))) (st : AppState)
    : AppState :=
  if bool_decide (length (messages st) = 0)
     && negb (History.truthy (currentThreadId st))
     && negb (hasLoadedContext st)
  then handleLoadHistory response st
  else st.

Definition urlThreadEffect (response : Fetched ContextData) (st : AppState)
    : AppState :=
  if History.truthy (urlThreadId st)
  then (checkAndLoadThreadContext response
          (setCurrentThreadId (urlThreadId st) st)).1
  else st.

Definition threadEffect (response : Fetched ContextData) (st : AppState)
    : AppState :=
  if History.truthy (currentThreadId st)
     && bool_decide (length (messages st) = 0)
     && negb (hasLoadedContext st)
  then loadConversationHistory true response st
  else st.

End Loaders.

(** What [App] returns: the welcome screen while there is no message, the
    screen [Error Occurred] when [error] is set, the chat otherwise. *)
Inductive Screen : Type :=
  | WelcomeScreen
  | ErrorOccurred (error : jsstring)
  | Chat (view : ChatView.View).

Definition render (st : AppState) : Screen :=
  if bool_decide (length (messages st) = 0) then WelcomeScreen
  else match error st with
       | Some (c :: e) => ErrorOccurred (c :: e)
       | _ =>
           Chat (ChatView.ChatMessagesView (messages st) (isLoading st)
                   (processedEventsTimeline st) (historicalActivities st)
                   (currentStreamingMessage st))
       end.

(** *** What a stream event changes *)

(** The reply that the case [complete] appends has the text that the
    callback sees. *)
Definition replyText (seen : AppState) : jsstring :=
  if bool_decide (currentStreamingMessage seen = [])
  then str "Analysis completed"
  else currentStreamingMessage seen.

Definition isComplete (event : StreamEvent) : bool :=
  bool_decide (type event = str "complete").

Lemma handleStreamEvent_complete (seen : AppState) (suffix : jsstring)
    (st : AppState) (event : StreamEvent) :
  type event = str "complete" →
  handleStreamEvent seen suffix st event = onComplete seen suffix st.
Proof. intros Htype. unfold handleStreamEvent. by rewrite Htype. Qed.

Lemma handleStreamEvent_messages (seen : AppState) (suffix : jsstring)
    (st : AppState) (event : StreamEvent) :
  messages (handleStreamEvent seen suffix st event)
  = messages st ++ (if isComplete event then [aiMessage seen suffix] else []).
Proof.
  unfold isComplete. case_bool_decide as Htype.
  { by rewrite handleStreamEvent_complete. }
  unfold handleStreamEvent.
  repeat case_bool_decide; try done; simpl; by rewrite (right_id_L [] (++)).
Qed.

Lemma handleStreamEvent_thread (seen : AppState) (suffix : jsstring)
    (st : AppState) (event : StreamEvent) :
  currentThreadId (handleStreamEvent seen suffix st event)
  = currentThreadId st.
Proof. unfold handleStreamEvent. by repeat case_bool_decide. Qed.

Lemma foldl_handleStreamEvent_messages (seen : AppState) (suffix : jsstring)
    (events : list StreamEvent) (st : AppState) :
  messages (foldl (handleStreamEvent seen suffix) st events)
  = messages st
    ++ replicate (length (filter (λ event, isComplete event = true) events))
                 (aiMessage seen suffix).
Proof.
  revert st. induction events as [|event events IH]; intros st; simpl.
  { by rewrite (right_id_L [] (++)). }
  rewrite IH, handleStreamEvent_messages.
  destruct (isComplete event) eqn:Hc.
  - rewrite filter_cons_True by done. by rewrite <-(assoc_L (++)).
  - rewrite filter_cons_False by (by rewrite Hc).
    by rewrite (right_id_L [] (++)).
Qed.

Lemma foldl_handleStreamEvent_thread (seen : AppState) (suffix : jsstring)
    (events : list StreamEvent) (st : AppState) :
  currentThreadId (foldl (handleStreamEvent seen suffix) st events)
  = currentThreadId st.
Proof.
  revert st. induction events as [|event events IH]; intros st; [done|].
  simpl. by rewrite IH, handleStreamEvent_thread.
Qed.

Lemma handleStreamEvent_error (seen : AppState) (suffix : jsstring)
    (st : AppState) (event : StreamEvent) :
  error (handleStreamEvent seen suffix st event)
  = if bool_decide (type event = str "error") then Some (content event)
    else error st.
Proof.
  case_bool_decide as Htype.
  { unfold handleStreamEvent. by rewrite Htype. }
  unfold handleStreamEvent. by repeat case_bool_decide.
Qed.

Lemma foldl_handleStreamEvent_error (seen : AppState) (suffix : jsstring)
    (events : list StreamEvent) (st : AppState) :
  error (foldl (handleStreamEvent seen suffix) st events)
  = match last (content <$>
                  filter (λ event,
                            bool_decide (type event = str "error") = true)
                         events) with
    | Some text => Some text
    | None => error st
    end.
Proof.
  revert st. induction events as [|event events IH] using rev_ind;
    intros st; [done|].
  rewrite foldl_app, filter_app, fmap_app. simpl.
  rewrite handleStreamEvent_error, IH.
  case_bool_decide as Htype.
  - rewrite filter_cons_True, filter_nil by (by rewrite bool_decide_eq_true_2).
    simpl. by rewrite last_snoc.
  - rewrite filter_cons_False, filter_nil
      by (by rewrite bool_decide_eq_false_2).
    simpl. by rewrite (right_id_L [] (++)).
Qed.

Lemma handleStreamEvent_activities (seen : AppState) (suffix : jsstring)
    (st : AppState) (event : StreamEvent) :
  historicalActivities (handleStreamEvent seen suffix st event)
  = if isComplete event
    then <[id (aiMessage seen suffix) := processedEventsTimeline seen]>
           (historicalActivities st)
    else historicalActivities st.
Proof.
  unfold isComplete. case_bool_decide as Htype.
  { by rewrite handleStreamEvent_complete. }
  unfold handleStreamEvent. by repeat case_bool_decide.
Qed.

Lemma foldl_handleStreamEvent_activities (seen : AppState)
    (suffix : jsstring) (events : list StreamEvent) (st : AppState) :
  historicalActivities (foldl (handleStreamEvent seen suffix) st events)
  = if bool_decide
         (0 < length (filter (λ event, isComplete event = true) events))
    then <[id (aiMessage seen suffix) := processedEventsTimeline seen]>
           (historicalActivities st)
    else historicalActivities st.
Proof.
  revert st. induction events as [|event events IH]; intros st; [done|].
  simpl. rewrite IH, handleStreamEvent_activities.
  destruct (isComplete event) eqn:Hc.
  - rewrite filter_cons_True by done.
    rewrite (bool_decide_eq_true_2 (0 < length (_ :: _))) by (simpl; lia).
    case_bool_decide; [|done]. apply insert_insert_eq.
  - by rewrite filter_cons_False by (by rewrite Hc).
Qed.

(** *** What a submission leaves *)

Section Submission.

Variable TextDecoder : Type.
Variable newTextDecoder : TextDecoder.
Variable decode : TextDecoder → list byte → TextDecoder * jsstring.
Variable JSON_parse : jsstring → option StreamEvent.
Variables threadStamp humanStamp aiStamp : jsstring.
Variable threadContext : jsstring → option (list Message).
Variable respond : Request → Response.

Local Abbreviation submit :=
  (handleSubmit TextDecoder newTextDecoder decode JSON_parse threadStamp
     humanStamp aiStamp threadContext respond).

(** The thread of a submission, whether it looks for stored context, the
    messages it starts from, the message of the user and the number of
    [complete] events in the response. *)
Definition threadOf (st : AppState) : jsstring :=
  default (str "frontend_thread_" ++ threadStamp) (currentThreadId st).

Definition checksContext (st : AppState) : bool :=
  bool_decide (length (messages st) = 0) && negb (hasLoadedContext st).

Definition startingMessages (st : AppState) : list Message :=
  default (messages st)
          (if checksContext st then threadContext (threadOf st) else None).

Definition userMessage (submittedInputValue : jsstring) : Message :=
  {| mtype := human; mcontent := submittedInputValue;
     id := str "human_" ++ humanStamp; metadata := None |}.

Definition completions (response : Response) : nat :=
  match response with
  | Body chunks =>
      length (filter (λ event, isComplete event = true)
                (dispatched _ (readLoop _ newTextDecoder decode JSON_parse
                                 chunks)))
  | _ => 0
  end.

Lemma handleSubmit_blank (seen st : AppState) (input effort : jsstring) :
  trim input = [] →
  submit seen st input effort = {| state := st; requests := []; timers := [] |}.
Proof. intros Hblank. unfold handleSubmit. by rewrite bool_decide_eq_true_2. Qed.

Lemma handleSubmit_spec (seen st : AppState) (input effort : jsstring) :
  trim input ≠ [] →
  let out := submit seen st input effort in
  let request := PostStream input effort (threadOf st) in
  requests out
  = (if checksContext st then [GetContext (threadOf st)] else []) ++ [request] ∧
  currentThreadId (state out) = Some (threadOf st) ∧
  isLoading (state out) = false ∧
  messages (state out)
  = startingMessages st ++ userMessage input
      :: replicate (completions (respond request)) (aiMessage seen aiStamp).
Proof.
  intros Hinput. cbn zeta. unfold handleSubmit.
  rewrite bool_decide_eq_false_2 by done. cbn zeta.
  fold (threadOf st). fold (checksContext st). fold (userMessage input).
  split; [done|].
  destruct (respond (PostStream input effort (threadOf st))) as [| |chunks|];
    simpl; rewrite ?foldl_handleStreamEvent_thread,
             ?foldl_handleStreamEvent_messages; simpl;
    unfold startingMessages; rewrite <-?(assoc_L (++)); done.
Qed.

(** X14. The reply that a submission stores when [complete] arrives does
    not hold the text that the response streamed: it holds the streaming
    message of the render in which the callback was made, or
    [Analysis completed] when that was empty.  The texts of the messages
    after a submission are those it started from, the query as it was
    typed, and that text once per [complete] event. *)
Theorem handleSubmit_reply_text (seen st : AppState)
    (input effort : jsstring) (chunks : list (list byte)) :
  trim input ≠ [] →
  respond (PostStream input effort (threadOf st)) = Body chunks →
  mcontent <$> messages (state (submit seen st input effort))
  = (mcontent <$> startingMessages st)
    ++ input :: replicate (completions (Body chunks)) (replyText seen).
Proof.
  intros Hinput Hbody.
  destruct (handleSubmit_spec seen st input effort Hinput) as (_ & _ & _ & ->).
  by rewrite Hbody, fmap_app, fmap_cons, fmap_replicate.
Qed.


(** The error that a response leaves: of the request itself, or the text
    of the last [error] event of the stream. *)
Definition isError (event : StreamEvent) : bool :=
  bool_decide (type event = str "error").

Definition submissionError (response : Response) : option jsstring :=
  match response with
  | NotOk status => Some (str "HTTP error! status: " ++ status)
  | NoReader => Some (str "No response body reader available")
  | Body chunks =>
      last (content <$>
              filter (λ event, isError event = true)
                (dispatched _ (readLoop _ newTextDecoder decode JSON_parse
                                 chunks)))
  | Rejected message => Some message
  end.

Lemma handleSubmit_error (seen st : AppState) (input effort : jsstring) :
  trim input ≠ [] →
  error (state (submit seen st input effort))
  = submissionError (respond (PostStream input effort (threadOf st))).
Proof.
  intros Hinput. unfold handleSubmit.
  rewrite bool_decide_eq_false_2 by done. cbn zeta. fold (threadOf st).
  destruct (respond (PostStream input effort (threadOf st))) as [| |chunks|];
    try done.
  cbn [submissionError state setIsLoading error].
  rewrite foldl_handleStreamEvent_error. unfold isError.
  by destruct (last _).
Qed.

(** X16. What is on the screen after a submission is decided by the
    response alone.  It is the screen [Error Occurred], in place of the
    conversation, exactly when the request failed or the stream held
    [error] events and the last of them has a text: whatever else was
    streamed, before or after, is not shown.  It is the chat otherwise,
    and never the welcome screen. *)
Theorem handleSubmit_screen (seen st : AppState) (input effort : jsstring) :
  trim input ≠ [] →
  let out := submit seen st input effort in
  let failure :=
    submissionError (respond (PostStream input effort (threadOf st))) in
  (∀ text, failure = Some text → text ≠ [] →
     render (state out) = ErrorOccurred text) ∧
  (failure = None ∨ failure = Some [] → ∃ view, render (state out) = Chat view).
Proof.
  intros Hinput. cbn zeta.
  pose proof (handleSubmit_error seen st input effort Hinput) as Herror.
  destruct (handleSubmit_spec seen st input effort Hinput)
    as (_ & _ & _ & Hmessages).
  unfold render. rewrite Herror.
  rewrite bool_decide_eq_false_2
    by (rewrite Hmessages, length_app; simpl; lia).
  split.
  - intros text -> Htext. by destruct text.
  - intros [-> | ->]; by eexists.
Qed.

(** X24. The activities that are stored with a reply are those of the
    render in which the callback was made, not those that were shown while
    the reply was produced.  For a first query, made when the timeline was
    empty, they are empty, and the bubble of the reply shows no timeline
    once nothing is loading. *)
Theorem handleSubmit_stored_activities (seen st : AppState)
    (input effort : jsstring) (chunks : list (list byte)) :
  trim input ≠ [] →
  respond (PostStream input effort (threadOf st)) = Body chunks →
  0 < completions (Body chunks) →
  let out := submit seen st input effort in
  let reply := aiMessage seen aiStamp in
  historicalActivities (state out) !! id reply
  = Some (processedEventsTimeline seen) ∧
  (processedEventsTimeline seen = [] →
   ∀ live isLast,
     ChatView.bubbleTimeline
       (ChatView.renderAiMessageBubble reply
          (historicalActivities (state out) !! id reply) live isLast false)
     = None).
Proof.
  intros Hinput Hbody Hcomplete. cbn zeta.
  assert (historicalActivities (state (submit seen st input effort))
          !! id (aiMessage seen aiStamp)
          = Some (processedEventsTimeline seen)) as Hstored.
  { unfold handleSubmit. rewrite bool_decide_eq_false_2 by done. cbn zeta.
    fold (threadOf st). rewrite Hbody.
    cbn [state setIsLoading historicalActivities].
    rewrite foldl_handleStreamEvent_activities.
    rewrite bool_decide_eq_true_2 by done. apply lookup_insert_eq. }
  split; [done|]. intros Hempty live isLast. rewrite Hstored, Hempty.
  unfold ChatView.renderAiMessageBubble. by rewrite andb_false_r.
Qed.

End Submission.

(** X17. Two submissions in a row go to the same thread: the second
    posts its query with the thread identifier of the first, whether that
    was made for the first or was there before, and does not ask for the
    stored context again. *)
Theorem handleSubmit_thread_kept (TextDecoder : Type)
    (newTextDecoder : TextDecoder)
    (decode : TextDecoder → list byte → TextDecoder * jsstring)
    (JSON_parse : jsstring → option StreamEvent)
    (threadStamp1 humanStamp1 aiStamp1 : jsstring)
    (threadStamp2 humanStamp2 aiStamp2 : jsstring)
    (threadContext1 threadContext2 : jsstring → option (list Message))
    (respond1 respond2 : Request → Response)
    (seen1 seen2 st : AppState) (input1 effort1 input2 effort2 : jsstring) :
  trim input1 ≠ [] → trim input2 ≠ [] →
  let out1 :=
    handleSubmit TextDecoder newTextDecoder decode JSON_parse threadStamp1
      humanStamp1 aiStamp1 threadContext1 respond1 seen1 st input1 effort1 in
  let out2 :=
    handleSubmit TextDecoder newTextDecoder decode JSON_parse threadStamp2
      humanStamp2 aiStamp2 threadContext2 respond2 seen2 (state out1)
      input2 effort2 in
  ∃ thread,
    last (requests out1) = Some (PostStream input1 effort1 thread) ∧
    requests out2 = [PostStream input2 effort2 thread] ∧
    currentThreadId (state out2) = Some thread.
Proof.
  intros Hinput1 Hinput2. cbn zeta.
  destruct (handleSubmit_spec TextDecoder newTextDecoder decode JSON_parse
              threadStamp1 humanStamp1 aiStamp1 threadContext1 respond1
              seen1 st input1 effort1 Hinput1)
    as (Hrequests1 & Hthread1 & _ & Hmessages1).
  set (out1 := handleSubmit _ _ _ _ threadStamp1 _ _ _ _ seen1 st _ _) in *.
  destruct (handleSubmit_spec TextDecoder newTextDecoder decode JSON_parse
              threadStamp2 humanStamp2 aiStamp2 threadContext2 respond2
              seen2 (state out1) input2 effort2 Hinput2)
    as (Hrequests2 & Hthread2 & _ & _).
  exists (threadOf threadStamp1 st). split; [|split].
  - rewrite Hrequests1. apply last_snoc.
  - rewrite Hrequests2. unfold checksContext, threadOf.
    rewrite Hthread1, bool_decide_eq_false_2
      by (rewrite Hmessages1, length_app; simpl; lia).
    done.
  - rewrite Hthread2. unfold threadOf. by rewrite Hthread1.
Qed.

(** *** The states of the component *)

(** One handler or effect of [App] runs: a submission (with the stored
    context that [checkAndLoadThreadContext] finds), a stream event that
    reaches [handleStreamEvent], Cancel, New Analysis, Load History, or one
    of the three effects that load a history.  [seen] is the state of the
    render in which the callback that runs was made. *)
Inductive step : AppState → AppState → Prop :=
  | step_submit (TextDecoder : Type) (newTextDecoder : TextDecoder)
      (decode : TextDecoder → list byte → TextDecoder * jsstring)
      (JSON_parse : jsstring → option StreamEvent)
      (threadStamp humanStamp aiStamp : jsstring)
      (now : nat → MessageType → jsstring)
      (context : jsstring → Fetched ContextData)
      (respond : Request → Response)
      (seen st : AppState) (input effort : jsstring) :
      step st
        (state (handleSubmit TextDecoder newTextDecoder decode JSON_parse
                  threadStamp humanStamp aiStamp
                  (λ thread, contextMessages now (context thread))
                  respond seen st input effort))
  | step_event (seen : AppState) (suffix : jsstring) (st : AppState)
      (event : StreamEvent) :
      step st (handleStreamEvent seen suffix st event)
  | step_cancel (st : AppState) : step st (handleCancel st)
  | step_new_analysis (st : AppState) : step st (handleNewAnalysis st)
  | step_load_history (now : nat → MessageType → jsstring)
      (response : Fetched (option (list History.Entry))) (st : AppState) :
      step st (handleLoadHistory now response st)
  | step_initial_history (now : nat → MessageType → jsstring)
      (response : Fetched (option (list History.Entry))) (st : AppState) :
      step st (initialHistoryEffect now response st)
  | step_url_thread (now : nat → MessageType → jsstring)
      (response : Fetched ContextData) (st : AppState) :
      step st (urlThreadEffect now response st)
  | step_thread (now : nat → MessageType → jsstring)
      (response : Fetched ContextData) (st : AppState) :
      step st (threadEffect now response st).

Definition worded (st : AppState) : Prop :=
  Forall (λ message, mcontent message ≠ []) (messages st).

Lemma loaded_worded (source : History.Source)
    (now : nat → MessageType → jsstring)
    (history : option (list History.Entry)) (historyMessages : list Message) :
  History.loaded source now history = Some historyMessages →
  Forall (λ message, mcontent message ≠ []) historyMessages.
Proof.
  destruct history as [[|entry entries]|]; try done. simpl.
  case_bool_decide; [|done]. intros [= <-].
  destruct (History.historyMessages_from source now (entry :: entries) 0)
    as (Hall & _).
  eapply Forall_impl; [exact Hall|]. by intros message [Hne _].
Qed.

Lemma contextMessages_worded (now : nat → MessageType → jsstring)
    (response : Fetched ContextData) (historyMessages : list Message) :
  contextMessages now response = Some historyMessages →
  Forall (λ message, mcontent message ≠ []) historyMessages.
Proof.
  destruct response as [contextData| |]; try done. simpl.
  destruct (has_context contextData); [|done]. apply loaded_worded.
Qed.

Lemma replyText_worded (seen : AppState) : replyText seen ≠ [].
Proof. unfold replyText. by case_bool_decide. Qed.

Lemma step_worded (st st' : AppState) : step st st' → worded st → worded st'.
Proof.
  unfold worded.
  destruct 1 as [TextDecoder newTextDecoder decode JSON_parse threadStamp
                   humanStamp aiStamp now context respond seen st input effort
                |seen suffix st event|st|st|now response st|now response st
                |now response st|now response st]; intros Hst.
  - destruct (decide (trim input = [])) as [Hblank|Hinput].
    { by rewrite handleSubmit_blank. }
    destruct (handleSubmit_spec TextDecoder newTextDecoder decode JSON_parse
                threadStamp humanStamp aiStamp
                (λ thread, contextMessages now (context thread)) respond
                seen st input effort Hinput) as (_ & _ & _ & ->).
    apply Forall_app. split; [|apply Forall_cons; split].
    + unfold startingMessages. destruct (checksContext st); [|done].
      destruct (contextMessages now _) as [historyMessages|] eqn:Hcontext;
        [|done].
      by eapply contextMessages_worded.
    + simpl. intros ->. by apply Hinput.
    + apply Forall_replicate. apply replyText_worded.
  - rewrite handleStreamEvent_messages. apply Forall_app. split; [done|].
    destruct (isComplete event); [|done].
    apply Forall_singleton. apply replyText_worded.
  - done.
  - constructor.
  - unfold handleLoadHistory. destruct response as [history| |]; try done.
    destruct (History.loaded _ _ _) as [historyMessages|] eqn:Hloaded;
      [|done].
    by eapply loaded_worded.
  - unfold initialHistoryEffect, handleLoadHistory.
    destruct (_ && _); [|done]. destruct response as [history| |]; try done.
    destruct (History.loaded _ _ _) as [historyMessages|] eqn:Hloaded;
      [|done].
    by eapply loaded_worded.
  - unfold urlThreadEffect, checkAndLoadThreadContext.
    destruct (History.truthy _); [|done].
    destruct (contextMessages now response) as [historyMessages|]
      eqn:Hcontext; [|done].
    by eapply contextMessages_worded.
  - unfold threadEffect, loadConversationHistory.
    destruct (_ && _); [|done].
    destruct response as [contextData| |]; try done.
    destruct (History.loaded _ _ _) as [historyMessages|] eqn:Hloaded;
      [|done].
    by eapply loaded_worded.
Qed.

(** X18. However the handlers and effects of [App] follow one another
    from a state whose messages all have a text, every message keeps having
    one: a query is stored only when it is not blank, and a reply without
    text is stored as [Analysis completed] or [Previous analysis
    completed].  So the Copy button under a reply is always visible. *)
Theorem messages_always_worded (start st : AppState) :
  rtc step start st → worded start →
  worded st ∧
  ∀ loading live hist streamingMessage message followUp timeline copyVisible
    copyText,
    ChatView.AiMessageBubble message followUp timeline copyVisible copyText
      ∈ ChatView.bubbles
          (ChatView.ChatMessagesView (messages st) loading live hist
             streamingMessage) →
    copyVisible = true.
Proof.
  intros Hsteps Hstart.
  assert (worded st) as Hst.
  { induction Hsteps as [|st1 st2 st3 Hstep _ IH]; [done|].
    by eapply IH, step_worded. }
  split; [done|].
  intros loading live hist streamingMessage message followUp timeline
    copyVisible copyText Hbubble.
  apply elem_of_lookup_imap in Hbubble as (index & m & Hrender & Hm).
  unfold ChatView.renderMessage, ChatView.renderAiMessageBubble in Hrender.
  destruct (mtype m); [done|]. injection Hrender as -> _ _ -> _.
  apply bool_decide_eq_true_2.
  unfold worded in Hst. rewrite Forall_lookup in Hst.
  specialize (Hst _ _ Hm). destruct (mcontent m); [done|simpl; lia].
Qed.

(** *** A first query, answered *)

(** A parser for the examples: a text [type content] is read as the event
    of that type and content. *)
Definition parseWords (json : jsstring) : option StreamEvent :=
  match split SPACE json with
  | [] => None
  | [eventType] => Some {| type := eventType; content := [] |}
  | eventType :: text :: _ => Some {| type := eventType; content := text |}
  end.

Definition answered : Request → Response :=
  λ _, Body [list_byte_of_string "data: final_answer 42" ++ [x0a]
             ++ list_byte_of_string "data: complete" ++ [x0a]].

Definition refusedWith (status : string) : Request → Response :=
  λ _, NotOk (str status).

Definition firstQuery (respond : Request → Response) : Outcome :=
  handleSubmit unit tt decodeAscii parseWords (str "1") (str "2") (str "3")
    (λ _, None) respond initialState initialState (str "Build an app")
    (str "general").

(** X14 at a first query: the answer [42] is streamed, and the reply that
    is stored reads [Analysis completed]. *)
Lemma handleSubmit_reply_text_witness :
  mcontent <$> messages (state (firstQuery answered))
  = [str "Build an app"; str "Analysis completed"].
Proof.
  unfold firstQuery.
  rewrite (handleSubmit_reply_text unit tt decodeAscii parseWords (str "1")
             (str "2") (str "3") (λ _, None) answered initialState
             initialState (str "Build an app") (str "general")
             [list_byte_of_string "data: final_answer 42" ++ [x0a]
              ++ list_byte_of_string "data: complete" ++ [x0a]]);
    [by vm_compute|by vm_compute|reflexivity].
Defined.

(** X24 at the same first query. *)
Lemma handleSubmit_stored_activities_witness :
  historicalActivities (state (firstQuery answered)) !! str "ai_3" = Some [].
Proof.
  unfold firstQuery.
  apply (handleSubmit_stored_activities unit tt decodeAscii parseWords
           (str "1") (str "2") (str "3") (λ _, None) answered initialState
           initialState (str "Build an app") (str "general")
           [list_byte_of_string "data: final_answer 42" ++ [x0a]
            ++ list_byte_of_string "data: complete" ++ [x0a]]);
    [by vm_compute|reflexivity|by vm_compute].
Defined.


(** X16 at a request that the server refuses. *)
Lemma handleSubmit_screen_witness :
  render (state (firstQuery (refusedWith "500")))
  = ErrorOccurred (str "HTTP error! status: 500").
Proof.
  unfold firstQuery.
  apply (handleSubmit_screen unit tt decodeAscii parseWords (str "1")
           (str "2") (str "3") (λ _, None) (refusedWith "500") initialState
           initialState (str "Build an app") (str "general"));
    [by vm_compute|reflexivity|by vm_compute].
Defined.

(** X17 at a first query and a follow-up. *)
Lemma handleSubmit_thread_kept_witness :
  ∃ thread,
    last (requests (firstQuery answered))
    = Some (PostStream (str "Build an app") (str "general") thread) ∧
    requests
      (handleSubmit unit tt decodeAscii parseWords (str "7") (str "8")
         (str "9") (λ _, None) answered initialState
         (state (firstQuery answered)) (str "And the price?")
         (str "revenue"))
    = [PostStream (str "And the price?") (str "revenue") thread] ∧
    currentThreadId
      (state
         (handleSubmit unit tt decodeAscii parseWords (str "7") (str "8")
            (str "9") (λ _, None) answered initialState
            (state (firstQuery answered)) (str "And the price?")
            (str "revenue")))
    = Some thread.
Proof.
  unfold firstQuery.
  apply (handleSubmit_thread_kept unit tt decodeAscii parseWords
           (str "1") (str "2") (str "3") (str "7") (str "8") (str "9")
           (λ _, None) (λ _, None) answered answered initialState
           initialState initialState (str "Build an app") (str "general")
           (str "And the price?") (str "revenue")); by vm_compute.
Defined.

(** X18 at the state that a [complete] event leaves when nothing was
    streamed. *)
Lemma messages_always_worded_witness :
  worded (handleStreamEvent initialState (str "3") initialState
            {| type := str "complete"; content := [] |}).
Proof.
  apply (messages_always_worded initialState).
  - apply rtc_once. apply step_event.
  - constructor.
Defined.

(** *** Cancel, while a response is being read *)

Lemma foldl_handleStreamEvent_sections (seen : AppState) (suffix : jsstring)
    (events : list StreamEvent) (st : AppState) :
  Forall (λ event, is_Some (sectionHeading (type event))) events →
  currentStreamingMessage (foldl (handleStreamEvent seen suffix) st events)
  = currentStreamingMessage st ++ (events ≫= sectionOf).
Proof.
  intros Hall. revert st.
  induction Hall as [|event events Hevent _ IH]; intros st; simpl.
  - by rewrite (right_id_L [] (++)).
  - by rewrite IH, handleStreamEvent_section, (assoc_L (++)).
Qed.

(** X23. Cancel does not stop the response that is being read: it empties
    what has been streamed and keeps the messages, and the events that
    arrive after it are applied as before.  A [complete] among them still
    stores a reply, and the analyses among them build a streaming message
    that starts anew. *)
Theorem handleCancel_keeps_reading (seen : AppState) (suffix : jsstring)
    (st : AppState) (before after : list StreamEvent) :
  let cancelled :=
    handleCancel (foldl (handleStreamEvent seen suffix) st before) in
  let final := foldl (handleStreamEvent seen suffix) cancelled after in
  messages final
  = messages st
    ++ replicate (length (filter (λ event, isComplete event = true)
                            (before ++ after)))
                 (aiMessage seen suffix) ∧
  (Forall (λ event, is_Some (sectionHeading (type event))) after →
     currentStreamingMessage final = after ≫= sectionOf).
Proof.
  cbn zeta. split.
  - rewrite foldl_handleStreamEvent_messages. cbn [handleCancel messages].
    rewrite foldl_handleStreamEvent_messages, filter_app, length_app,
      replicate_add. by rewrite (assoc_L (++)).
  - intros Hafter. by rewrite foldl_handleStreamEvent_sections.
Qed.

(** X23 at a response of two analyses and the end, cancelled after the
    first analysis. *)
Lemma handleCancel_keeps_reading_witness :
  currentStreamingMessage
    (foldl (handleStreamEvent initialState (str "3"))
       (handleCancel
          (foldl (handleStreamEvent initialState (str "3")) initialState
             [ {| type := str "domain_expert"; content := str "D" |} ]))
       [ {| type := str "revenue_model_analyst"; content := str "R" |} ])
  = [LF; LF] ++ str "**Revenue Model Analyst Analysis:**" ++ [LF] ++ str "R".
Proof.
  destruct (handleCancel_keeps_reading initialState (str "3") initialState
              [ {| type := str "domain_expert"; content := str "D" |} ]
              [ {| type := str "revenue_model_analyst"; content := str "R" |} ])
    as [_ Hsections].
  rewrite Hsections; [reflexivity|].
  repeat constructor. by eexists.
Defined.

End Handlers.

(** ** [InputForm.tsx]: the keyboard shortcut *)

Module Form.
Import Js StreamReader App.

(** The attributes of a [React.KeyboardEvent] that are read. *)
Record KeyboardEvent : Type := {
  key : jsstring;
  ctrlKey : bool;
  metaKey : bool;
}.

(** [handleKeyDown]: the state of the form, the call of [onSubmit] when one
    is made, and whether [e.preventDefault()] is called. *)
Definition handleKeyDown (e : KeyboardEvent) (st : InputFormState)
    : InputFormState * option (jsstring * jsstring) * bool :=
  if bool_decide (key e = str "Enter") && (ctrlKey e || metaKey e)
  then (handleInternalSubmit st, true)
  else (st, None, false).

(** [const isSubmitDisabled = !internalInputValue.trim() || isLoading] *)
Definition isSubmitDisabled (st : InputFormState) (isLoading : bool) : bool :=
  bool_decide (trim (internalInputValue st) = []) || isLoading.

(** [getQueryTypeColor] and [getQueryTypeIcon]; the icons are written as
    their UTF-16 code units (an office building, a palette, a gear with its
    variation selector, a money bag, and a robot for the default). *)
Definition getQueryTypeColor (type : jsstring) : jsstring :=
  if bool_decide (type = str "domain")
  then str "bg-blue-900/20 text-blue-400 border-blue-500/30"
  else if bool_decide (type = str "ux_ui")
  then str "bg-green-900/20 text-green-400 border-green-500/30"
  else if bool_decide (type = str "technical")
  then str "bg-purple-900/20 text-purple-400 border-purple-500/30"
  else if bool_decide (type = str "revenue")
  then str "bg-orange-900/20 text-orange-400 border-orange-500/30"
  else str "bg-gray-900/20 text-gray-400 border-gray-500/30".

Definition getQueryTypeIcon (type : jsstring) : jsstring :=
  if bool_decide (type = str "domain") then [55356; 57314]%N
  else if bool_decide (type = str "ux_ui") then [55356; 57256]%N
  else if bool_decide (type = str "technical") then [9881; 65039]%N
  else if bool_decide (type = str "revenue") then [55357; 56496]%N
  else [55358; 56598]%N.

(** The text of the badge of the current focus: each of the five lines
    [{queryType === "general" && "General"}] shows its word or nothing. *)
Definition focusLabel (queryType : jsstring) : jsstring :=
  (if bool_decide (queryType = str "general") then str "General" else [])
  ++ (if bool_decide (queryType = str "domain") then str "Domain" else [])
  ++ (if bool_decide (queryType = str "ux_ui") then str "UX/UI" else [])
  ++ (if bool_decide (queryType = str "technical") then str "Technical"
      else [])
  ++ (if bool_decide (queryType = str "revenue") then str "Revenue" else []).

(** X26. The badge of the focus is consistent: two focus types have the
    same colour exactly when they have the same icon; the colour and the
    icon are the defaults exactly for the types other than [domain],
    [ux_ui], [technical] and [revenue]; and a type with a colour of its own
    always has a word on its badge. *)
Theorem getQueryType_consistent (type1 type2 : jsstring) :
  (getQueryTypeColor type1 = getQueryTypeColor type2 ↔
   getQueryTypeIcon type1 = getQueryTypeIcon type2) ∧
  (getQueryTypeColor type1 = str "bg-gray-900/20 text-gray-400 border-gray-500/30"
   ↔ type1 ∉ [str "domain"; str "ux_ui"; str "technical"; str "revenue"]) ∧
  (getQueryTypeIcon type1 = [55358; 56598]%N
   ↔ type1 ∉ [str "domain"; str "ux_ui"; str "technical"; str "revenue"]) ∧
  (getQueryTypeColor type1 ≠ str "bg-gray-900/20 text-gray-400 border-gray-500/30"
   → focusLabel type1 ≠ []).
Proof.
  unfold getQueryTypeColor, getQueryTypeIcon, focusLabel.
  rewrite !not_elem_of_cons.
  repeat case_bool_decide; subst;
    repeat split; intros; try done; try tauto;
    try apply not_elem_of_nil;
    try match goal with H : _ = _ |- _ => by vm_compute in H end.
Qed.

(** X26 at the focus [technical]. *)
Lemma getQueryType_consistent_witness :
  focusLabel (str "technical") ≠ [] ∧
  getQueryTypeIcon (str "technical") = [9881; 65039]%N.
Proof.
  split; [|reflexivity].
  apply (getQueryType_consistent (str "technical") (str "general")).
  by vm_compute.
Defined.

Section Shortcut.

Variable TextDecoder : Type.
Variable newTextDecoder : TextDecoder.
Variable decode : TextDecoder → list byte → TextDecoder * jsstring.
Variable JSON_parse : jsstring → option StreamEvent.
Variables threadStamp humanStamp aiStamp : jsstring.
Variable threadContext : jsstring → option (list Message).
Variable respond : Request → Response.

(** [onSubmit] of the form is [handleSubmit] of [App]: the requests that
    follow a key, if the key makes the form submit. *)
Definition requestsOnKey (e : KeyboardEvent) (form : InputFormState)
    (seen st : AppState) : list Request :=
  match (handleKeyDown e form).1.2 with
  | Some (inputValue, effort) =>
      requests (handleSubmit TextDecoder newTextDecoder decode JSON_parse
                  threadStamp humanStamp aiStamp threadContext respond
                  seen st inputValue effort)
  | None => []
  end.

(** X19. A key makes the form submit exactly when it is Enter with Ctrl
    or Cmd held and the text is not blank.  The query is then posted as it
    was typed, not trimmed, with the focus that is selected as its
    [query_type], and the field is emptied; and this happens even while a
    request is loading, when the button of the form is disabled.  Any
    other key posts nothing and leaves the form as it is. *)
Theorem handleKeyDown_posts (e : KeyboardEvent) (form : InputFormState)
    (seen st : AppState) :
  let submits :=
    key e = str "Enter" ∧ (ctrlKey e = true ∨ metaKey e = true) ∧
    trim (internalInputValue form) ≠ [] in
  (submits →
     internalInputValue (handleKeyDown e form).1.1 = [] ∧
     queryType (handleKeyDown e form).1.1 = queryType form ∧
     last (requestsOnKey e form seen st)
     = Some (PostStream (internalInputValue form) (queryType form)
               (Handlers.threadOf threadStamp st)) ∧
     isSubmitDisabled form true = true) ∧
  (¬ submits →
     (handleKeyDown e form).1.1 = form ∧ requestsOnKey e form seen st = []).
Proof.
  cbn zeta. unfold requestsOnKey, handleKeyDown, handleInternalSubmit. split.
  - intros (Hkey & Hmod & Htext).
    rewrite (bool_decide_eq_true_2 _ Hkey).
    replace (ctrlKey e || metaKey e) with true
      by (by destruct Hmod as [-> | ->]; rewrite ?orb_true_r).
    simpl. rewrite bool_decide_eq_false_2 by done. simpl.
    split; [done|]. split; [done|]. split.
    + destruct (Handlers.handleSubmit_spec TextDecoder newTextDecoder decode
                  JSON_parse threadStamp humanStamp aiStamp threadContext
                  respond seen st (internalInputValue form) (queryType form)
                  Htext) as (-> & _).
      apply last_snoc.
    + unfold isSubmitDisabled. apply orb_true_r.
  - intros Hnot.
    destruct (bool_decide (key e = str "Enter") && (ctrlKey e || metaKey e))
      eqn:Hshortcut; [|done].
    apply andb_true_iff in Hshortcut as [Hkey%bool_decide_eq_true Hmod].
    apply orb_true_iff in Hmod. simpl.
    case_bool_decide as Htext; [done|]. by destruct Hnot.
Qed.

End Shortcut.

(** X19 at Ctrl+Enter on a text with spaces around it, while a request is
    loading. *)
Lemma handleKeyDown_posts_witness :
  internalInputValue
    (handleKeyDown {| key := str "Enter"; ctrlKey := true; metaKey := false |}
       {| internalInputValue := str " Build an app ";
          queryType := str "technical" |}).1.1 = [] ∧
  last (requestsOnKey unit tt decodeAscii Handlers.parseWords (str "1")
          (str "2") (str "3") (λ _, None) Handlers.answered
          {| key := str "Enter"; ctrlKey := true; metaKey := false |}
          {| internalInputValue := str " Build an app ";
             queryType := str "technical" |}
          initialState (setIsLoading true initialState))
  = Some (PostStream (str " Build an app ") (str "technical")
            (str "frontend_thread_1")).
Proof.
  destruct (handleKeyDown_posts unit tt decodeAscii Handlers.parseWords
              (str "1") (str "2") (str "3") (λ _, None) Handlers.answered
              {| key := str "Enter"; ctrlKey := true; metaKey := false |}
              {| internalInputValue := str " Build an app ";
                 queryType := str "technical" |}
              initialState (setIsLoading true initialState))
    as [Hsubmits _].
  destruct Hsubmits as (Hfield & _ & Hposted & _).
  { split; [reflexivity|]. split; [by left|by vm_compute]. }
  by split.
Defined.

End Form.

(** ** [utils.ts]: what the extracted text is made of *)

Module FinalAnswer.
Import Js Utils.

Lemma trimEnd_spec (s : jsstring) :
  ∃ ws, s = trimEnd s ++ ws ∧ forallb isWhiteSpace ws = true ∧
        ∀ t c, trimEnd s = t ++ [c] → isWhiteSpace c = false.
Proof.
  unfold trimEnd.
  destruct (trimStart_spec (reverse s)) as (ws & Hs & Hws & Hhd).
  exists (reverse ws). split; [|split].
  - rewrite <-reverse_app, <-Hs. by rewrite reverse_involutive.
  - rewrite forallb_forall in Hws. apply forallb_forall. intros c Hc.
    apply Hws. apply list_elem_of_In. apply list_elem_of_In in Hc.
    by rewrite elem_of_reverse in Hc.
  - intros t c Heq. apply (f_equal reverse) in Heq.
    rewrite reverse_involutive, reverse_app in Heq. simpl in Heq.
    by apply (Hhd c (reverse t)).
Qed.

Lemma trim_spec (s : jsstring) :
  ∃ before after,
    s = before ++ trim s ++ after ∧
    (∀ c t, trim s = c :: t → isWhiteSpace c = false) ∧
    (∀ t c, trim s = t ++ [c] → isWhiteSpace c = false).
Proof.
  unfold trim.
  destruct (trimStart_spec s) as (before & Hs & _ & Hhd).
  destruct (trimEnd_spec (trimStart s)) as (after & Ht & _ & Hlast).
  exists before, after. split; [by rewrite <-Ht|]. split; [|done].
  intros c t Heq. rewrite Heq in Ht. by apply (Hhd c (t ++ after)).
Qed.

Lemma trimEnd_fixed (s : jsstring) :
  (∀ t c, s = t ++ [c] → isWhiteSpace c = false) → trimEnd s = s.
Proof.
  intros Hlast. unfold trimEnd.
  assert (trimStart (reverse s) = reverse s) as ->;
    [|apply reverse_involutive].
  apply (trimStart_app [] (reverse s)); [done|].
  intros c t Heq. apply (Hlast (reverse t) c).
  apply (inj reverse). by rewrite reverse_app, reverse_involutive.
Qed.

Lemma trim_idemp (s : jsstring) : trim (trim s) = trim s.
Proof.
  destruct (trim_spec s) as (_ & _ & _ & Hhd & Hlast).
  unfold trim at 1.
  assert (trimStart (trim s) = trim s) as ->
    by (by apply (trimStart_app [] (trim s))).
  by apply trimEnd_fixed.
Qed.

(** X20. What the function returns is always a part of the message, in
    one piece: it never holds a text that the message does not hold.  When
    the marker [**Final Answer:**] occurs, the result has no white space at
    either end and holds no blank line followed by [**]; it is the empty
    text when white space alone follows the first marker. *)
Theorem extractFinalAnswerText_part (messageContent : jsstring) :
  (∃ before after,
     messageContent = before ++ extractFinalAnswerText messageContent ++ after) ∧
  (includes marker messageContent = true →
     trim (extractFinalAnswerText messageContent)
     = extractFinalAnswerText messageContent ∧
     includes [LF; LF; 42; 42]%N (extractFinalAnswerText messageContent)
     = false) ∧
  (∀ before ws,
     (∀ pre' r', before ++ marker ++ ws = pre' ++ marker ++ r' →
                 length before ≤ length pre') →
     forallb isWhiteSpace ws = true →
     extractFinalAnswerText (before ++ marker ++ ws) = []).
Proof.
  unfold extractFinalAnswerText. split; [|split].
  - destruct (includes marker messageContent) eqn:Hmarker.
    + destruct (finalAnswerMatch_exists _ Hmarker)
        as (cap & -> & pre & ws & rest & Heq & _).
      destruct (trim_spec cap) as (before & after & Hcap & _).
      exists (pre ++ marker ++ ws ++ before), (after ++ rest).
      rewrite Heq. rewrite Hcap at 1. by rewrite <-!(assoc_L (++)).
    + exists [], []. by rewrite (right_id_L [] (++)).
  - intros Hmarker. rewrite Hmarker.
    destruct (finalAnswerMatch_exists _ Hmarker)
      as (cap & -> & pre & ws & rest & Heq & _ & _ & _ & _ & Hmin).
    split; [apply trim_idemp|].
    apply includes_false. intros a b Hin.
    destruct (trim_spec cap) as (before & after & Hcap & _).
    rewrite Hin in Hcap.
    specialize (Hmin (length (before ++ a))).
    rewrite Hcap in Hmin at 2.
    replace ((before ++ (a ++ [LF; LF; 42; 42]%N ++ b) ++ after) ++ rest)
      with ((before ++ a) ++ [LF; LF; 42; 42]%N ++ b ++ after ++ rest)
      in Hmin by (by rewrite <-!(assoc_L (++))).
    rewrite drop_app_length in Hmin. unfold lookahead in Hmin.
    rewrite startsWith_app in Hmin. simpl in Hmin.
    assert (length (before ++ a) < length cap) as Hlt.
    { rewrite Hcap, !length_app. simpl. lia. }
    by specialize (Hmin Hlt).
  - intros before ws Hleft Hws.
    assert (FinalAnswerSegment (before ++ marker ++ ws) []) as Hsegment.
    { exists before, ws, [].
      split; [by rewrite !(right_id_L [] (++))|].
      split; [done|]. split; [done|].
      split; [by intros c t|]. split; [done|]. intros k Hk.
      simpl in Hk. lia. }
    rewrite (finalAnswerMatch_segment _ _ Hsegment).
    by rewrite (proj2 (includes_true _ _)) by (by exists before, ws).
Qed.

(** X20 at a message with an answer, and at a message that ends after the
    marker. *)
Lemma extractFinalAnswerText_part_witness :
  trim (extractFinalAnswerText (str "Done. **Final Answer:** 42 "))
  = extractFinalAnswerText (str "Done. **Final Answer:** 42 ") ∧
  extractFinalAnswerText ([] ++ marker ++ [LF]) = [].
Proof.
  destruct (extractFinalAnswerText_part (str "Done. **Final Answer:** 42 "))
    as (_ & Htrimmed & Hempty).
  split; [by apply Htrimmed|]. apply Hempty; [|reflexivity].
  intros pre' r' _. simpl. lia.
Defined.

End FinalAnswer.

(** ** [finalize_answer], as quoted: which analysis is the answer *)

Module Finalize.
Import Js.

(** A value that is a string and not empty, and one that is [None] or the
    empty string: the operands of [or]. *)
Definition truthy (a : option Graph.pystr) : Prop := ∃ c s, a = Some (c :: s).
Definition falsy (a : option Graph.pystr) : Prop := a = None ∨ a = Some [].

Lemma py_or_truthy (a b : option Graph.pystr) :
  truthy a → Graph.py_or a b = a.
Proof. by intros (c & s & ->). Qed.

Lemma py_or_falsy (a b : option Graph.pystr) :
  falsy a → Graph.py_or a b = b.
Proof. by intros [-> | ->]. Qed.

(** X21. For a follow-up the answer is the first of the analyses of the
    domain expert, the UX specialist, the technical architect and the
    revenue analyst, in that order, that is set and not empty, whatever
    the later ones hold; when none of the four is, it is what the moderator
    left, set or not.  The message that is returned holds the same text,
    and the state is marked complete. *)
Theorem finalize_answer_first_analysis {HistoryItem : Type}
    (finalizeInitial : Graph.OverallState HistoryItem → Graph.Finalized)
    (state : Graph.OverallState HistoryItem) :
  Graph.is_followup _ state = true →
  let out := Graph.finalize_answer _ finalizeInitial state in
  let analyses :=
    [Graph.domain_analysis _ state; Graph.ux_analysis _ state;
     Graph.technical_analysis _ state; Graph.revenue_analysis _ state] in
  Graph.f_messages out = [Graph.f_final_answer out] ∧
  Graph.f_is_complete out = true ∧
  (∀ before a after,
     analyses = before ++ a :: after → Forall falsy before → truthy a →
     Graph.f_final_answer out = a) ∧
  (Forall falsy analyses →
     Graph.f_final_answer out = Graph.moderator_analysis _ state).
Proof.
  intros Hfollow. cbn zeta. unfold Graph.finalize_answer. rewrite Hfollow.
  cbn [Graph.f_messages Graph.f_final_answer Graph.f_is_complete].
  split; [done|]. split; [done|]. split.
  - intros before a after Heq Hbefore Ha.
    destruct before as [|b1 [|b2 [|b3 [|b4 before]]]];
      simplify_eq/=;
      repeat match goal with
             | H : Forall _ (_ :: _) |- _ => apply Forall_cons in H as [? H]
             end;
      rewrite ?py_or_falsy by done; try by apply py_or_truthy.
    by destruct before.
  - intros (H1 & (H2 & (H3 & (H4 & _)%Forall_cons)%Forall_cons)%Forall_cons)
      %Forall_cons.
    by rewrite !py_or_falsy.
Qed.

(** A follow-up that was routed to the revenue analyst while the state
    still holds an analysis of the domain expert. *)
Definition staleState : Graph.OverallState (list N) :=
  {| Graph.user_query := Some (str "What pricing strategy should I use?");
     Graph.agent_history := Some [str "Build a food delivery app"];
     Graph.domain_analysis := Some (str "Delivery is regulated.");
     Graph.ux_analysis := None;
     Graph.technical_analysis := Some [];
     Graph.revenue_analysis := Some (str "Use tiered pricing.");
     Graph.moderator_analysis := None |}.

Definition notFinalized : Graph.OverallState (list N) → Graph.Finalized :=
  λ _, {| Graph.f_messages := []; Graph.f_final_answer := None;
          Graph.f_is_complete := false; Graph.f_is_followup := false |}.

Lemma finalize_answer_first_analysis_witness :
  Graph.f_final_answer (Graph.finalize_answer (list N) notFinalized staleState)
  = Some (str "Delivery is regulated.").
Proof.
  destruct (finalize_answer_first_analysis notFinalized staleState eq_refl)
    as (_ & _ & Hfirst & _).
  apply (Hfirst [] _ _ eq_refl); [constructor|]. by eexists _, _.
Defined.

End Finalize.

(** ** [LangGraphMemoryView.tsx]: searching while typing *)

Module SearchPanel.
Import Js MemoryView.

(** The JSON of a response of [/langgraph-memory/search/...], with
    [response.ok]; [inr message] stands for an exception of [fetch] or of
    [response.json()], with the message of the error. *)
Record SearchResponse : Type := {
  response_ok : bool;
  search_results : option (list LangGraphMemoryEntry);
  response_error : option jsstring;
}.

(** The request of a search: the thread and the text of the query. *)
Record SearchRequest : Type := {
  request_thread : jsstring;
  request_query : jsstring;
}.

(** The state of the component, with the text of the search field and the
    timer that the effect on [searchQuery] has set, if it has not fired and
    was not cleared: it holds the [searchMemory] of the render in which it
    was set, that is, the text of the field in that render. *)
Record Panel : Type := {
  view : ViewState;
  searchQuery : jsstring;
  searchTimer : option jsstring;
}.

Definition initialPanel : Panel :=
  {| view := {| memoryEntries := []; memoryStats := None;
                searchResults := []; isLoading := false; error := None;
                success := None |};
     searchQuery := []; searchTimer := None |}.

Definition setSearchResults (results : list LangGraphMemoryEntry)
    (st : ViewState) : ViewState :=
  {| memoryEntries := memoryEntries st; memoryStats := memoryStats st;
     searchResults := results; isLoading := isLoading st; error := error st;
     success := success st |}.

Section Search.

(** The property [threadId] of the component. *)
Variable threadId : jsstring.

(** [searchMemory], in a render whose field holds [searchQuery]: the state
    it leaves and the request it sends, if it sends one.  (The timer that
    removes the message of success after three seconds is left out.) *)
Definition searchMemory (searchQuery : jsstring)
    (response : SearchResponse + jsstring) (st : ViewState)
    : ViewState * option SearchRequest :=
  if bool_decide (threadId = []) || bool_decide (trim searchQuery = [])
  then (st, None)
  else
    (match response with
     | inl data =>
         if response_ok data then
           {| memoryEntries := memoryEntries st;
              memoryStats := memoryStats st;
              searchResults := default [] (search_results data);
              isLoading := false; error := None;
              success :=
                Some (str "Found "
                        ++ History.decimal
                             (default 0 (length <$> search_results data))
                        ++ str " results for " ++ [34%N] ++ searchQuery
                        ++ [34%N]) |}
         else
           {| memoryEntries := memoryEntries st;
              memoryStats := memoryStats st;
              searchResults := searchResults st;
              isLoading := false;
              error :=
                Some (str "Search failed: "
                        ++ History.or_string (response_error data)
                                             (str "Unknown error"));
              success := success st |}
     | inr message =>
         {| memoryEntries := memoryEntries st; memoryStats := memoryStats st;
            searchResults := searchResults st; isLoading := false;
            error := Some (str "Search error: " ++ message);
            success := success st |}
     end,
     Some {| request_thread := threadId; request_query := searchQuery |}).

(** The field changes to [value]: [setSearchQuery(e.target.value)], then
    the effect on [searchQuery].  When the text is the one the field held,
    nothing is rendered and the effect does not run.  Otherwise the effect
    of the text before is cleaned up, which clears its timer, and the
    effect runs: it sets a timer of 500 ms for a text that is not blank,
    and empties the results for one that is. *)
Definition onSearchQueryChange (value : jsstring) (panel : Panel) : Panel :=
  if bool_decide (value = searchQuery panel) then panel
  else if bool_decide (trim value = [])
  then {| view := setSearchResults [] (view panel);
          searchQuery := value; searchTimer := None |}
  else {| view := view panel; searchQuery := value;
          searchTimer := Some value |}.

(** The timer fires. *)
Definition onSearchTimer (response : SearchResponse + jsstring)
    (panel : Panel) : Panel * option SearchRequest :=
  match searchTimer panel with
  | Some seenQuery =>
      let result := searchMemory seenQuery response (view panel) in
      ({| view := result.1; searchQuery := searchQuery panel;
          searchTimer := None |}, result.2)
  | None => (panel, None)
  end.

(** The button of the search tab: [onClick={searchMemory}]. *)
Definition onSearchClick (response : SearchResponse + jsstring)
    (panel : Panel) : Panel * option SearchRequest :=
  let result := searchMemory (searchQuery panel) response (view panel) in
  ({| view := result.1; searchQuery := searchQuery panel;
      searchTimer := searchTimer panel |}, result.2).

(** The button that clears the memory: [clearMemory]. *)
Definition onClearClick (confirmed : bool)
    (response : ClearResponse + jsstring) (panel : Panel) : Panel :=
  {| view := clearMemory threadId confirmed response (view panel);
     searchQuery := searchQuery panel; searchTimer := searchTimer panel |}.

(** What the user and the clock can do to the search tab. *)
Inductive step : Panel → Panel → Prop :=
  | step_change (value : jsstring) (panel : Panel) :
      step panel (onSearchQueryChange value panel)
  | step_timer (response : SearchResponse + jsstring) (panel : Panel) :
      step panel (onSearchTimer response panel).1
  | step_click (response : SearchResponse + jsstring) (panel : Panel) :
      step panel (onSearchClick response panel).1
  | step_clear (confirmed : bool) (response : ClearResponse + jsstring)
      (panel : Panel) :
      step panel (onClearClick confirmed response panel).

(** A timer that is set is the timer of the text that the field holds,
    and that text is not blank. *)
Definition timerCurrent (panel : Panel) : Prop :=
  ∀ seenQuery, searchTimer panel = Some seenQuery →
    seenQuery = searchQuery panel ∧ trim seenQuery ≠ [].

Lemma step_timerCurrent (panel panel' : Panel) :
  step panel panel' → timerCurrent panel → timerCurrent panel'.
Proof.
  unfold timerCurrent.
  destruct 1 as [value panel|response panel|response panel
                |confirmed response panel]; intros Hpanel seenQuery; simpl.
  - unfold onSearchQueryChange. case_bool_decide; [by apply Hpanel|].
    case_bool_decide; simpl; [done|]. by intros [= <-].
  - unfold onSearchTimer.
    destruct (searchTimer panel) as [seen|] eqn:Htimer; simpl; [done|].
    by rewrite Htimer.
  - by apply Hpanel.
  - by apply Hpanel.
Qed.

(** X22. Whatever is typed, clicked and cleared, and whenever timers
    fire, a search that a timer starts asks for the text that the field
    holds when it fires, never for a text that was typed before it, and
    never for a blank one; and it asks at all exactly when the thread has
    an identifier.  A change of the field to a blank text leaves no timer
    behind. *)
Theorem search_timer_current (panel : Panel)
    (response : SearchResponse + jsstring) :
  rtc step initialPanel panel →
  (∀ request, (onSearchTimer response panel).2 = Some request →
     request_query request = searchQuery panel ∧
     trim (request_query request) ≠ [] ∧
     request_thread request = threadId ∧ threadId ≠ []) ∧
  (threadId ≠ [] → is_Some (searchTimer panel) →
     is_Some (onSearchTimer response panel).2) ∧
  (∀ value, trim value = [] →
     searchTimer (onSearchQueryChange value panel) = None).
Proof.
  intros Hsteps.
  assert (timerCurrent panel) as Hcurrent.
  { assert (timerCurrent initialPanel) as Hinitial by done.
    revert Hinitial. generalize initialPanel Hsteps.
    induction 1 as [|p1 p2 p3 Hstep _ IH]; [done|].
    intros Hp1. by eapply IH, step_timerCurrent. }
  unfold onSearchTimer, searchMemory. split; [|split].
  - intros request. destruct (searchTimer panel) as [seenQuery|] eqn:Htimer;
      [|done].
    destruct (Hcurrent _ Htimer) as [-> Hblank]. simpl.
    case_bool_decide as Hthread; [done|].
    rewrite bool_decide_eq_false_2 by done. simpl. by intros [= <-].
  - intros Hthread [seenQuery Htimer]. rewrite Htimer.
    destruct (Hcurrent _ Htimer) as [_ Hblank]. simpl.
    rewrite !bool_decide_eq_false_2 by done. by eexists.
  - intros value Hblank. unfold onSearchQueryChange.
    case_bool_decide as Hsame.
    + destruct (searchTimer panel) as [seenQuery|] eqn:Htimer; [|done].
      destruct (Hcurrent _ Htimer) as [-> Hne]. by rewrite Hsame in Hblank.
    + by rewrite bool_decide_eq_true_2.
Qed.

End Search.

(** X22 after three changes of the field, the last one back to a text
    typed before. *)
Lemma search_timer_current_witness :
  (onSearchTimer (str "thread_1") (inr (str "offline"))
     (onSearchQueryChange (str "pay")
        (onSearchQueryChange (str "paym")
           (onSearchQueryChange (str "pay") initialPanel)))).2
  = Some {| request_thread := str "thread_1"; request_query := str "pay" |}.
Proof.
  destruct (search_timer_current (str "thread_1")
              (onSearchQueryChange (str "pay")
                 (onSearchQueryChange (str "paym")
                    (onSearchQueryChange (str "pay") initialPanel)))
              (inr (str "offline"))) as (Hrequest & _).
  { eapply rtc_l; [apply (step_change _ (str "pay"))|].
    eapply rtc_l; [apply (step_change _ (str "paym"))|].
    apply rtc_once. apply (step_change _ (str "pay")). }
  destruct (onSearchTimer _ _ _).2 as [[thread query]|] eqn:Hsent.
  - destruct (Hrequest _ eq_refl) as (Hquery & _ & Hthread & _).
    simpl in Hquery, Hthread. by rewrite Hquery, Hthread.
  - by vm_compute in Hsent.
Defined.

End SearchPanel.

(** ** [App.tsx]: the lines that the stream reader passes over *)

Module ReaderLines.
Import Js.
Export StreamReader.

Lemma split_sep_app (sep : N) (x y : jsstring) :
  split sep (x ++ [sep] ++ y) = split sep x ++ split sep y.
Proof.
  by rewrite (assoc_L (++)), split_app, split_snoc_sep, popped_snoc, pop_snoc.
Qed.

(** The lines of a text into which a whole line was put, at its start or
    after one of its line feeds. *)
Lemma split_insert_line (sep : N) (before line after : jsstring) :
  before = [] ∨ (∃ text, before = text ++ [sep]) →
  sep ∉ line →
  ∃ first,
    split sep (before ++ after) = first ++ split sep after ∧
    split sep (before ++ line ++ [sep] ++ after)
    = first ++ line :: split sep after.
Proof.
  intros [->|[text ->]] Hline.
  - exists []. split; [done|].
    change (split sep (line ++ [sep] ++ after) = line :: split sep after).
    by rewrite (split_sep_app sep line after), (split_no_sep sep line).
  - exists (split sep text). rewrite <-!(assoc_L (++)). split.
    + apply split_sep_app.
    + rewrite (split_sep_app sep text), (split_sep_app sep line after).
      by rewrite (split_no_sep sep line).
Qed.

Section Skipped.

Variable TextDecoder : Type.
Variable newTextDecoder : TextDecoder.
Variable decode : TextDecoder → list byte → TextDecoder * jsstring.

Hypothesis decode_nil : ∀ d, decode d [] = (d, []).
Hypothesis decode_app : ∀ d value1 value2,
  decode d (value1 ++ value2)
  = let '(d1, text1) := decode d value1 in
    let '(d2, text2) := decode d1 value2 in
    (d2, text1 ++ text2).

Variable JSON_parse : jsstring → option StreamEvent.

Local Abbreviation readLoop :=
  (StreamReader.readLoop TextDecoder newTextDecoder decode JSON_parse).
Local Abbreviation decodeAll :=
  (StreamReader.decodeAll TextDecoder newTextDecoder decode).
Local Abbreviation onLine := (StreamReader.onLine JSON_parse).

(** X27. A line of the response that is not a record (it does not start
    with [data: ], or what follows does not parse) is passed over and the
    loop reads on: a response with such a line, put at its start or after
    one of its line feeds, dispatches the events of the response without
    it, and leaves the same text in the buffer. *)
Theorem readLoop_skips_line (chunks chunks' : list (list byte))
    (before line after : jsstring) :
  decodeAll (concat chunks) = before ++ after →
  decodeAll (concat chunks') = before ++ line ++ [LF] ++ after →
  before = [] ∨ (∃ text, before = text ++ [LF]) →
  LF ∉ line →
  onLine line = None →
  dispatched _ (readLoop chunks') = dispatched _ (readLoop chunks) ∧
  buffer _ (readLoop chunks') = buffer _ (readLoop chunks).
Proof.
  intros Htext Htext' Hbefore Hline Hskip.
  rewrite !(readLoop_stateAfter _ _ _ decode_nil decode_app).
  unfold stateAfter. unfold StreamReader.decodeAll in Htext, Htext'.
  destruct (decode newTextDecoder (concat chunks)) as [d text].
  destruct (decode newTextDecoder (concat chunks')) as [d' text'].
  cbn [snd] in Htext, Htext'. subst text text'. cbn [dispatched buffer].
  destruct (split_insert_line LF before line after Hbefore Hline)
    as (first & -> & ->).
  rewrite (popped_app_nonempty first (line :: _)), (popped_app_nonempty first),
    (pop_app_nonempty first (line :: _)), (pop_app_nonempty first)
    by (done || apply split_nonempty).
  destruct (split LF after) as [|l ls] eqn:Hafter;
    [by apply split_nonempty in Hafter|].
  rewrite popped_cons, pop_cons, !omap_app. simpl. by rewrite Hskip.
Qed.

End Skipped.

(** X27 at a response with a record that does not parse between two
    records. *)
Lemma readLoop_skips_line_witness :
  dispatched unit
    (StreamReader.readLoop unit tt decodeAscii parseBraces
       [list_byte_of_string "data: {a}" ++ [x0a]
          ++ list_byte_of_string "data: oops" ++ [x0a];
        list_byte_of_string "data: {b}" ++ [x0a]])
  = [ {| type := str "{a}"; content := [] |};
      {| type := str "{b}"; content := [] |} ].
Proof.
  assert (∀ d, decodeAscii d [] = (d, [])) as Hnil by done.
  assert (∀ d value1 value2,
            decodeAscii d (value1 ++ value2)
            = let '(d1, text1) := decodeAscii d value1 in
              let '(d2, text2) := decodeAscii d1 value2 in
              (d2, text1 ++ text2)) as Happ.
  { intros d v1 v2. unfold decodeAscii. by rewrite fmap_app. }
  destruct (readLoop_skips_line unit tt decodeAscii Hnil Happ parseBraces
              [list_byte_of_string "data: {a}" ++ [x0a]
                 ++ list_byte_of_string "data: {b}" ++ [x0a]]
              [list_byte_of_string "data: {a}" ++ [x0a]
                 ++ list_byte_of_string "data: oops" ++ [x0a];
               list_byte_of_string "data: {b}" ++ [x0a]]
              (str "data: {a}" ++ [LF]) (str "data: oops")
              (str "data: {b}" ++ [LF])) as [-> _].
  - reflexivity.
  - reflexivity.
  - right. by exists (str "data: {a}").
  - by vm_compute; intros H; repeat (apply elem_of_cons in H as [H|H]; [done|]);
      apply elem_of_nil in H.
  - reflexivity.
  - reflexivity.
Defined.

End ReaderLines.
